(** * LoopCraft: audio analysis, layer mixing and edit history

    A shallow embedding of the signal-processing and state-management code of
    the looper:
      - [js/audio-analyzer.js]  (module [Analyzer]): the synchronous analyser,
      - [js/analyzer-worker.js] (module [Worker]): the background analyser,
      - the recorder's [applyFades] (module [Recorder]),
      - the application's layer compositor and undo/redo bookkeeping
        (module [App]), its scale display (module [Scale]) and its chord
        cursor,
      - the player's WAV encoder (module [Player]),
      - the guitar chord diagrams (module [Guitar]).

    JavaScript numbers are modelled by [num]: exact rationals extended with
    [NaN], [+Infinity] and [-Infinity].  There is a single zero, and the
    special values follow IEEE-754 as JavaScript exposes it, so that divisions
    by zero and comparisons against [NaN] behave as they do in the program.
    Binary rounding is modelled where the layer compositor accumulates
    samples in the [Float32Array] of the mix ([App.addSample]: the operations
    round to binary64 and the store to binary32), since the order of the
    additions shows there; the arithmetic of the analysers, of the fades and
    of the WAV encoder is exact. *)

From Stdlib Require Import QArith Qround Qabs Qpower Lqa Lia ZArith.
From stdpp Require Import base option list sorting gmap strings pretty.

Local Open Scope Z_scope.

(** ** JavaScript numbers *)

Module JSNum.

Inductive num : Type :=
  | NaN
  | PInf
  | NInf
  | Fin (q : Q).

Definition of_Z (z : Z) : num := Fin (inject_Z z).
Definition of_nat (n : nat) : num := of_Z (Z.of_nat n).

(** Equality of numbers as values: finite values are compared as rationals. *)
Definition num_equiv (x y : num) : Prop :=
  match x, y with
  | NaN, NaN | PInf, PInf | NInf, NInf => True
  | Fin a, Fin b => (a == b)%Q
  | _, _ => False
  end.

Definition num_eqb (x y : num) : bool :=
  match x, y with
  | NaN, NaN | PInf, PInf | NInf, NInf => true
  | Fin a, Fin b => Qeq_bool a b
  | _, _ => false
  end.

Definition inf_of_sign (c : comparison) : num :=
  match c with
  | Gt => PInf
  | Lt => NInf
  | Eq => NaN
  end.

Definition nneg (x : num) : num :=
  match x with
  | NaN => NaN
  | PInf => NInf
  | NInf => PInf
  | Fin q => Fin (- q)
  end.

(** [x + y] *)
Definition nadd (x y : num) : num :=
  match x, y with
  | NaN, _ | _, NaN => NaN
  | PInf, NInf | NInf, PInf => NaN
  | PInf, _ | _, PInf => PInf
  | NInf, _ | _, NInf => NInf
  | Fin a, Fin b => Fin (a + b)
  end.

(** [x - y] *)
Definition nsub (x y : num) : num := nadd x (nneg y).

(** [x * y] *)
Definition nmul (x y : num) : num :=
  match x, y with
  | NaN, _ | _, NaN => NaN
  | Fin a, Fin b => Fin (a * b)
  | PInf, Fin b | Fin b, PInf => inf_of_sign (b ?= 0)%Q
  | NInf, Fin b | Fin b, NInf => inf_of_sign (0 ?= b)%Q
  | PInf, PInf | NInf, NInf => PInf
  | PInf, NInf | NInf, PInf => NInf
  end.

(** [x / y]; the only zero of the model is the positive one, so a non-zero
    finite numerator over zero yields the infinity of the numerator's sign and
    [0 / 0] is [NaN]. *)
Definition ndiv (x y : num) : num :=
  match x, y with
  | NaN, _ | _, NaN => NaN
  | Fin a, Fin b =>
      if Qeq_bool b 0 then inf_of_sign (a ?= 0)%Q else Fin (a / b)
  | Fin _, (PInf | NInf) => Fin 0
  | (PInf | NInf), (PInf | NInf) => NaN
  | PInf, Fin b => if Qle_bool 0 b then PInf else NInf
  | NInf, Fin b => if Qle_bool 0 b then NInf else PInf
  end.

(** [x > y]: false as soon as one side is [NaN]. *)
Definition ngtb (x y : num) : bool :=
  match x, y with
  | NaN, _ | _, NaN => false
  | PInf, PInf => false
  | PInf, _ => true
  | _, PInf => false
  | NInf, _ => false
  | Fin _, NInf => true
  | Fin a, Fin b => negb (Qle_bool a b)
  end.

(** [x < y] *)
Definition nltb (x y : num) : bool := ngtb y x.

(** [x >= y] *)
Definition ngeb (x y : num) : bool :=
  match x, y with
  | NaN, _ | _, NaN => false
  | PInf, _ => true
  | _, NInf => true
  | NInf, _ => false
  | Fin _, PInf => false
  | Fin a, Fin b => Qle_bool b a
  end.

(** [Math.abs] *)
Definition Math_abs (x : num) : num :=
  match x with
  | NaN => NaN
  | PInf | NInf => PInf
  | Fin q => Fin (Qabs q)
  end.

(** [Math.floor] *)
Definition Math_floor (x : num) : num :=
  match x with
  | Fin q => of_Z (Qfloor q)
  | _ => x
  end.

(** [Math.round]: the nearest integer, halves going up. *)
Definition Math_round (x : num) : num :=
  match x with
  | Fin q => of_Z (Qfloor (q + (1 # 2)))
  | _ => x
  end.

(** [Math.max(x, y)] and [Math.min(x, y)]: [NaN] is contagious. *)
Definition Math_max (x y : num) : num :=
  match x, y with
  | NaN, _ | _, NaN => NaN
  | _, _ => if ngtb y x then y else x
  end.

Definition Math_min (x y : num) : num :=
  match x, y with
  | NaN, _ | _, NaN => NaN
  | _, _ => if ngtb x y then y else x
  end.

(** [Math.max(...xs)]: [-Infinity] on the empty array. *)
Definition Math_max_list (xs : list num) : num := fold_left Math_max xs NInf.

(** [x % m] for integral [x] (remainder with the sign of the dividend);
    an infinite or [NaN] dividend gives [NaN]. *)
Definition nrem (x : num) (m : Z) : num :=
  match x with
  | Fin q => if Z.eqb m 0 then NaN else of_Z (Z.rem (Qfloor q) m)
  | _ => NaN
  end.

(** *** Binary rounding *)

(** [2^e] for an integer exponent. *)
Definition pow2 (e : Z) : Q := (2 ^ e)%Q.

(** [floor(log2 |q|)] for [q <> 0]: the difference of the bit lengths of the
    numerator and the denominator, or one less. *)
Definition ilog2 (q : Q) : Z :=
  let e := Z.log2 (Z.abs (Qnum q)) - Z.log2 (Z.pos (Qden q)) in
  if Qle_bool (pow2 e) (Qabs q) then e else e - 1.

(** The nearest integer, a tie going to the even one. *)
Definition round_half_even (x : Q) : Z :=
  let f := Qfloor x in
  match (x - inject_Z f ?= 1 # 2)%Q with
  | Lt => f
  | Gt => f + 1
  | Eq => if Z.even f then f else f + 1
  end.

(** Rounding to the nearest number of the binary floating-point format with
    [prec] bits of precision and exponents from [emin] to [emax], ties to
    even: the spacing of the format around [q] is [2^(e - prec + 1)] for
    [e = floor(log2 |q|)], and that of [emin] below the normal range; a
    magnitude that rounds to [2^(emax + 1)] becomes infinite. *)
Definition round_binary (prec emin emax : Z) (x : num) : num :=
  match x with
  | Fin q =>
      if Qeq_bool q 0 then Fin 0
      else
        let e := Z.max (ilog2 q) emin in
        let ulp := pow2 (e - prec + 1) in
        let r := (inject_Z (round_half_even (q / ulp)) * ulp)%Q in
        if Qle_bool (pow2 (emax + 1)) (Qabs r)
        then (if Qle_bool 0 q then PInf else NInf)
        else Fin r
  | _ => x
  end.

(** [Math.fround]: the conversion to binary32 that a store into a
    [Float32Array] applies. *)
Definition Math_fround : num -> num := round_binary 24 (-126) 127.

(** The rounding to binary64 of the result of an arithmetic operation. *)
Definition round64 : num -> num := round_binary 53 (-1022) 1023.

(** Reading an array cell in an arithmetic context: an index out of range
    reads [undefined], which arithmetic converts to [NaN]. *)
Definition get (xs : list num) (i : nat) : num := nth i xs NaN.

(** [for (x = start; x < stop; x += step)] with [step > 0]: the successive
    values of the loop variable. *)
Definition for_range (start stop step : Z) : list Z :=
  map (fun k => start + step * Z.of_nat k)
      (seq 0 (Z.to_nat ((stop - start + step - 1) / step))).

End JSNum.

Import JSNum.

(** ** Shared conventions of the two analysers *)

(** The sample rate of an [AudioBuffer] is a positive integer number of
    frames per second; the analysers receive it next to the samples of
    channel 0. *)
Definition rate (sampleRate : positive) : Q := inject_Z (Z.pos sampleRate).

(** [Math.floor(60 * (sampleRate / hopSize) / bpm)]: the lag, in envelope
    samples, of a tempo of [bpm] beats per minute.  The operands are finite
    and the divisor is not zero, so the value is computed on rationals. *)
Definition lagOfBPM (sampleRate : positive) (hopSize bpm : Z) : Z :=
  Qfloor (60 * (rate sampleRate / inject_Z hopSize) / inject_Z bpm).

(** [energy += Math.abs(x)] over a run of samples. *)
Definition sumAbs (samples : list num) : num :=
  fold_left (fun energy x => nadd energy (Math_abs x)) samples (Fin 0).

(** [xs.slice(start, stop)] for [0 <= start]. *)
Definition slice {A} (xs : list A) (start stop : nat) : list A :=
  take (stop - start) (drop start xs).

(** The functions of the JavaScript [Math] object that have no rational
    counterpart; the analysers are parametric in them. *)
Record JSMath : Type := {
  Math_PI : num;
  Math_cos : num -> num;
  Math_sin : num -> num;
  Math_sqrt : num -> num;
  Math_log2 : num -> num
}.

(** A JavaScript value that is a string or [undefined] is an
    [option string]; [x + s] converts [undefined] to its name. *)
Definition js_concat (x : option string) (s : string) : string :=
  default "undefined" x +:+ s.

(** [names[i]] for a numeric index: [undefined] unless [i] is an integer
    within the array. *)
Definition lookup_num (names : list string) (i : num) : option string :=
  match i with
  | Fin q =>
      if Qeq_bool (inject_Z (Qfloor q)) q && (0 <=? Qfloor q)
      then names !! Z.to_nat (Qfloor q)
      else None
  | _ => None
  end.

(** [x.toFixed(1)] for a finite [x] below 10^21: the nearest number of
    tenths (the larger one on a tie), written with one decimal. *)
Definition toFixed1 (x : Q) : string :=
  let tenths := Qfloor (Qabs x * 10 + (1 # 2)) in
  (if Qlt_le_dec x 0 then "-" else "")
    +:+ pretty (tenths / 10) +:+ "." +:+ pretty (tenths mod 10).

(** [xs.sort(cmp)]: the sort is stable, and [cmp a b > 0] asks for [b]
    before [a]; any other answer ([NaN] included) keeps the two in place.
    With a consistent comparator every stable sort returns the same array,
    the one of this insertion sort; with an inconsistent one ([NaN] among
    the compared values) JavaScript leaves the order to the engine, and the
    model takes the order of the insertion sort. *)
Fixpoint sort_insert {A} (cmp : A -> A -> num) (x : A) (sorted : list A)
  : list A :=
  match sorted with
  | [] => [x]
  | y :: rest =>
      if ngtb (cmp x y) (Fin 0) then y :: sort_insert cmp x rest
      else x :: y :: rest
  end.

Definition js_sort {A} (cmp : A -> A -> num) (xs : list A) : list A :=
  fold_right (sort_insert cmp) [] xs.

(** The chromatic name table shared by [detectKey] and [identifyChord]. *)
Definition notes : list string :=
  ["C"; "C#"; "D"; "D#"; "E"; "F"; "F#"; "G"; "G#"; "A"; "A#"; "B"].

(** [identifyChord(chromagram)]; its text is the same in
    [js/audio-analyzer.js] and in [js/analyzer-worker.js].  First the sorted
    indices of the three largest slots: *)
Definition topPitchClasses (chromagram : list num) : list nat :=
  let indexed := imap (fun idx val => (val, idx)) chromagram in
  let indexed := js_sort (fun a b => nsub (fst b) (fst a)) indexed in
  js_sort (fun a b => nsub (of_nat a) (of_nat b)) (map snd (take 3 indexed)).

(** then the root, the intervals and the chain of pattern tests.
    [notes[root]] is [undefined] when there is no root. *)
Definition labelOfTop3 (top3 : list nat) : option string :=
  let root := head top3 in
  let intervals :=
    map (fun pitch =>
           (Z.of_nat pitch - Z.of_nat (default 0%nat root) + 12) mod 12)
        top3 in
  let includes (i : Z) := bool_decide (i ∈ intervals) in
  let name := root ≫= (notes !!.) in
  if includes 0 && includes 4 && includes 7 then name
  else if includes 0 && includes 3 && includes 7 then Some (js_concat name "m")
  else if includes 0 && includes 4 && includes 10 then Some (js_concat name "7")
  else if includes 0 && includes 4 && includes 11
       then Some (js_concat name "maj7")
  else if includes 0 && includes 3 && includes 10
       then Some (js_concat name "m7")
  else name.

Definition identifyChord (chromagram : list num) : option string :=
  labelOfTop3 (topPitchClasses chromagram).

(** The part of [detectKey] after the chromagram, the same text in both
    files.  The loop over the twelve slots keeps the first slot that holds
    the largest value; a slot that cannot be compared ([NaN], or missing)
    never replaces the current one. *)
Definition dominantPitch (chromagram : list num) : nat :=
  snd (fold_left
         (fun (best : num * nat) i =>
            if ngtb (get chromagram i) (fst best)
            then (get chromagram i, i)
            else best)
         (seq 0 12) (NInf, 0%nat)).

(** The template literal [`${notes[dominantPitch]} ${mode}`]. *)
Definition keyOfChromagram (chromagram : list num) : string :=
  let dominantPitch := dominantPitch chromagram in
  let majorThird := get chromagram ((dominantPitch + 4) mod 12) in
  let minorThird := get chromagram ((dominantPitch + 3) mod 12) in
  let mode := if ngtb majorThird minorThird then "Major" else "Minor" in
  js_concat (notes !! dominantPitch) " " +:+ mode.

(** The loop over the bins of one frame's spectrum, common to
    [calculateChromagram] and [calculateChromagramFast]: bins below 80 Hz or
    above 2000 Hz are skipped, the others add their magnitude to the slot of
    their pitch class. *)
Definition accumulateBins (Math : JSMath) (sampleRate : positive)
    (fftSize : Z) (spectrum chromagram : list num) : list num :=
  fold_left
    (fun chromagram bin =>
       (* bin < spectrum.length / 2, i.e. bin < (length + 1) div 2 *)
       let freq := (inject_Z bin * rate sampleRate / inject_Z fftSize)%Q in
       if Qlt_le_dec freq 80 then chromagram
       else if Qlt_le_dec 2000 freq then chromagram
       else
         let pitch :=
           nadd (nmul (Fin 12) (Math_log2 Math (ndiv (Fin freq) (Fin 440))))
                (Fin 57) in
         let pitchClass := nrem (Math_round pitch) 12 in
         match pitchClass with
         | Fin pc =>
             if ngeb pitchClass (Fin 0) && nltb pitchClass (Fin 12)
             then
               let slot := Z.to_nat (Qfloor pc) in
               <[slot := nadd (get chromagram slot)
                              (get spectrum (Z.to_nat bin))]> chromagram
             else chromagram
         | _ => chromagram
         end)
    (for_range 1 ((Z.of_nat (length spectrum) + 1) / 2) 1)
    chromagram.

Module Analyzer.

(** *** [detectTempo] *)

Definition hopSize : Z := 512.
Definition minBPM : Z := 60.
Definition maxBPM : Z := 180.

(** The envelope loop of [detectTempo]: one value per hop start
    [i = 0, 512, 1024, ...]; the inner loop stops at the end of the data, and
    the sum is divided by [hopSize]. *)
Definition energyEnvelope (audioData : list num) : list num :=
  map (fun i =>
         let energy :=
           sumAbs (take (Z.to_nat hopSize) (drop (Z.to_nat i) audioData)) in
         ndiv energy (of_Z hopSize))
      (for_range 0 (Z.of_nat (length audioData)) hopSize).

Definition minLag (sampleRate : positive) : Z := lagOfBPM sampleRate hopSize maxBPM.
Definition maxLag (sampleRate : positive) : Z := lagOfBPM sampleRate hopSize minBPM.

(** The body of the lag loop up to [correlation /= count]: [count] is the
    number of iterations of the inner loop, [energyEnvelope.length - lag]
    when that is positive and 0 otherwise. *)
Definition correlation (energyEnvelope : list num) (lag : Z) : num :=
  let count := Z.to_nat (Z.of_nat (length energyEnvelope) - lag) in
  let total :=
    fold_left
      (fun c i =>
         nadd c (nmul (get energyEnvelope i)
                      (get energyEnvelope (i + Z.to_nat lag))))
      (seq 0 count) (Fin 0) in
  ndiv total (of_nat count).

(** The lag loop, as a fold on the pair [(bestCorr, bestLag)]. *)
Definition bestLag (energyEnvelope : list num) (sampleRate : positive) : Z :=
  snd (fold_left
         (fun best lag =>
            if ngtb (correlation energyEnvelope lag) (fst best)
            then (correlation energyEnvelope lag, lag)
            else best)
         (for_range (minLag sampleRate) (maxLag sampleRate) 1)
         (NInf, 0)).

Definition detectTempo (audioData : list num) (sampleRate : positive) : num :=
  let energyEnvelope := energyEnvelope audioData in
  let bestLag := bestLag energyEnvelope sampleRate in
  let bpm :=
    Math_round (ndiv (Fin (60 * (rate sampleRate / inject_Z hopSize)))
                     (of_Z bestLag)) in
  Math_max (of_Z 60) (Math_min (of_Z 180) bpm).

(** *** [fft] and [calculateChromagram] *)

(** The direct transform: [spectrum[k]] is the magnitude of the sum of
    [signal[i]] times the unit vector of angle [-2 * PI * k * i / n]. *)
Definition fft (Math : JSMath) (signal : list num) : list num :=
  let n := length signal in
  map (fun k =>
         let sums :=
           fold_left
             (fun (acc : num * num) i =>
                let angle :=
                  ndiv (nmul (nmul (nmul (Fin (-2)) (Math_PI Math)) (of_nat k))
                             (of_nat i))
                       (of_nat n) in
                (nadd (fst acc) (nmul (get signal i) (Math_cos Math angle)),
                 nadd (snd acc) (nmul (get signal i) (Math_sin Math angle))))
             (seq 0 n) (Fin 0, Fin 0) in
         Math_sqrt Math (nadd (nmul (fst sums) (fst sums))
                              (nmul (snd sums) (snd sums))))
      (seq 0 n).

Definition fftSize : Z := 4096.

(** Frames start at [i = 0, 2048, 4096, ...] while
    [i < audioData.length - fftSize]; the result is every slot divided by
    the largest one. *)
Definition calculateChromagram (Math : JSMath) (audioData : list num)
    (sampleRate : positive) : list num :=
  let chromagram :=
    fold_left
      (fun chromagram i =>
         let chunk :=
           slice audioData (Z.to_nat i) (Z.to_nat (i + fftSize)) in
         let spectrum := fft Math chunk in
         accumulateBins Math sampleRate fftSize spectrum chromagram)
      (for_range 0 (Z.of_nat (length audioData) - fftSize) (fftSize / 2))
      (replicate 12 (Fin 0)) in
  let max := Math_max_list chromagram in
  map (fun x => ndiv x max) chromagram.

(** *** [detectChords] *)

(** One entry of the result: the label of the time span and the chord. *)
Record ChordSpan : Type := {
  time : string;
  chord : option string
}.

(** Windows of [2 * sampleRate] samples starting at
    [start = 0, windowSize, ...] below [audioData.length]; every window is
    classified and pushed. *)
Definition detectChords (Math : JSMath) (audioData : list num)
    (sampleRate : positive) : list ChordSpan :=
  let windowSize := 2 * Z.pos sampleRate in
  map (fun start =>
         let end_ := Z.min (start + windowSize) (Z.of_nat (length audioData)) in
         let window := slice audioData (Z.to_nat start) (Z.to_nat end_) in
         let chromagram := calculateChromagram Math window sampleRate in
         let chord := identifyChord chromagram in
         let timeStart := (inject_Z start / rate sampleRate)%Q in
         let timeEnd := (inject_Z end_ / rate sampleRate)%Q in
         {| time := toFixed1 timeStart +:+ "s - " +:+ toFixed1 timeEnd +:+ "s";
            chord := chord |})
      (for_range 0 (Z.of_nat (length audioData)) windowSize).

(** *** [detectKey] *)

Definition detectKey (Math : JSMath) (audioData : list num)
    (sampleRate : positive) : string :=
  keyOfChromagram (calculateChromagram Math audioData sampleRate).

End Analyzer.

Module Worker.

(** *** [detectTempo] *)

Definition hopSize : Z := 2048.
Definition minBPM : Z := 60.
Definition maxBPM : Z := 180.

(** [audioData.slice(0, Math.min(audioData.length, 10 * sampleRate))] *)
Definition tempoData (audioData : list num) (sampleRate : positive) : list num :=
  slice audioData 0
        (Z.to_nat (Z.min (Z.of_nat (length audioData)) (10 * Z.pos sampleRate))).

(** The envelope loop of the worker's [detectTempo]: the sum over
    [data[i .. end)] with [end = Math.min(i + hopSize, data.length)] is
    divided by [end - i]. *)
Definition energyEnvelope (data : list num) : list num :=
  map (fun i =>
         let end_ := Z.min (i + hopSize) (Z.of_nat (length data)) in
         let energy := sumAbs (slice data (Z.to_nat i) (Z.to_nat end_)) in
         ndiv energy (of_Z (end_ - i)))
      (for_range 0 (Z.of_nat (length data)) hopSize).

Definition minLag (sampleRate : positive) : Z := lagOfBPM sampleRate hopSize maxBPM.
Definition maxLag (sampleRate : positive) : Z := lagOfBPM sampleRate hopSize minBPM.

(** The inner loop visits [i = 0, 2, 4, ...] below
    [energyEnvelope.length - lag] and counts its iterations. *)
Definition correlation (energyEnvelope : list num) (lag : Z) : num :=
  let visited := for_range 0 (Z.of_nat (length energyEnvelope) - lag) 2 in
  let total :=
    fold_left
      (fun c i =>
         nadd c (nmul (get energyEnvelope (Z.to_nat i))
                      (get energyEnvelope (Z.to_nat (i + lag)))))
      visited (Fin 0) in
  ndiv total (of_nat (length visited)).

(** The lag loop visits every fifth lag. *)
Definition bestLag (energyEnvelope : list num) (sampleRate : positive) : Z :=
  snd (fold_left
         (fun best lag =>
            if ngtb (correlation energyEnvelope lag) (fst best)
            then (correlation energyEnvelope lag, lag)
            else best)
         (for_range (minLag sampleRate) (maxLag sampleRate) 5)
         (NInf, 0)).

Definition detectTempo (audioData : list num) (sampleRate : positive) : num :=
  let data := tempoData audioData sampleRate in
  let energyEnvelope := energyEnvelope data in
  let bestLag := bestLag energyEnvelope sampleRate in
  let bpm :=
    Math_round (ndiv (Fin (60 * (rate sampleRate / inject_Z hopSize)))
                     (of_Z bestLag)) in
  Math_max (of_Z 60) (Math_min (of_Z 180) bpm).

(** *** [fftFast] and [calculateChromagramFast] *)

(** Only the first [Math.floor(n / 2)] bins are computed. *)
Definition fftFast (Math : JSMath) (signal : list num) : list num :=
  let n := length signal in
  map (fun k =>
         let angleStep :=
           ndiv (nmul (nmul (Fin (-2)) (Math_PI Math)) (of_nat k)) (of_nat n) in
         let sums :=
           fold_left
             (fun (acc : num * num) i =>
                let angle := nmul angleStep (of_nat i) in
                (nadd (fst acc) (nmul (get signal i) (Math_cos Math angle)),
                 nadd (snd acc) (nmul (get signal i) (Math_sin Math angle))))
             (seq 0 n) (Fin 0, Fin 0) in
         Math_sqrt Math (nadd (nmul (fst sums) (fst sums))
                              (nmul (snd sums) (snd sums))))
      (seq 0 (n / 2)).

Definition fftSize : Z := 2048.

(** Frames do not overlap and stop before
    [Math.min(audioData.length, 2 * sampleRate) - fftSize]; the division by
    the maximum happens only when it is positive. *)
Definition calculateChromagramFast (Math : JSMath) (audioData : list num)
    (sampleRate : positive) : list num :=
  let maxSamples :=
    Z.min (Z.of_nat (length audioData)) (2 * Z.pos sampleRate) in
  let chromagram :=
    fold_left
      (fun chromagram i =>
         let chunk :=
           slice audioData (Z.to_nat i) (Z.to_nat (i + fftSize)) in
         let spectrum := fftFast Math chunk in
         accumulateBins Math sampleRate fftSize spectrum chromagram)
      (for_range 0 (maxSamples - fftSize) fftSize)
      (replicate 12 (Fin 0)) in
  let max := Math_max_list chromagram in
  if ngtb max (Fin 0) then map (fun x => ndiv x max) chromagram
  else chromagram.

(** *** [detectChordSimple] and [detectChords] *)

(** The mean absolute value of each full run of 100 samples starting at
    [i = 0, 100, ...] below [audioData.length - step]; the chord is read off
    the number of runs whose mean exceeds 1.5 times the average. *)
Definition detectChordSimple (audioData : list num) (sampleRate : positive)
  : string :=
  let step := 100 in
  let peaks :=
    map (fun i =>
           let sum :=
             fold_left
               (fun sum j => nadd sum (Math_abs (get audioData (Z.to_nat i + j))))
               (seq 0 (Z.to_nat step)) (Fin 0) in
           ndiv sum (of_Z step))
        (for_range 0 (Z.of_nat (length audioData) - step) step) in
  let avgEnergy :=
    ndiv (fold_left nadd peaks (Fin 0)) (of_nat (length peaks)) in
  let peakCount :=
    length (filter (fun p => ngtb p (nmul avgEnergy (Fin (3 # 2))) = true)
                   peaks) in
  let notes := ["C"; "D"; "E"; "F"; "G"; "A"; "B"] in
  let chordTypes := [""; "m"; "7"] in
  let noteIndex :=
    nrem (Math_floor (ndiv (of_nat (peakCount * 7)) (of_nat (length peaks)))) 7 in
  let typeIndex := (peakCount mod 3)%nat in
  js_concat (lookup_num notes noteIndex) (default "undefined" (chordTypes !! typeIndex)).

(** One event of the worker's chord timeline. *)
Record ChordEvent : Type := {
  time : string;
  timeInSeconds : Q;
  chord : string
}.

(** The window loop, one call per remaining window start: a window shorter
    than half the nominal size ends the loop ([break]); a chord equal to the
    last pushed one is not pushed again. *)
Fixpoint detectChordsLoop (audioData : list num) (sampleRate : positive)
    (starts : list Z) (chords : list ChordEvent) : list ChordEvent :=
  match starts with
  | [] => chords
  | start :: starts =>
      let windowSize := Z.pos sampleRate in
      let end_ := Z.min (start + windowSize) (Z.of_nat (length audioData)) in
      let window := slice audioData (Z.to_nat start) (Z.to_nat end_) in
      if Qlt_le_dec (inject_Z (Z.of_nat (length window)))
                    (inject_Z windowSize * (1 # 2))
      then chords
      else
        let chord := detectChordSimple window sampleRate in
        let timeInSeconds := (inject_Z start / rate sampleRate)%Q in
        let chords :=
          match last chords with
          | Some previous =>
              if String.eqb (Worker.chord previous) chord then chords
              else chords ++ [{| time := toFixed1 timeInSeconds +:+ "s";
                                 timeInSeconds := timeInSeconds;
                                 chord := chord |}]
          | None =>
              chords ++ [{| time := toFixed1 timeInSeconds +:+ "s";
                            timeInSeconds := timeInSeconds;
                            chord := chord |}]
          end in
        detectChordsLoop audioData sampleRate starts chords
  end.

Definition detectChords (audioData : list num) (sampleRate : positive)
  : list ChordEvent :=
  let windowSize := Z.pos sampleRate in
  let hopSize := windowSize in
  let chords :=
    detectChordsLoop audioData sampleRate
      (for_range 0 (Z.of_nat (length audioData)) hopSize) [] in
  match chords with
  | [] => [{| time := "0.0s"; timeInSeconds := 0; chord := "C" |}]
  | _ => chords
  end.

(** *** [detectKey] *)

(** Only the first five seconds are analysed. *)
Definition detectKey (Math : JSMath) (audioData : list num)
    (sampleRate : positive) : string :=
  let maxSamples :=
    Z.min (Z.of_nat (length audioData)) (5 * Z.pos sampleRate) in
  let data := slice audioData 0 (Z.to_nat maxSamples) in
  keyOfChromagram (calculateChromagramFast Math data sampleRate).

End Worker.

(** An instance of [JSMath] by short rational formulas (truncated series, an
    integer square root, an integer logarithm), to run the analysers on
    concrete inputs. *)
Definition sampleMath : JSMath :=
  {| Math_PI := Fin (355 # 113);
     Math_cos := fun x =>
       match x with
       | Fin q => Fin (1 - q * q / 2)
       | _ => NaN
       end;
     Math_sin := fun x =>
       match x with
       | Fin q => Fin (q - q * q * q / 6)
       | _ => NaN
       end;
     Math_sqrt := fun x =>
       match x with
       | Fin q =>
           if Qlt_le_dec q 0 then NaN
           else Fin (inject_Z (Z.sqrt (Qfloor (q * 1000000))) / 1000)
       | PInf => PInf
       | _ => NaN
       end;
     Math_log2 := fun x =>
       match x with
       | Fin q =>
           if Qlt_le_dec 0 q
           then Fin (inject_Z (Z.log2 (Qfloor (q * 1024))) - 10)
           else if Qeq_bool q 0 then NInf else NaN
       | PInf => PInf
       | _ => NaN
       end |}.

(** The classification as the specification words it, for comparison with
    [identifyChord]: of three pitch classes the lowest is the root, and the
    set of intervals from the root is matched against the ordered templates
    [{0,4,7}], [{0,3,7}], [{0,4,10}], [{0,4,11}], [{0,3,10}]; without a match
    the label is the bare root name.  [i1 < i2] are the two intervals above
    the root. *)
Definition spec_chordLabel (root i1 i2 : nat) : string :=
  let name := nth root notes "" in
  if (i1 =? 4)%nat && (i2 =? 7)%nat then name
  else if (i1 =? 3)%nat && (i2 =? 7)%nat then name +:+ "m"
  else if (i1 =? 4)%nat && (i2 =? 10)%nat then name +:+ "7"
  else if (i1 =? 4)%nat && (i2 =? 11)%nat then name +:+ "maj7"
  else if (i1 =? 3)%nat && (i2 =? 10)%nat then name +:+ "m7"
  else name.

(** The three pitch classes of [top] carry more energy than every other
    slot of a 12-slot chromagram. *)
Definition dominant (top : list nat) (chromagram : list num) : Prop :=
  length chromagram = 12%nat /\
  forall i j : nat,
    i ∈ top -> j ∉ top -> (j < 12)%nat ->
    ngtb (get chromagram i) (get chromagram j) = true.

(** The energy of a 12-slot chromagram is concentrated exactly at the pitch
    classes of [top]: positive there, zero elsewhere. *)
Definition concentrated (top : list nat) (chromagram : list num) : Prop :=
  length chromagram = 12%nat /\
  forall i : nat,
    (i < 12)%nat ->
    if bool_decide (i ∈ top)
    then ngtb (get chromagram i) (Fin 0) = true
    else num_equiv (get chromagram i) (Fin 0).

(** *** Comparing the two chord detectors *)

(** The synchronous result and the worker's result name the same chords in
    the same order (the weakest reading of "the same event sequence": the
    two record types differ). *)
Definition same_chords (sync : list Analyzer.ChordSpan)
    (worker : list Worker.ChordEvent) : Prop :=
  Forall2 (fun s e => Analyzer.chord s = Some (Worker.chord e)) sync worker.

(** No two neighbours of a chord timeline carry the same label. *)
Definition no_adjacent_repeat (chords : list Worker.ChordEvent) : Prop :=
  forall (i : nat) (x y : Worker.ChordEvent),
    chords !! i = Some x -> chords !! S i = Some y ->
    Worker.chord x <> Worker.chord y.

(** Two and a half seconds of a constant signal sampled at 8000 Hz. *)
Definition constantClip : list num := replicate (Z.to_nat 20000) (Fin 1).

(** *** Well-behaved inputs of the spectral code *)

Definition finite (x : num) : Prop := exists q : Q, x = Fin q.

Definition finite_nonneg (x : num) : Prop :=
  exists q : Q, x = Fin q /\ (0 <= q)%Q.

(** A [Math] object whose functions return finite numbers on finite
    arguments, with a non-negative square root. *)
Definition regular (Math : JSMath) : Prop :=
  finite (Math_PI Math) /\
  (forall q, finite (Math_cos Math (Fin q))) /\
  (forall q, finite (Math_sin Math (Fin q))) /\
  (forall q, (0 <= q)%Q -> finite_nonneg (Math_sqrt Math (Fin q))).

(** ** Audio buffers *)

(** An [AudioBuffer] object: its sample rate, its [length] in frames and the
    sample arrays that [getChannelData] hands out.  Buffers are objects, so
    the program's variables hold references ([loc]) into a heap; what
    [getChannelData] returns is the live array of the buffer. *)
Record AudioBuffer : Type := {
  sampleRate : positive;
  frameCount : nat;
  channels : list (list num)
}.

Definition numberOfChannels (b : AudioBuffer) : nat := length (channels b).

(** [b.getChannelData(c)] *)
Definition getChannelData (b : AudioBuffer) (c : nat) : list num :=
  nth c (channels b) [].

Abbreviation loc := nat (only parsing).
Abbreviation heap := (gmap nat AudioBuffer) (only parsing).

(** JavaScript has no dangling references; a reference outside the heap of
    the model reads as a buffer without frames. *)
Global Instance AudioBuffer_inhabited : Inhabited AudioBuffer :=
  populate {| sampleRate := 1; frameCount := 0; channels := [] |}.

(** [xs[i] = v] on an [Array]: an index past the end extends the array, and
    the cells in between are holes, which read [undefined]. *)
Definition array_set {A} (hole : A) (xs : list A) (i : nat) (v : A) : list A :=
  if decide (i < length xs)%nat then <[i := v]> xs
  else xs ++ replicate (i - length xs) hole ++ [v].

Module Recorder.

(** [Math.floor(0.005 * sampleRate)] *)
Definition fadeLength (sampleRate : positive) : Z :=
  Qfloor ((5 # 1000) * rate sampleRate).

(** The two loops of [applyFades] on the array of one channel.  A
    [Float32Array] has a fixed length: a write outside it does nothing. *)
Definition fadeChannel (fadeLength : Z) (data : list num) : list num :=
  let faded_in :=
    fold_left
      (fun data i =>
         <[i := nmul (get data i) (ndiv (of_nat i) (of_Z fadeLength))]> data)
      (seq 0 (Z.to_nat fadeLength)) data in
  fold_left
    (fun data i =>
       let idx := Z.of_nat (length data) - fadeLength + Z.of_nat i in
       if 0 <=? idx
       then <[Z.to_nat idx :=
                nmul (get data (Z.to_nat idx))
                     (ndiv (of_Z (fadeLength - Z.of_nat i)) (of_Z fadeLength))]>
              data
       else data)
    (seq 0 (Z.to_nat fadeLength)) faded_in.

(** [applyFades(audioBuffer)] writes into the arrays of [audioBuffer] and
    returns [audioBuffer]. *)
Definition applyFades (σ : heap) (audioBuffer : loc) : heap * loc :=
  (alter
     (fun b =>
        {| sampleRate := sampleRate b;
           frameCount := frameCount b;
           channels :=
             map (fadeChannel (fadeLength (sampleRate b))) (channels b) |})
     audioBuffer σ,
   audioBuffer).

End Recorder.

(** ** The application: layers, mixing and history *)

Module App.

(** An entry of [undoStack] or [redoStack]: copies of the three arrays. *)
Record Snapshot : Type := {
  saved_layers : list loc;
  saved_layerVolumes : list num;
  saved_layerMuted : list bool
}.

(** The fields of [AudioLooperApp] that the compositor and the history use
    (the status line, the waveform and the other widgets are left out).
    [audioContext] holds the sample rate of the context once one exists.
    The end of a list is the top of a stack ([push] and [pop] work there,
    [shift] removes the head).  A hole of [layerVolumes] is kept as [NaN] and
    a hole of [layerMuted] as [false], which is how they read in [mixLayers]. *)
Record State : Type := {
  layers : list loc;
  layerVolumes : list num;
  layerMuted : list bool;
  undoStack : list Snapshot;
  redoStack : list Snapshot;
  loopAudioBuffer : option loc;
  audioContext : option positive
}.

Definition set_loopAudioBuffer (buffer : option loc) (st : State) : State :=
  {| layers := layers st; layerVolumes := layerVolumes st;
     layerMuted := layerMuted st; undoStack := undoStack st;
     redoStack := redoStack st; loopAudioBuffer := buffer;
     audioContext := audioContext st |}.

(** [mixedData[i] += sample * volume] on the [Float32Array] of the mix: the
    product and the sum are operations on numbers, each rounded to binary64,
    and the store into the array rounds the sum to binary32. *)
Definition addSample (mixed sample volume : num) : num :=
  Math_fround (round64 (nadd mixed (round64 (nmul sample volume)))).

(** [mixedData[i] += channelData[i] * volume] for every [i] below
    [channelData.length]. *)
Fixpoint addScaled (mixedData channelData : list num) (volume : num)
  : list num :=
  match mixedData, channelData with
  | m :: mixedData, c :: channelData =>
      addSample m c volume :: addScaled mixedData channelData volume
  | _, _ => mixedData
  end.

(** One call of the inner [forEach] of [mixLayers]. *)
Definition mixLayer (st : State) (channel : nat) (mixedData : list num)
    (layerIndex : nat) (layer : AudioBuffer) : list num :=
  if nth layerIndex (layerMuted st) false then mixedData
  else
    let volume := get (layerVolumes st) layerIndex in
    let channelData :=
      getChannelData layer (Nat.min channel (numberOfChannels layer - 1)) in
    addScaled mixedData channelData volume.

(** [mixLayers()]: the result ([null] is [None]), the heap, in which the
    mixed buffer is a new object, and the state, in which the audio context
    exists once a mix was computed. *)
Definition mixLayers (σ : heap) (st : State) : option loc * heap * State :=
  match layers st with
  | [] => (None, σ, st)
  | [layer] => (Some layer, σ, st)
  | _ =>
      let context := default 44100%positive (audioContext st) in
      let st :=
        {| layers := layers st; layerVolumes := layerVolumes st;
           layerMuted := layerMuted st; undoStack := undoStack st;
           redoStack := redoStack st; loopAudioBuffer := loopAudioBuffer st;
           audioContext := Some context |} in
      let buffers := map (fun layer => σ !!! layer) (layers st) in
      let maxLength :=
        fold_left (fun m layer => Nat.max m (frameCount layer)) buffers 0%nat in
      let maxChannels :=
        fold_left (fun m layer => Nat.max m (numberOfChannels layer))
                  buffers 1%nat in
      let mixed :=
        map (fun channel =>
               fold_left
                 (fun mixedData (entry : nat * AudioBuffer) =>
                    mixLayer st channel mixedData (fst entry) (snd entry))
                 (imap pair buffers)
                 (replicate maxLength (Fin 0)))
            (seq 0 maxChannels) in
      let mixedBuffer := fresh (dom σ) in
      (Some mixedBuffer,
       <[mixedBuffer := {| sampleRate := context;
                           frameCount := maxLength;
                           channels := mixed |}]> σ,
       st)
  end.

Definition snapshot (st : State) : Snapshot :=
  {| saved_layers := layers st;
     saved_layerVolumes := layerVolumes st;
     saved_layerMuted := layerMuted st |}.

(** [stack.push(entry)], then [stack.shift()] when more than 10 remain. *)
Definition pushBounded (stack : list Snapshot) (entry : Snapshot)
  : list Snapshot :=
  let stack := stack ++ [entry] in
  if decide (10 < length stack)%nat then tail stack else stack.

Definition saveStateToUndo (st : State) : State :=
  {| layers := layers st; layerVolumes := layerVolumes st;
     layerMuted := layerMuted st;
     undoStack := pushBounded (undoStack st) (snapshot st);
     redoStack := redoStack st; loopAudioBuffer := loopAudioBuffer st;
     audioContext := audioContext st |}.

Definition saveStateToRedo (st : State) : State :=
  {| layers := layers st; layerVolumes := layerVolumes st;
     layerMuted := layerMuted st; undoStack := undoStack st;
     redoStack := pushBounded (redoStack st) (snapshot st);
     loopAudioBuffer := loopAudioBuffer st;
     audioContext := audioContext st |}.

(** The completion callback of [handleRecord]: the recording becomes the
    only layer and both stacks are emptied. *)
Definition recordComplete (σ : heap) (st : State) (audioBuffer : loc)
  : heap * State :=
  let '(σ, faded) := Recorder.applyFades σ audioBuffer in
  (σ,
   {| layers := [faded]; layerVolumes := [Fin 1]; layerMuted := [false];
      undoStack := []; redoStack := [];
      loopAudioBuffer := Some faded;
      audioContext := audioContext st |}).

(** The completion callback of [handleOverdub]. *)
Definition overdubComplete (σ : heap) (st : State) (audioBuffer : loc)
  : heap * State :=
  let st := saveStateToUndo st in
  let '(σ, fadedBuffer) := Recorder.applyFades σ audioBuffer in
  let st :=
    {| layers := layers st ++ [fadedBuffer];
       layerVolumes := layerVolumes st ++ [Fin 1];
       layerMuted := layerMuted st ++ [false];
       undoStack := undoStack st;
       redoStack := [];
       loopAudioBuffer := loopAudioBuffer st;
       audioContext := audioContext st |} in
  let '(mixedBuffer, σ, st) := mixLayers σ st in
  (σ, set_loopAudioBuffer mixedBuffer st).

(** [handleUndo()]: with an empty [undoStack] it only reports that there is
    nothing to undo. *)
Definition handleUndo (σ : heap) (st : State) : heap * State :=
  match last (undoStack st) with
  | None => (σ, st)
  | Some previousState =>
      let st := saveStateToRedo st in
      let st :=
        {| layers := saved_layers previousState;
           layerVolumes := saved_layerVolumes previousState;
           layerMuted := saved_layerMuted previousState;
           undoStack := removelast (undoStack st);
           redoStack := redoStack st;
           loopAudioBuffer := loopAudioBuffer st;
           audioContext := audioContext st |} in
      let '(mixedBuffer, σ, st) := mixLayers σ st in
      (σ, set_loopAudioBuffer mixedBuffer st)
  end.

(** [handleFileLoad] once the file is decoded into [audioBuffer]. *)
Definition fileLoaded (σ : heap) (st : State) (audioBuffer : loc)
  : heap * State :=
  let '(σ, faded) := Recorder.applyFades σ audioBuffer in
  (σ,
   {| layers := [faded]; layerVolumes := [Fin 1]; layerMuted := [false];
      undoStack := []; redoStack := [];
      loopAudioBuffer := Some faded;
      audioContext := audioContext st |}).

(** [handleClear] after the confirmation. *)
Definition handleClear (σ : heap) (st : State) : heap * State :=
  (σ,
   {| layers := []; layerVolumes := []; layerMuted := [];
      undoStack := []; redoStack := [];
      loopAudioBuffer := None;
      audioContext := audioContext st |}).

(** [handleLayerVolumeChange(e)] with [layerIndex] and [volume] as read from
    the slider. *)
Definition handleLayerVolumeChange (σ : heap) (st : State)
    (layerIndex : nat) (volume : num) : heap * State :=
  let st :=
    {| layers := layers st;
       layerVolumes := array_set NaN (layerVolumes st) layerIndex volume;
       layerMuted := layerMuted st; undoStack := undoStack st;
       redoStack := redoStack st; loopAudioBuffer := loopAudioBuffer st;
       audioContext := audioContext st |} in
  let '(mixedBuffer, σ, st) := mixLayers σ st in
  (σ, set_loopAudioBuffer mixedBuffer st).

(** [handleLayerMuteToggle(e)] with [layerIndex] as read from the button. *)
Definition handleLayerMuteToggle (σ : heap) (st : State) (layerIndex : nat)
  : heap * State :=
  let st :=
    {| layers := layers st; layerVolumes := layerVolumes st;
       layerMuted :=
         array_set false (layerMuted st) layerIndex
                   (negb (nth layerIndex (layerMuted st) false));
       undoStack := undoStack st;
       redoStack := redoStack st; loopAudioBuffer := loopAudioBuffer st;
       audioContext := audioContext st |} in
  let '(mixedBuffer, σ, st) := mixLayers σ st in
  (σ, set_loopAudioBuffer mixedBuffer st).

(** The handlers that write [layers], [layerVolumes], [layerMuted] or one of
    the two stacks; there is no other writer of these fields in the class. *)
Inductive Action : Type :=
  | RecordComplete (audioBuffer : loc)
  | OverdubComplete (audioBuffer : loc)
  | Undo
  | FileLoaded (audioBuffer : loc)
  | Clear
  | LayerVolumeChange (layerIndex : nat) (volume : num)
  | LayerMuteToggle (layerIndex : nat).

Definition perform (a : Action) (σ : heap) (st : State) : heap * State :=
  match a with
  | RecordComplete audioBuffer => recordComplete σ st audioBuffer
  | OverdubComplete audioBuffer => overdubComplete σ st audioBuffer
  | Undo => handleUndo σ st
  | FileLoaded audioBuffer => fileLoaded σ st audioBuffer
  | Clear => handleClear σ st
  | LayerVolumeChange layerIndex volume =>
      handleLayerVolumeChange σ st layerIndex volume
  | LayerMuteToggle layerIndex => handleLayerMuteToggle σ st layerIndex
  end.

End App.

(** ** Notions used to state the properties of the compositor *)

(** Two buffers hold the same audio: same rate, same size, and samples equal
    as numbers. *)
Definition AudioBuffer_equiv (b1 b2 : AudioBuffer) : Prop :=
  sampleRate b1 = sampleRate b2 /\
  frameCount b1 = frameCount b2 /\
  Forall2 (Forall2 num_equiv) (channels b1) (channels b2).

(** The buffer that [mixLayers()] returns, read from the heap it leaves. *)
Definition mixedBuffer (σ : heap) (st : App.State) : option AudioBuffer :=
  let '(result, σ', _) := App.mixLayers σ st in
  result ≫= (σ' !!.).






(** An action recorded the state [st] it started from: the top of the undo
    stack of the resulting state is the snapshot of [st], and the redo stack
    is empty. *)
Definition records_history (st st' : App.State) : Prop :=
  last (App.undoStack st') = Some (App.snapshot st) /\
  App.redoStack st' = [].

(** An action is a redo when, performed after the undo of an overdub, it
    brings the layers, volumes and mute flags of the overdubbed state back. *)
Definition is_redo (a : App.Action) : Prop :=
  forall (σ : heap) (st : App.State) (audioBuffer : loc),
    let '(σ1, st1) := App.overdubComplete σ st audioBuffer in
    let '(σ2, st2) := App.handleUndo σ1 st1 in
    App.snapshot (snd (App.perform a σ2 st2)) = App.snapshot st1.

(** Fixtures: a heap with two recordings made at 44100 Hz, and an
    application state holding the first of them as its only layer. *)
Definition takeA : AudioBuffer :=
  {| sampleRate := 44100; frameCount := 500;
     channels := [replicate 500 (Fin (1 # 2))] |}.

Definition takeB : AudioBuffer :=
  {| sampleRate := 44100; frameCount := 480;
     channels := [replicate 480 (Fin (1 # 4)); replicate 480 (Fin (-1 # 4))] |}.

Definition twoTakes : heap := <[1%nat := takeB]> (<[0%nat := takeA]> ∅).

Definition baseOnly : App.State :=
  {| App.layers := [0%nat]; App.layerVolumes := [Fin 1];
     App.layerMuted := [false];
     App.undoStack := []; App.redoStack := [];
     App.loopAudioBuffer := Some 0%nat;
     App.audioContext := None |}.

(** ** Scale notes of the detected key *)

Module Scale.

(** [s.split(sep)] for a one-character separator. *)
Fixpoint split_go (sep : Ascii.ascii) (s : string) (current : string) : list string :=
  match s with
  | EmptyString => [current]
  | String c rest =>
      if Ascii.eqb c sep then current :: split_go sep rest ""
      else split_go sep rest (current +:+ String c "")
  end.

Definition split (sep : Ascii.ascii) (s : string) : list string := split_go sep s "".

(** [names.indexOf(x)]; [None] stands for -1. *)
Fixpoint indexOf (x : string) (names : list string) : option nat :=
  match names with
  | [] => None
  | y :: rest => if String.eqb x y then Some 0%nat else S <$> indexOf x rest
  end.

Definition allNotes : list string :=
  ["C"; "C#"; "D"; "D#"; "E"; "F"; "F#"; "G"; "G#"; "A"; "A#"; "B"].

Definition getScaleNotes (rootNote mode : string) : list string :=
  match indexOf rootNote allNotes with
  | None => []
  | Some rootIndex =>
      let intervals :=
        if String.eqb mode "Major"
        then [0; 2; 4; 5; 7; 9; 11]%nat
        else [0; 2; 3; 5; 7; 8; 10]%nat in
      map (fun interval =>
             let noteIndex := ((rootIndex + interval) mod 12)%nat in
             nth noteIndex allNotes "")
          intervals
  end.

(** What [displayScaleNotes] does to the scale section: it hides it, leaves
    it as it is (after a warning), or fills it with the notes of the scale,
    the first of which is marked as the root. *)
Inductive Display : Type :=
  | Hidden
  | Unchanged
  | Shown (scaleNotes : list string).

Definition displayScaleNotes (keySignature : string) : Display :=
  if String.eqb keySignature "" || String.eqb keySignature "--" then Hidden
  else
    match split (Ascii.ascii_of_nat 32) keySignature with
    | [rootNote; mode] => Shown (getScaleNotes rootNote mode)
    | _ => Unchanged
    end.

End Scale.

(** ** WAV export ([audioBufferToBlob]) *)

Module Player.

(** The bytes that [DataView] writes; a byte is an integer of [0, 256). *)

(** [writeString(offset, s)]: the character codes of [s]. *)
Definition writeString (s : string) : list Z :=
  map (fun c => Z.of_N (Ascii.N_of_ascii c)) (String.list_ascii_of_string s).

(** [view.setUint16(offset, v, true)] and [view.setUint32(offset, v, true)]
    for an integer [v]: the low-order bytes first; the value is taken modulo
    the width. *)
Definition setUint16 (v : Z) : list Z := [v mod 256; (v / 256) mod 256].

Definition setUint32 (v : Z) : list Z :=
  [v mod 256; (v / 256) mod 256; (v / 65536) mod 256; (v / 16777216) mod 256].

(** The integer part of a number, towards zero; 0 for [NaN] and the
    infinities. *)
Definition toInteger (x : num) : Z :=
  match x with
  | Fin q => Z.quot (Qnum q) (Z.pos (Qden q))
  | _ => 0
  end.

(** [view.setInt16(offset, x, true)]: the integer part of [x] modulo 2^16,
    low byte first. *)
Definition setInt16 (x : num) : list Z := setUint16 (toInteger x).

(** The value written for one sample: the sample clamped to [-1, 1], scaled
    by 0x8000 below zero and by 0x7FFF otherwise. *)
Definition scaledSample (x : num) : num :=
  let sample := Math_max (Fin (-1)) (Math_min (Fin 1) x) in
  if nltb sample (Fin 0) then nmul sample (Fin 32768)
  else nmul sample (Fin 32767).

(** The 44 + [length] bytes of the [ArrayBuffer]: the header fields in the
    order of their offsets, then the samples, frame by frame and channel by
    channel ([length] of the source is [dataLength] here). *)
Definition audioBufferToBlob (audioBuffer : AudioBuffer) : list Z :=
  let channelCount := numberOfChannels audioBuffer in
  let numberOfChannels := Z.of_nat channelCount in
  let dataLength := Z.of_nat (frameCount audioBuffer) * numberOfChannels * 2 in
  let sampleRate := Z.pos (sampleRate audioBuffer) in
  writeString "RIFF"
  ++ setUint32 (36 + dataLength)
  ++ writeString "WAVE"
  ++ writeString "fmt "
  ++ setUint32 16
  ++ setUint16 1
  ++ setUint16 numberOfChannels
  ++ setUint32 sampleRate
  ++ setUint32 (sampleRate * numberOfChannels * 2)
  ++ setUint16 (numberOfChannels * 2)
  ++ setUint16 16
  ++ writeString "data"
  ++ setUint32 dataLength
  ++ flat_map
       (fun i =>
          flat_map
            (fun channel =>
               setInt16 (scaledSample
                           (get (getChannelData audioBuffer channel) i)))
            (seq 0 channelCount))
       (seq 0 (frameCount audioBuffer)).

(** A reader of the format: little-endian unsigned fields and the signed
    16-bit samples. *)
Definition readUint (bytes : list Z) : Z :=
  fold_right (fun b v => b + 256 * v) 0 bytes.

Definition readInt16 (bytes : list Z) : Z :=
  let v := readUint bytes in
  if 32768 <=? v then v - 65536 else v.

(** The bytes [offset, offset + n) of a file. *)
Definition field (file : list Z) (offset n : nat) : list Z :=
  take n (drop offset file).

End Player.

(** ** Guitar chord diagrams *)

Module Guitar.

(** One entry of [GUITAR_CHORDS]: a [fret, finger] pair per string and the
    displayed name. *)
Record ChordData : Type := {
  fingers : list (Z * Z);
  name : string
}.

Definition GUITAR_CHORDS : list (string * ChordData) :=
  [("C", {| fingers := [(-1, 0); (3, 3); (2, 2); (0, 0); (1, 1); (0, 0)];
            name := "C Major" |});
   ("D", {| fingers := [(-1, 0); (-1, 0); (0, 0); (2, 1); (3, 3); (2, 2)];
            name := "D Major" |});
   ("E", {| fingers := [(0, 0); (2, 2); (2, 3); (1, 1); (0, 0); (0, 0)];
            name := "E Major" |});
   ("F", {| fingers := [(1, 1); (3, 4); (3, 3); (2, 2); (1, 1); (1, 1)];
            name := "F Major" |});
   ("G", {| fingers := [(3, 2); (2, 1); (0, 0); (0, 0); (0, 0); (3, 3)];
            name := "G Major" |});
   ("A", {| fingers := [(-1, 0); (0, 0); (2, 1); (2, 2); (2, 3); (0, 0)];
            name := "A Major" |});
   ("B", {| fingers := [(-1, 0); (2, 1); (4, 3); (4, 4); (4, 2); (2, 1)];
            name := "B Major" |});
   ("Cm", {| fingers := [(-1, 0); (3, 2); (5, 4); (5, 3); (4, 1); (3, 1)];
             name := "C Minor" |});
   ("Dm", {| fingers := [(-1, 0); (-1, 0); (0, 0); (2, 2); (3, 3); (1, 1)];
             name := "D Minor" |});
   ("Em", {| fingers := [(0, 0); (2, 2); (2, 3); (0, 0); (0, 0); (0, 0)];
             name := "E Minor" |});
   ("Fm", {| fingers := [(1, 1); (3, 3); (3, 4); (1, 1); (1, 1); (1, 1)];
             name := "F Minor" |});
   ("Gm", {| fingers := [(3, 1); (5, 3); (5, 4); (3, 1); (3, 1); (3, 1)];
             name := "G Minor" |});
   ("Am", {| fingers := [(-1, 0); (0, 0); (2, 2); (2, 3); (1, 1); (0, 0)];
             name := "A Minor" |});
   ("Bm", {| fingers := [(-1, 0); (2, 1); (4, 3); (4, 4); (3, 2); (2, 1)];
             name := "B Minor" |});
   ("C7", {| fingers := [(-1, 0); (3, 3); (2, 2); (3, 4); (1, 1); (0, 0)];
             name := "C7" |});
   ("D7", {| fingers := [(-1, 0); (-1, 0); (0, 0); (2, 2); (1, 1); (2, 3)];
             name := "D7" |});
   ("E7", {| fingers := [(0, 0); (2, 2); (0, 0); (1, 1); (0, 0); (0, 0)];
             name := "E7" |});
   ("G7", {| fingers := [(3, 3); (2, 2); (0, 0); (0, 0); (0, 0); (1, 1)];
             name := "G7" |});
   ("A7", {| fingers := [(-1, 0); (0, 0); (2, 2); (0, 0); (2, 3); (0, 0)];
             name := "A7" |});
   ("Unknown", {| fingers := [(-1, 0); (-1, 0); (-1, 0); (-1, 0); (-1, 0);
                              (-1, 0)];
                  name := "Unknown" |})].

(** The own properties of the table. *)
Fixpoint ownProperty (table : list (string * ChordData)) (key : string)
  : option ChordData :=
  match table with
  | [] => None
  | (k, data) :: rest =>
      if String.eqb key k then Some data else ownProperty rest key
  end.

(** The names that every object inherits from [Object.prototype]; reading
    one of them from the table yields a function or an object, not
    [undefined]. *)
Definition inheritedNames : list string :=
  ["constructor"; "hasOwnProperty"; "isPrototypeOf"; "propertyIsEnumerable";
   "toLocaleString"; "toString"; "valueOf"; "__proto__";
   "__defineGetter__"; "__defineSetter__";
   "__lookupGetter__"; "__lookupSetter__"].

(** What the constructor of [GuitarChordDiagram] keeps in [chordData]: the
    entry of the chord, a value inherited from [Object.prototype] (which has
    no [fingers]), or else the entry of "Unknown". *)
Inductive Diagram : Type :=
  | Entry (chordData : ChordData)
  | Inherited.

Definition chordData (chord : string) : Diagram :=
  match ownProperty GUITAR_CHORDS chord with
  | Some data => Entry data
  | None =>
      if bool_decide (chord ∈ inheritedNames) then Inherited
      else
        match ownProperty GUITAR_CHORDS "Unknown" with
        | Some data => Entry data
        | None => Inherited
        end
  end.

(** The elements of a [Set] built from [names], spread into an array: the
    names in the order of their first occurrence. *)
Definition uniqueOf (names : list string) : list string :=
  fold_left
    (fun seen x => if bool_decide (x ∈ seen) then seen else seen ++ [x])
    names [].

(** [renderGuitarDiagrams(chords)]: one titled diagram per distinct chord
    of the timeline. *)
Definition renderGuitarDiagrams (chords : list Worker.ChordEvent)
  : list (string * Diagram) :=
  let uniqueChords := uniqueOf (map Worker.chord chords) in
  map (fun chordName => (chordName, chordData chordName)) uniqueChords.

End Guitar.

(** ** The chord under the playback cursor *)

(** The search loop of [updateCurrentChord]: from the last event down, the
    first one that starts at or before [currentTime]; -1 without one.
    [i] is one more than the index under test. *)
Fixpoint currentChordFrom (detectedChords : list Worker.ChordEvent)
    (currentTime : Q) (i : nat) : Z :=
  match i with
  | O => -1
  | S j =>
      match detectedChords !! j with
      | Some event =>
          if Qle_bool (Worker.timeInSeconds event) currentTime
          then Z.of_nat j
          else currentChordFrom detectedChords currentTime j
      | None => currentChordFrom detectedChords currentTime j
      end
  end.

Definition currentChordIndex (detectedChords : list Worker.ChordEvent)
    (currentTime : Q) : Z :=
  currentChordFrom detectedChords currentTime (length detectedChords).

(** ** Sessions of the application *)

(** The state that the constructor of [AudioLooperApp] sets up. *)
Definition initialState : App.State :=
  {| App.layers := []; App.layerVolumes := []; App.layerMuted := [];
     App.undoStack := []; App.redoStack := [];
     App.loopAudioBuffer := None; App.audioContext := None |}.

(** The states of a session in which every run of a handler is [allowed]
    in the state it starts from: what such runs make of the initial state. *)
Inductive session (allowed : App.State -> App.Action -> Prop)
  : gmap nat AudioBuffer -> App.State -> Prop :=
  | session_initial (σ : gmap nat AudioBuffer) : session allowed σ initialState
  | session_step (σ : gmap nat AudioBuffer) (st : App.State)
      (a : App.Action) :
      session allowed σ st -> allowed st a ->
      session allowed (fst (App.perform a σ st)) (snd (App.perform a σ st)).

(** The states of the application: the handlers are callbacks of controls,
    recordings and decodings, which nothing orders, so every sequence of
    runs with any arguments counts. *)
Definition reachable : gmap nat AudioBuffer -> App.State -> Prop :=
  session (fun _ _ => True).

(** A volume or mute event carries the index of an existing layer.  The code
    does not enforce it: the controls of the layers are rebuilt only after
    the waveform of a new loop is loaded. *)
Definition layerIndexInRange (st : App.State) (a : App.Action) : Prop :=
  match a with
  | App.LayerVolumeChange layerIndex _ | App.LayerMuteToggle layerIndex =>
      (layerIndex < length (App.layers st))%nat
  | _ => True
  end.

(** An overdub completes in a state that has a layer.  The code does not
    enforce it: [handleOverdub] looks at the loop when the recording starts,
    and the loop can be cleared before the recording completes. *)
Definition overdubOnLayers (st : App.State) (a : App.Action) : Prop :=
  match a with
  | App.OverdubComplete _ => App.layers st <> []
  | _ => True
  end.

(** Overdubs of the takes [audioBuffers], one after the other. *)
Definition overdubs (σ : gmap nat AudioBuffer) (st : App.State)
    (audioBuffers : list nat) : gmap nat AudioBuffer * App.State :=
  fold_left
    (fun (s : gmap nat AudioBuffer * App.State) audioBuffer =>
       App.overdubComplete (fst s) (snd s) audioBuffer)
    audioBuffers (σ, st).

(** [n] clicks on the undo button. *)
Definition undos (n : nat) (s : gmap nat AudioBuffer * App.State)
  : gmap nat AudioBuffer * App.State :=
  Nat.iter n (fun s => App.handleUndo (fst s) (snd s)) s.

(** The layers, volumes and flags after an overdub of [audioBuffer]. *)
Definition overdubbed (s : App.Snapshot) (audioBuffer : nat) : App.Snapshot :=
  {| App.saved_layers := App.saved_layers s ++ [audioBuffer];
     App.saved_layerVolumes := App.saved_layerVolumes s ++ [Fin 1];
     App.saved_layerMuted := App.saved_layerMuted s ++ [false] |}.

(** The three arrays of a snapshot describe the same layers. *)
Definition aligned (s : App.Snapshot) : Prop :=
  length (App.saved_layerVolumes s) = length (App.saved_layers s) /\
  length (App.saved_layerMuted s) = length (App.saved_layers s).

(** An [AudioBuffer] as the Web Audio API builds it: at least one channel,
    every channel of [frameCount] samples. *)
Definition well_formed (b : AudioBuffer) : Prop :=
  channels b <> [] /\
  Forall (fun c => length c = frameCount b) (channels b).

(** The snapshots that overdubs of [audioBuffers] push, starting from the
    layers, volumes and flags [s]. *)
Fixpoint overdubSnapshots (s : App.Snapshot) (audioBuffers : list nat)
  : list App.Snapshot :=
  match audioBuffers with
  | [] => []
  | audioBuffer :: rest =>
      s :: overdubSnapshots (overdubbed s audioBuffer) rest
  end.

(** ** The mix of two or more layers *)

(** The buffers behind the layers of [st], in the order of [layers]. *)
Definition layerBuffers (σ : gmap nat AudioBuffer) (st : App.State)
  : list AudioBuffer :=
  map (fun layer => σ !!! layer) (App.layers st).


(** Fixture: both recordings as layers, the second at half volume. *)
Definition bothTakes : App.State :=
  {| App.layers := [0%nat; 1%nat]; App.layerVolumes := [Fin 1; Fin (1 # 2)];
     App.layerMuted := [false; false];
     App.undoStack := []; App.redoStack := [];
     App.loopAudioBuffer := None;
     App.audioContext := None |}.

(** Fixture: both recordings as layers, both muted. *)
Definition bothMuted : App.State :=
  {| App.layers := [0%nat; 1%nat]; App.layerVolumes := [Fin 1; Fin 1];
     App.layerMuted := [true; true];
     App.undoStack := []; App.redoStack := [];
     App.loopAudioBuffer := None;
     App.audioContext := None |}.

(** ** Label sets of the analysers *)

(** The 24 key signatures: a note of [notes] and a mode. *)
Definition keyLabels : list string :=
  flat_map (fun note => [note +:+ " Major"; note +:+ " Minor"]) notes.

(** The 21 labels of the tables of [detectChordSimple]: a natural note and
    one of the three chord types. *)
Definition simpleChordLabels : list string :=
  flat_map (fun note => map (fun chordType => note +:+ chordType) [""; "m"; "7"])
           ["C"; "D"; "E"; "F"; "G"; "A"; "B"].

(** * Properties *)

(** ** Binary rounding *)









(** ** Tempo estimation *)

(** The lag loop selects the initial lag or one of the candidates. *)
Lemma lag_search_mem (corr : Z -> num) (lags : list Z) (init : num * Z) :
  let step := fun (best : num * Z) (lag : Z) =>
                if ngtb (corr lag) (fst best) then (corr lag, lag) else best in
  snd (fold_left step lags init) = snd init \/
  In (snd (fold_left step lags init)) lags.
Proof.
  intros step. revert init; induction lags as [|lag lags IH]; intros init; simpl.
  - now left.
  - destruct (IH (step init lag)) as [H|H]; [|now right; right].
    rewrite H; unfold step.
    destruct (ngtb (corr lag) (fst init)); simpl; [right; now left|now left].
Qed.

(** When no candidate has a comparable mean product, nothing is selected. *)
Lemma lag_search_all_NaN (corr : Z -> num) (lags : list Z) (init : num * Z) :
  (forall lag, In lag lags -> corr lag = NaN) ->
  fold_left
    (fun (best : num * Z) (lag : Z) =>
       if ngtb (corr lag) (fst best) then (corr lag, lag) else best)
    lags init = init.
Proof.
  revert init; induction lags as [|lag lags IH]; intros init Hall; simpl.
  - reflexivity.
  - rewrite (Hall lag) by now left. simpl.
    apply IH; intros; apply Hall; now right.
Qed.

Lemma for_range_lower (start stop step x : Z) :
  0 < step -> In x (for_range start stop step) -> start <= x.
Proof.
  unfold for_range; intros Hs Hin.
  apply in_map_iff in Hin as (k & <- & _). nia.
Qed.

Lemma lagOfBPM_nonneg (sampleRate : positive) (hop bpm : Z) :
  0 < hop -> 0 < bpm -> 0 <= lagOfBPM sampleRate hop bpm.
Proof.
  intros Hh Hb; unfold lagOfBPM.
  change 0 with (Qfloor 0). apply Qfloor_resp_le.
  assert (0 < rate sampleRate)%Q by (unfold rate, Qlt; simpl; lia).
  assert (0 < inject_Z hop)%Q by (unfold Qlt; simpl; lia).
  assert (0 < inject_Z bpm)%Q by (unfold Qlt; simpl; lia).
  apply Qle_shift_div_l; [assumption|].
  rewrite Qmult_0_l.
  apply Qmult_le_0_compat; [discriminate|].
  apply Qle_shift_div_l; [assumption|].
  rewrite Qmult_0_l. now apply Qlt_le_weak.
Qed.

(** [Math.max(60, Math.min(180, x))] on an integer. *)
Lemma clamp_of_Z (z : Z) :
  Math_max (of_Z 60) (Math_min (of_Z 180) (of_Z z)) =
  of_Z (Z.max 60 (Z.min 180 z)).
Proof.
  unfold Math_max, Math_min, of_Z, ngtb; simpl.
  destruct (Qle_bool (inject_Z 180) (inject_Z z)) eqn:E1; simpl.
  - apply Qle_bool_iff in E1. rewrite <- Zle_Qle in E1.
    replace (Z.min 180 z) with 180 by lia. reflexivity.
  - assert (z < 180).
    { destruct (Z_lt_le_dec z 180) as [|Hge]; [assumption|].
      rewrite Zle_Qle in Hge. apply Qle_bool_iff in Hge. congruence. }
    replace (Z.min 180 z) with z by lia.
    destruct (Qle_bool (inject_Z z) (inject_Z 60)) eqn:E2; simpl.
    + apply Qle_bool_iff in E2. rewrite <- Zle_Qle in E2.
      replace (Z.max 60 z) with 60 by lia. reflexivity.
    + assert (60 < z).
      { destruct (Z_lt_le_dec 60 z) as [|Hge]; [assumption|].
        rewrite Zle_Qle in Hge. apply Qle_bool_iff in Hge. congruence. }
      replace (Z.max 60 z) with z by lia. reflexivity.
Qed.

(** The last two lines of [detectTempo], for a positive numerator and any
    lag the search can select (0 included: the quotient is then
    [+Infinity], which the clamp turns into 180). *)
Lemma bpm_of_lag_clamped (c : Q) (lag : Z) :
  (0 < c)%Q -> 0 <= lag ->
  exists bpm : Z,
    Math_max (of_Z 60)
             (Math_min (of_Z 180) (Math_round (ndiv (Fin c) (of_Z lag))))
    = of_Z bpm /\ 60 <= bpm <= 180.
Proof.
  intros Hc Hlag.
  destruct (Z.eq_dec lag 0) as [->|Hnz].
  - exists 180. split; [|lia].
    unfold of_Z at 3, ndiv; simpl.
    apply Qgt_alt in Hc. rewrite Hc. reflexivity.
  - unfold of_Z at 3, ndiv.
    destruct (Qeq_bool (inject_Z lag) 0) eqn:E.
    + apply Qeq_bool_iff in E. unfold Qeq in E; simpl in E. lia.
    + unfold Math_round. rewrite clamp_of_Z.
      eexists; split; [reflexivity|lia].
Qed.

Lemma bpm_of_lag_zero (c : Q) :
  (0 < c)%Q ->
  Math_max (of_Z 60)
           (Math_min (of_Z 180) (Math_round (ndiv (Fin c) (of_Z 0))))
  = of_Z 180.
Proof.
  intros Hc. unfold of_Z at 3, ndiv; simpl.
  apply Qgt_alt in Hc. rewrite Hc. reflexivity.
Qed.

Lemma tempo_numerator_pos (sampleRate : positive) (hop : Z) :
  0 < hop -> (0 < 60 * (rate sampleRate / inject_Z hop))%Q.
Proof.
  intros Hh.
  assert (0 < rate sampleRate)%Q by (unfold rate, Qlt; simpl; lia).
  assert (0 < inject_Z hop)%Q by (unfold Qlt; simpl; lia).
  apply Qmult_lt_0_compat; [reflexivity|].
  apply Qlt_shift_div_l; [assumption|]. now rewrite Qmult_0_l.
Qed.

Lemma Analyzer_bestLag_nonneg (env : list num) (sampleRate : positive) :
  0 <= Analyzer.bestLag env sampleRate.
Proof.
  unfold Analyzer.bestLag.
  destruct (lag_search_mem (Analyzer.correlation env)
              (for_range (Analyzer.minLag sampleRate)
                         (Analyzer.maxLag sampleRate) 1) (NInf, 0))
    as [H|H].
  - rewrite H; simpl; lia.
  - apply for_range_lower in H; [|lia].
    pose proof (lagOfBPM_nonneg sampleRate Analyzer.hopSize Analyzer.maxBPM
                  ltac:(reflexivity) ltac:(reflexivity)).
    eapply Z.le_trans; [exact H0|exact H].
Qed.

Lemma Worker_bestLag_nonneg (env : list num) (sampleRate : positive) :
  0 <= Worker.bestLag env sampleRate.
Proof.
  unfold Worker.bestLag.
  destruct (lag_search_mem (Worker.correlation env)
              (for_range (Worker.minLag sampleRate)
                         (Worker.maxLag sampleRate) 5) (NInf, 0))
    as [H|H].
  - rewrite H; simpl; lia.
  - apply for_range_lower in H; [|lia].
    pose proof (lagOfBPM_nonneg sampleRate Worker.hopSize Worker.maxBPM
                  ltac:(reflexivity) ltac:(reflexivity)).
    eapply Z.le_trans; [exact H0|exact H].
Qed.

(** With an envelope no longer than [minLag], every candidate lag leaves the
    inner loop without an iteration, and [0 / 0] is [NaN]. *)
Lemma Analyzer_correlation_degenerate (env : list num) (lag : Z) :
  Z.of_nat (length env) <= lag -> Analyzer.correlation env lag = NaN.
Proof.
  intros Hlen. unfold Analyzer.correlation.
  replace (Z.to_nat (Z.of_nat (length env) - lag)) with 0%nat by lia.
  reflexivity.
Qed.

Lemma Worker_correlation_degenerate (env : list num) (lag : Z) :
  Z.of_nat (length env) <= lag -> Worker.correlation env lag = NaN.
Proof.
  intros Hlen. unfold Worker.correlation, for_range.
  replace (Z.to_nat ((Z.of_nat (length env) - lag - 0 + 2 - 1) / 2))
    with 0%nat.
  - reflexivity.
  - assert ((Z.of_nat (length env) - lag - 0 + 2 - 1) / 2 < 1); [|lia].
    apply Z.div_lt_upper_bound; lia.
Qed.

Lemma Analyzer_bestLag_degenerate (env : list num) (sampleRate : positive) :
  Z.of_nat (length env) < Analyzer.minLag sampleRate + 1 ->
  Analyzer.bestLag env sampleRate = 0.
Proof.
  intros Hlen. unfold Analyzer.bestLag.
  rewrite lag_search_all_NaN; [reflexivity|].
  intros lag Hin. apply for_range_lower in Hin; [|lia].
  apply Analyzer_correlation_degenerate. lia.
Qed.

Lemma Worker_bestLag_degenerate (env : list num) (sampleRate : positive) :
  Z.of_nat (length env) < Worker.minLag sampleRate + 1 ->
  Worker.bestLag env sampleRate = 0.
Proof.
  intros Hlen. unfold Worker.bestLag.
  rewrite lag_search_all_NaN; [reflexivity|].
  intros lag Hin. apply for_range_lower in Hin; [|lia].
  apply Worker_correlation_degenerate. lia.
Qed.

(** C6. For every sample sequence and every positive sample rate, both
    tempo detectors return an integer number of beats per minute between 60
    and 180 inclusive; when the energy envelope has fewer than [minLag + 1]
    samples, so that no lag is a valid candidate, they return the fixed value
    180. *)
Theorem detectTempo_range_and_fallback
    (audioData : list num) (sampleRate : positive) :
  (exists bpm : Z,
      Analyzer.detectTempo audioData sampleRate = of_Z bpm /\
      60 <= bpm <= 180) /\
  (exists bpm : Z,
      Worker.detectTempo audioData sampleRate = of_Z bpm /\
      60 <= bpm <= 180) /\
  (Z.of_nat (length (Analyzer.energyEnvelope audioData))
     < Analyzer.minLag sampleRate + 1 ->
   Analyzer.detectTempo audioData sampleRate = of_Z 180) /\
  (Z.of_nat (length (Worker.energyEnvelope
                       (Worker.tempoData audioData sampleRate)))
     < Worker.minLag sampleRate + 1 ->
   Worker.detectTempo audioData sampleRate = of_Z 180).
Proof.
  repeat split.
  - apply bpm_of_lag_clamped.
    + now apply tempo_numerator_pos.
    + apply Analyzer_bestLag_nonneg.
  - apply bpm_of_lag_clamped.
    + now apply tempo_numerator_pos.
    + apply Worker_bestLag_nonneg.
  - intros Hlen. unfold Analyzer.detectTempo.
    rewrite Analyzer_bestLag_degenerate by exact Hlen.
    now apply bpm_of_lag_zero, tempo_numerator_pos.
  - intros Hlen. unfold Worker.detectTempo.
    rewrite Worker_bestLag_degenerate by exact Hlen.
    now apply bpm_of_lag_zero, tempo_numerator_pos.
Qed.

(** A clip of 1000 frames at 44100 Hz: two Analyzer hops against
    [minLag = 28], one worker hop against [minLag = 7]. *)
Lemma detectTempo_range_and_fallback_witness :
  Analyzer.detectTempo (replicate 1000 (Fin (1 # 4))) 44100 = of_Z 180 /\
  Worker.detectTempo (replicate 1000 (Fin (1 # 4))) 44100 = of_Z 180.
Proof.
  pose proof (detectTempo_range_and_fallback
                (replicate 1000 (Fin (1 # 4))) 44100) as (_ & _ & HA & HW).
  split.
  - apply HA. vm_compute. reflexivity.
  - apply HW. vm_compute. reflexivity.
Defined.

(** ** Energy envelope *)

(** The worker divides the sum of every hop by the number of samples the hop
    really has. *)
Lemma Worker_energyEnvelope_mean (data : list num) (k : nat) :
  (k * 2048 < length data)%nat ->
  let hop := slice data (k * 2048) (Nat.min (k * 2048 + 2048) (length data)) in
  Worker.energyEnvelope data !! k =
  Some (ndiv (sumAbs hop) (of_nat (length hop))).
Proof.
  intros Hk hop. unfold Worker.energyEnvelope, for_range.
  rewrite list_lookup_fmap, list_lookup_fmap.
  rewrite lookup_seq_lt.
  2:{ unfold Worker.hopSize.
      assert (Z.of_nat k + 1
              <= (Z.of_nat (length data) - 0 + 2048 - 1) / 2048)
        by (apply Z.div_le_lower_bound; lia).
      lia. }
  simpl. f_equal. unfold Worker.hopSize.
  replace (Z.to_nat (0 + 2048 * Z.of_nat k)) with (k * 2048)%nat by lia.
  replace (Z.to_nat (Z.min (0 + 2048 * Z.of_nat k + 2048)
                           (Z.of_nat (length data))))
    with (Nat.min (k * 2048 + 2048) (length data)) by lia.
  fold hop. f_equal.
  unfold of_nat. f_equal.
  subst hop. unfold slice. rewrite length_take, length_drop. lia.
Qed.

(** The synchronous analyser divides by the nominal hop size whatever the
    hop holds. *)
Lemma Analyzer_energyEnvelope_nominal (audioData : list num) (k : nat) :
  (k * 512 < length audioData)%nat ->
  let hop :=
    slice audioData (k * 512) (Nat.min (k * 512 + 512) (length audioData)) in
  Analyzer.energyEnvelope audioData !! k =
  Some (ndiv (sumAbs hop) (of_Z 512)).
Proof.
  intros Hk hop. unfold Analyzer.energyEnvelope, for_range.
  rewrite list_lookup_fmap, list_lookup_fmap.
  rewrite lookup_seq_lt.
  2:{ unfold Analyzer.hopSize.
      assert (Z.of_nat k + 1
              <= (Z.of_nat (length audioData) - 0 + 512 - 1) / 512)
        by (apply Z.div_le_lower_bound; lia).
      lia. }
  simpl. f_equal. unfold Analyzer.hopSize.
  replace (Z.to_nat (0 + 512 * Z.of_nat k)) with (k * 512)%nat by lia.
  f_equal. f_equal. subst hop. unfold slice.
  rewrite !take_drop_commute. f_equal.
  destruct (Nat.le_gt_cases (k * 512 + 512) (length audioData)).
  - rewrite Nat.min_l by lia. f_equal. lia.
  - rewrite Nat.min_r by lia.
    rewrite !take_ge by lia. reflexivity.
Qed.

(** C5. On 513 samples of value 1 the last hop holds one sample, whose mean
    absolute value is 1: the synchronous [detectTempo] outputs 1/512 for it,
    the worker outputs 1. *)
Theorem energyEnvelope_last_hop_divisor :
  Forall2 num_equiv (Analyzer.energyEnvelope (replicate 513 (Fin 1)))
                    [Fin 1; Fin (1 # 512)] /\
  Forall2 num_equiv (Worker.energyEnvelope (replicate 2049 (Fin 1)))
                    [Fin 1; Fin 1] /\
  ndiv (sumAbs [Fin 1]) (of_nat (length [Fin 1])) = Fin 1.
Proof.
  split; [|split].
  - vm_compute. repeat constructor.
  - vm_compute. repeat constructor.
  - reflexivity.
Qed.

(** ** Chromagram *)

Lemma for_range_empty (start stop step : Z) :
  0 < step -> stop <= start -> for_range start stop step = [].
Proof.
  intros Hs Hle. unfold for_range.
  replace (Z.to_nat ((stop - start + step - 1) / step)) with 0%nat;
    [reflexivity|].
  assert ((stop - start + step - 1) / step < 1); [|lia].
  apply Z.div_lt_upper_bound; lia.
Qed.

Lemma length_for_range (start stop step : Z) :
  length (for_range start stop step)
  = Z.to_nat ((stop - start + step - 1) / step).
Proof. unfold for_range. now rewrite length_map, length_seq. Qed.

(** C2. An input of at most 4096 samples gives [calculateChromagram] no
    frame: the twelve slots stay 0, their maximum is 0, and the final
    division turns every slot into [NaN].  [calculateChromagramFast] tests
    the maximum before it divides: without a frame (at most 2048 samples) it
    returns the twelve zeros. *)
Theorem calculateChromagram_short_input
    (Math : JSMath) (audioData : list num) (sampleRate : positive) :
  ((length audioData <= 4096)%nat ->
   Analyzer.calculateChromagram Math audioData sampleRate = replicate 12 NaN)
  /\
  ((length audioData <= 2048)%nat ->
   Worker.calculateChromagramFast Math audioData sampleRate
   = replicate 12 (Fin 0)).
Proof.
  split; intros Hlen.
  - unfold Analyzer.calculateChromagram.
    rewrite for_range_empty; [reflexivity|reflexivity|].
    unfold Analyzer.fftSize. lia.
  - unfold Worker.calculateChromagramFast.
    rewrite for_range_empty; [reflexivity|reflexivity|].
    unfold Worker.fftSize. lia.
Qed.

Lemma calculateChromagram_short_input_witness :
  Analyzer.calculateChromagram sampleMath (replicate 2000 (Fin (1 # 2))) 44100
  = replicate 12 NaN /\
  Worker.calculateChromagramFast sampleMath (replicate 2000 (Fin (1 # 2))) 44100
  = replicate 12 (Fin 0).
Proof.
  pose proof (calculateChromagram_short_input
                sampleMath (replicate 2000 (Fin (1 # 2))) 44100) as [HA HW].
  split.
  - apply HA. rewrite length_replicate. lia.
  - apply HW. rewrite length_replicate. lia.
Defined.

(** *** The guarded normalisation of [calculateChromagramFast] *)

Lemma fold_left_invariant {A B} (P : A -> Prop) (f : A -> B -> A)
    (l : list B) (init : A) :
  P init ->
  (forall acc x, x ∈ l -> P acc -> P (f acc x)) ->
  P (fold_left f l init).
Proof.
  revert init; induction l as [|x l IH]; intros init Hinit Hstep; simpl.
  - exact Hinit.
  - apply IH.
    + apply Hstep; [left|exact Hinit].
    + intros acc y Hy. apply Hstep. now right.
Qed.

Lemma sampleMath_regular : regular sampleMath.
Proof.
  repeat split.
  - now eexists.
  - intros q. now eexists.
  - intros q. now eexists.
  - intros q Hq. simpl.
    destruct (Qlt_le_dec q 0) as [Hneg|_]; [lra|].
    eexists; split; [reflexivity|].
    apply Qle_shift_div_l; [reflexivity|].
    rewrite Qmult_0_l.
    change 0%Q with (inject_Z 0). rewrite <- Zle_Qle. apply Z.sqrt_nonneg.
Qed.

Lemma get_in_range (P : num -> Prop) (xs : list num) (i : nat) :
  Forall P xs -> (i < length xs)%nat -> P (get xs i).
Proof.
  intros Hall Hi. unfold get.
  destruct (lookup_lt_is_Some_2 xs i Hi) as [x Hx].
  rewrite (nth_lookup_Some _ _ _ _ Hx).
  rewrite Forall_forall in Hall. apply Hall.
  now apply list_elem_of_lookup_2 in Hx.
Qed.

(** Every bin of [fftFast] is a finite, non-negative magnitude. *)
Lemma fftFast_finite_nonneg (Math : JSMath) (signal : list num) :
  regular Math -> Forall finite signal ->
  Forall finite_nonneg (Worker.fftFast Math signal).
Proof.
  intros (HPI & Hcos & Hsin & Hsqrt) Hsig.
  unfold Worker.fftFast. apply Forall_fmap, Forall_forall.
  intros k Hk. apply elem_of_seq in Hk.
  assert (Hn : (0 < length signal)%nat).
  { destruct (length signal) as [|[|n]]; simpl in Hk; lia. }
  unfold compose. cbv beta zeta.
  match goal with
  | |- finite_nonneg (Math_sqrt Math (nadd (nmul (fst ?s) (fst ?s))
                                           (nmul (snd ?s) (snd ?s)))) =>
      assert (Hs : finite (fst s) /\ finite (snd s)); [|set (sums := s) in *]
  end.
  { apply fold_left_invariant.
    - split; now eexists.
    - intros [re im] i Hi [[a Ha] [b Hb]]. cbn [fst snd] in *. subst re im.
      apply elem_of_seq in Hi.
      destruct (get_in_range finite signal i Hsig ltac:(lia)) as [x ->].
      destruct HPI as [p ->].
      assert (Hangle : finite
                (nmul (ndiv (nmul (nmul (Fin (-2)) (Fin p)) (of_nat k))
                            (of_nat (length signal)))
                      (of_nat i))).
      { unfold of_nat, of_Z, nmul, ndiv.
        destruct (Qeq_bool (inject_Z (Z.of_nat (length signal))) 0) eqn:E.
        - apply Qeq_bool_iff in E. unfold Qeq in E. simpl in E. lia.
        - now eexists. }
      destruct Hangle as [t ->].
      destruct (Hcos t) as [c ->]. destruct (Hsin t) as [s ->].
      split; now eexists. }
  destruct Hs as [[a Ha] [b Hb]]. rewrite Ha, Hb. cbn [nmul nadd].
  apply Hsqrt. nra.
Qed.

Lemma finite_nonneg_nadd (x y : num) :
  finite_nonneg x -> finite_nonneg y -> finite_nonneg (nadd x y).
Proof.
  intros (a & -> & Ha) (b & -> & Hb). exists (a + b)%Q. split; [reflexivity|lra].
Qed.

(** The bin loop keeps twelve finite, non-negative slots. *)
Lemma accumulateBins_finite_nonneg (Math : JSMath) (sampleRate : positive)
    (fftSize : Z) (spectrum chromagram : list num) :
  Forall finite_nonneg spectrum ->
  Forall finite_nonneg chromagram /\ length chromagram = 12%nat ->
  Forall finite_nonneg
         (accumulateBins Math sampleRate fftSize spectrum chromagram) /\
  length (accumulateBins Math sampleRate fftSize spectrum chromagram) = 12%nat.
Proof.
  intros Hspec Hchroma. unfold accumulateBins.
  apply fold_left_invariant; [exact Hchroma|].
  intros acc bin Hbin [Hacc Hlen].
  apply list_elem_of_fmap in Hbin as (k & -> & Hk). apply elem_of_seq in Hk.
  destruct (Qlt_le_dec _ 80); [now split|].
  destruct (Qlt_le_dec 2000 _); [now split|].
  destruct (nrem _ 12) as [| | |pc] eqn:Hpc; try now split.
  destruct (ngeb (Fin pc) (Fin 0) && nltb (Fin pc) (Fin 12)) eqn:Hguard;
    [|now split].
  apply andb_true_iff in Hguard as [Hge Hlt].
  simpl in Hge, Hlt. apply Qle_bool_iff in Hge.
  apply negb_true_iff in Hlt.
  assert (Hslot : (Z.to_nat (Qfloor pc) < 12)%nat).
  { assert (Qfloor pc < 12); [|lia].
    rewrite Zlt_Qlt.
    apply Qle_lt_trans with pc; [apply Qfloor_le|].
    destruct (Qlt_le_dec pc 12) as [|Hle]; [assumption|].
    apply Qle_bool_iff in Hle. simpl in Hle. congruence. }
  split; [|now rewrite length_insert].
  apply Forall_insert; [exact Hacc|].
  apply finite_nonneg_nadd.
  - apply get_in_range; [exact Hacc|lia].
  - apply get_in_range; [exact Hspec|].
    rewrite Z.div_1_r in Hk.
    destruct (length spectrum) as [|n].
    { change (Z.to_nat ((Z.of_nat 0 + 1) / 2 - 1 + 1 - 1)) with 0%nat in Hk.
      lia. }
    assert ((Z.of_nat (S n) + 1) / 2 <= Z.of_nat (S n))
      by (apply Z.div_le_upper_bound; lia).
    lia.
Qed.

(** [Math.max] over finite numbers returns one of them, above all. *)
Lemma Math_max_fold_finite (l : list num) (a : Q) :
  Forall finite_nonneg l ->
  exists m : Q,
    fold_left Math_max l (Fin a) = Fin m /\
    (a <= m)%Q /\
    Forall (fun x => exists q, x = Fin q /\ (q <= m)%Q) l /\
    (Fin m = Fin a \/ Fin m ∈ l).
Proof.
  revert a; induction l as [|x l IH]; intros a Hall.
  - exists a. repeat split; [lra|constructor|now left].
  - inversion Hall as [|? ? (q & -> & Hq) Hl]; subst.
    cbn [fold_left]. unfold Math_max at 2, ngtb.
    destruct (Qle_bool q a) eqn:E; cbn [negb].
    + apply Qle_bool_iff in E.
      destruct (IH a Hl) as (m & Hm & Ham & Hbound & Hmem).
      exists m. split; [exact Hm|]. split; [exact Ham|]. split.
      * constructor; [exists q; split; [reflexivity|lra]|exact Hbound].
      * destruct Hmem as [Hmem|Hmem]; [now left|right; now right].
    + assert (a < q)%Q.
      { destruct (Qlt_le_dec a q) as [|Hle]; [assumption|].
        apply Qle_bool_iff in Hle. congruence. }
      destruct (IH q Hl) as (m & Hm & Hqm & Hbound & Hmem).
      exists m. split; [exact Hm|]. split; [lra|]. split.
      * constructor; [exists q; split; [reflexivity|lra]|exact Hbound].
      * right. destruct Hmem as [Hmem|Hmem]; [rewrite Hmem; now left|now right].
Qed.

Lemma Math_max_list_finite (l : list num) :
  Forall finite_nonneg l -> l <> [] ->
  exists m : Q,
    Math_max_list l = Fin m /\
    Forall (fun x => exists q, x = Fin q /\ (q <= m)%Q) l /\
    Fin m ∈ l.
Proof.
  intros Hall Hne. destruct l as [|x l]; [contradiction|].
  inversion Hall as [|? ? (q & -> & Hq) Hl]; subst.
  unfold Math_max_list. cbn [fold_left].
  change (Math_max NInf (Fin q)) with (Fin q).
  destruct (Math_max_fold_finite l q Hl) as (m & Hm & Hqm & Hbound & Hmem).
  exists m. split; [exact Hm|]. split.
  - constructor; [exists q; split; [reflexivity|exact Hqm]|exact Hbound].
  - destruct Hmem as [Hmem|Hmem]; [rewrite Hmem; now left|now right].
Qed.

(** X24. On finite samples, with a regular [Math], [calculateChromagramFast]
    returns twelve finite non-negative slots that are all zero or whose
    largest is 1. *)
Lemma calculateChromagramFast_normalised
    (Math : JSMath) (audioData : list num) (sampleRate : positive) :
  regular Math -> Forall finite audioData ->
  let chromagram := Worker.calculateChromagramFast Math audioData sampleRate in
  length chromagram = 12%nat /\
  Forall finite_nonneg chromagram /\
  (Forall (num_equiv (Fin 0)) chromagram \/
   Forall (fun x => exists q, x = Fin q /\ (q <= 1)%Q) chromagram /\
   Exists (num_equiv (Fin 1)) chromagram).
Proof.
  intros HMath Hdata. unfold Worker.calculateChromagramFast.
  match goal with
  | |- context [Math_max_list ?c] => set (chroma := c)
  end.
  assert (Hinv : Forall finite_nonneg chroma /\ length chroma = 12%nat).
  { apply fold_left_invariant.
    - split; [|reflexivity].
      repeat constructor; exists 0%Q; split; (reflexivity || lra).
    - intros acc i _ Hacc.
      apply accumulateBins_finite_nonneg; [|exact Hacc].
      apply fftFast_finite_nonneg; [exact HMath|].
      unfold slice. now apply Forall_take, Forall_drop. }
  destruct Hinv as [Hnn Hlen].
  destruct (Math_max_list_finite chroma Hnn) as (m & Hm & Hbound & Hmem).
  { intros ->. discriminate. }
  cbv zeta. rewrite Hm. unfold ngtb.
  destruct (Qle_bool m 0) eqn:E; cbn [negb].
  - apply Qle_bool_iff in E.
    split; [exact Hlen|]. split; [exact Hnn|]. left.
    rewrite Forall_forall in Hnn, Hbound |- *.
    intros x Hx.
    destruct (Hnn x Hx) as (q & -> & Hq).
    destruct (Hbound _ Hx) as (q' & Heq & Hq'). injection Heq as <-.
    simpl. lra.
  - assert (Hpos : (0 < m)%Q).
    { destruct (Qlt_le_dec 0 m) as [|Hle]; [assumption|].
      apply Qle_bool_iff in Hle. congruence. }
    assert (Hdiv : forall q, ndiv (Fin q) (Fin m) = Fin (q / m)).
    { intros q. unfold ndiv.
      destruct (Qeq_bool m 0) eqn:E0; [|reflexivity].
      apply Qeq_bool_iff in E0. lra. }
    split; [now rewrite length_map|].
    split; [|right; split].
    + apply Forall_fmap. rewrite Forall_forall in Hnn |- *.
      intros x Hx. destruct (Hnn x Hx) as (q & -> & Hq).
      unfold compose. rewrite Hdiv. eexists; split; [reflexivity|].
      apply Qle_shift_div_l; [exact Hpos|lra].
    + apply Forall_fmap. rewrite Forall_forall in Hbound |- *.
      intros x Hx. destruct (Hbound x Hx) as (q & -> & Hq).
      unfold compose. rewrite Hdiv. eexists; split; [reflexivity|].
      apply Qle_shift_div_r; [exact Hpos|lra].
    + apply Exists_exists. exists (ndiv (Fin m) (Fin m)). split.
      * apply list_elem_of_fmap. exists (Fin m). split; [reflexivity|exact Hmem].
      * rewrite Hdiv. simpl. field. lra.
Qed.

(** ** Chord identification *)

(** [b - a > 0] holds exactly when [b > a], special values included. *)
Lemma ngtb_nsub (a b : num) : ngtb (nsub b a) (Fin 0) = ngtb b a.
Proof.
  destruct a as [| | |x], b as [| | |y]; try reflexivity.
  unfold nsub, nneg, nadd, ngtb. f_equal.
  destruct (Qle_bool y x) eqn:E.
  - apply Qle_bool_iff in E. apply Qle_bool_iff. lra.
  - destruct (Qle_bool (y + - x) 0) eqn:E'; [|reflexivity].
    apply Qle_bool_iff in E'.
    assert (Qle_bool y x = true) by (apply Qle_bool_iff; lra).
    congruence.
Qed.

Lemma ngtb_asym (a b : num) : ngtb a b = true -> ngtb b a = false.
Proof.
  destruct a as [| | |x], b as [| | |y]; simpl; try reflexivity;
    try discriminate.
  intros H. apply negb_true_iff in H. apply negb_false_iff.
  apply Qle_bool_iff.
  destruct (Qlt_le_dec x y) as [Hlt|Hle]; [|exact Hle].
  apply Qlt_le_weak, Qle_bool_iff in Hlt. congruence.
Qed.

Section StableSort.

Context {A : Type} (cmp : A -> A -> num).

Lemma sort_insert_Permutation (x : A) (l : list A) :
  sort_insert cmp x l ≡ₚ x :: l.
Proof.
  induction l as [|y l IH]; simpl; [reflexivity|].
  destruct (ngtb (cmp x y) (Fin 0)); [|reflexivity].
  rewrite IH. apply Permutation_swap.
Qed.

Lemma js_sort_Permutation (l : list A) : js_sort cmp l ≡ₚ l.
Proof.
  induction l as [|x l IH]; simpl; [reflexivity|].
  now rewrite sort_insert_Permutation, IH.
Qed.

(** An element that nothing in [high] lets pass, and that passes
    everything in [low]. *)
Lemma sort_insert_app_l (x : A) (high low : list A) :
  (forall y, y ∈ low -> ngtb (cmp x y) (Fin 0) = false) ->
  sort_insert cmp x (high ++ low) = sort_insert cmp x high ++ low.
Proof.
  intros Hlow. induction high as [|a high IH]; simpl.
  - destruct low as [|y low]; simpl; [reflexivity|].
    rewrite Hlow by left. reflexivity.
  - destruct (ngtb (cmp x a) (Fin 0)); [|reflexivity].
    now rewrite IH.
Qed.

Lemma sort_insert_app_r (x : A) (high low : list A) :
  (forall a, a ∈ high -> ngtb (cmp x a) (Fin 0) = true) ->
  sort_insert cmp x (high ++ low) = high ++ sort_insert cmp x low.
Proof.
  intros Hhigh. induction high as [|a high IH]; simpl; [reflexivity|].
  rewrite Hhigh by left. rewrite IH; [reflexivity|].
  intros b Hb. apply Hhigh. now right.
Qed.

(** When every element of a class [P] must precede every element outside
    it, the sorted array is the sorted class followed by the sorted rest. *)
Lemma js_sort_split (P : A -> Prop) `{!forall x, Decision (P x)}
    (l : list A) :
  (forall x y, x ∈ l -> y ∈ l -> P x -> ~ P y ->
               ngtb (cmp x y) (Fin 0) = false /\
               ngtb (cmp y x) (Fin 0) = true) ->
  js_sort cmp l
  = js_sort cmp (filter P l) ++ js_sort cmp (filter (fun x => ~ P x) l).
Proof.
  induction l as [|x l IH]; intros Hsep; [reflexivity|].
  simpl. rewrite IH.
  2:{ intros a b Ha Hb. apply Hsep; now right. }
  rewrite !filter_cons.
  destruct (decide (P x)) as [HP|HP].
  - destruct (decide (~ P x)) as [HN|_]; [contradiction|].
    simpl. apply sort_insert_app_l.
    intros y Hy. rewrite js_sort_Permutation in Hy.
    apply list_elem_of_filter in Hy as [HPy Hy].
    apply Hsep; [left|now right|assumption|assumption].
  - destruct (decide (~ P x)) as [_|HN]; [|contradiction].
    simpl. apply sort_insert_app_r.
    intros a Ha. rewrite js_sort_Permutation in Ha.
    apply list_elem_of_filter in Ha as [HPa Ha].
    apply (Hsep a x); [now right|left|assumption|assumption].
Qed.

End StableSort.

(** The ascending sort of pitch classes. *)
Lemma ascending_gt (x y : nat) :
  ngtb (nsub (of_nat x) (of_nat y)) (Fin 0) = true <-> (y < x)%nat.
Proof.
  rewrite ngtb_nsub. unfold of_nat, of_Z, ngtb.
  rewrite negb_true_iff.
  split.
  - intros H. destruct (Nat.lt_ge_cases y x) as [|Hge]; [assumption|].
    assert (Qle_bool (inject_Z (Z.of_nat x)) (inject_Z (Z.of_nat y)) = true).
    { apply Qle_bool_iff. rewrite <- Zle_Qle. lia. }
    congruence.
  - intros Hlt.
    destruct (Qle_bool (inject_Z (Z.of_nat x)) (inject_Z (Z.of_nat y))) eqn:E;
      [|reflexivity].
    apply Qle_bool_iff in E. rewrite <- Zle_Qle in E. lia.
Qed.

Lemma sort_insert_ascending_Sorted (x : nat) (l : list nat) :
  Sorted le l ->
  Sorted le (sort_insert (fun a b => nsub (of_nat a) (of_nat b)) x l).
Proof.
  induction 1 as [|y l Hl IH Hhd]; cbn [sort_insert].
  - repeat constructor.
  - destruct (ngtb (nsub (of_nat x) (of_nat y)) (Fin 0)) eqn:E.
    + apply ascending_gt in E.
      constructor; [exact IH|].
      destruct l as [|z l]; cbn [sort_insert].
      * constructor. lia.
      * destruct (ngtb (nsub (of_nat x) (of_nat z)) (Fin 0)).
        -- constructor. now inversion Hhd.
        -- constructor. lia.
    + constructor; [now constructor|].
      constructor.
      destruct (Nat.le_gt_cases x y) as [|Hgt]; [assumption|].
      apply ascending_gt in Hgt. congruence.
Qed.

Lemma js_sort_ascending_Sorted (l : list nat) :
  Sorted le (js_sort (fun a b => nsub (of_nat a) (of_nat b)) l).
Proof.
  induction l as [|x l IH]; cbn [js_sort fold_right]; [constructor|].
  now apply sort_insert_ascending_Sorted.
Qed.

Lemma js_sort_ascending_unique (l sorted : list nat) :
  Sorted le sorted -> l ≡ₚ sorted ->
  js_sort (fun a b => nsub (of_nat a) (of_nat b)) l = sorted.
Proof.
  intros Hs Hp.
  apply (Sorted_unique le); [apply js_sort_ascending_Sorted|exact Hs|].
  now rewrite js_sort_Permutation.
Qed.

Lemma fmap_filter_comm {A B} (f : A -> B) (P : B -> Prop)
    `{!forall y, Decision (P y)} (l : list A) :
  f <$> filter (fun x => P (f x)) l = filter P (f <$> l).
Proof.
  induction l as [|x l IH]; [reflexivity|].
  rewrite fmap_cons, !filter_cons.
  destruct (decide (P (f x))); [rewrite fmap_cons|]; now rewrite IH.
Qed.

Lemma indexed_indices (chromagram : list num) :
  snd <$> imap (fun idx val => (val, idx)) chromagram
  = seq 0 (length chromagram).
Proof.
  rewrite fmap_imap.
  rewrite (imap_ext _ (fun idx _ => id idx)) by reflexivity.
  rewrite imap_seq_0. apply list_fmap_id.
Qed.

(** The three dominant pitch classes are the ones [identifyChord] works
    with, in ascending order. *)
Lemma topPitchClasses_dominant (chromagram : list num) (top : list nat) :
  Sorted le top -> NoDup top -> length top = 3%nat ->
  (forall i, i ∈ top -> (i < 12)%nat) ->
  dominant top chromagram ->
  topPitchClasses chromagram = top.
Proof.
  intros Hsorted Hnodup Hlen Hbound [Hc Hdom].
  unfold topPitchClasses.
  set (indexed := imap (fun idx val => (val, idx)) chromagram).
  set (desc := fun a b : num * nat => nsub (fst b) (fst a)).
  set (P := fun p : num * nat => snd p ∈ top).
  assert (Hsep : forall x y, x ∈ indexed -> y ∈ indexed -> P x -> ~ P y ->
                   ngtb (desc x y) (Fin 0) = false /\
                   ngtb (desc y x) (Fin 0) = true).
  { intros x y Hx Hy HPx HPy.
    apply elem_of_lookup_imap in Hx as (i & v & -> & Hi).
    apply elem_of_lookup_imap in Hy as (j & w & -> & Hj).
    unfold P in HPx, HPy; simpl in HPx, HPy.
    assert (Hjlt : (j < 12)%nat)
      by (rewrite <- Hc; now apply lookup_lt_Some in Hj).
    pose proof (Hdom i j HPx HPy Hjlt) as Hgt.
    unfold get in Hgt.
    rewrite (nth_lookup_Some _ _ _ _ Hi), (nth_lookup_Some _ _ _ _ Hj) in Hgt.
    unfold desc; simpl. rewrite !ngtb_nsub.
    split; [now apply ngtb_asym|assumption]. }
  rewrite (js_sort_split desc P indexed Hsep).
  assert (Hperm : snd <$> js_sort desc (filter P indexed) ≡ₚ top).
  { rewrite js_sort_Permutation.
    assert (Heq : snd <$> filter P indexed
                  = filter (fun i => i ∈ top) (seq 0 12)).
    { rewrite <- Hc, <- indexed_indices.
      exact (fmap_filter_comm (@snd num nat) (fun i => i ∈ top) indexed). }
    rewrite Heq.
    apply NoDup_Permutation.
    - apply NoDup_filter, NoDup_seq.
    - exact Hnodup.
    - intros i. rewrite list_elem_of_filter, elem_of_seq.
      split; [tauto|]. intros Hi. specialize (Hbound i Hi). split; [assumption|lia]. }
  rewrite take_app_length'.
  2:{ apply Permutation_length in Hperm.
      rewrite length_fmap in Hperm. now rewrite Hperm. }
  now apply js_sort_ascending_unique.
Qed.

(** On every ascending triple of pitch classes the chain of tests of
    [identifyChord] gives the label of the ordered templates. *)
Lemma labelOfTop3_templates (r a b : nat) :
  (r < a)%nat -> (a < b)%nat -> (b < 12)%nat ->
  labelOfTop3 [r; a; b] = Some (spec_chordLabel r (a - r) (b - r)).
Proof.
  intros Hra Hab Hb.
  assert (Hall :
    Forall (fun r => Forall (fun a => Forall (fun b =>
      (r < a)%nat -> (a < b)%nat ->
      labelOfTop3 [r; a; b] = Some (spec_chordLabel r (a - r) (b - r)))
      (seq 0 12)) (seq 0 12)) (seq 0 12)).
  { refine (proj1 (bool_decide_eq_true _) _). vm_compute. reflexivity. }
  assert (Hin : forall i, (i < 12)%nat -> i ∈ seq 0 12)
    by (intros i Hi; apply elem_of_seq; lia).
  rewrite Forall_forall in Hall.
  specialize (Hall r (Hin r ltac:(lia))). rewrite Forall_forall in Hall.
  specialize (Hall a (Hin a ltac:(lia))). rewrite Forall_forall in Hall.
  exact (Hall b (Hin b Hb) Hra Hab).
Qed.

(** [identifyChord] refines the classification of the specification. *)
Lemma identifyChord_refines_templates (chromagram : list num) (r a b : nat) :
  (r < a)%nat -> (a < b)%nat -> (b < 12)%nat ->
  dominant [r; a; b] chromagram ->
  identifyChord chromagram = Some (spec_chordLabel r (a - r) (b - r)).
Proof.
  intros Hra Hab Hb Hdom. unfold identifyChord.
  rewrite (topPitchClasses_dominant chromagram [r; a; b]).
  - now apply labelOfTop3_templates.
  - repeat constructor; lia.
  - rewrite !NoDup_cons. set_unfold.
    repeat split; try lia. apply NoDup_nil_2.
  - reflexivity.
  - intros i Hi. set_unfold in Hi. lia.
  - exact Hdom.
Qed.

Lemma ngtb_equiv_r (x y z : num) :
  num_equiv y z -> ngtb x y = ngtb x z.
Proof.
  destruct x as [| | |a], y as [| | |b], z as [| | |c]; simpl;
    try reflexivity; try contradiction.
  intros Heq. f_equal.
  destruct (Qle_bool a c) eqn:E.
  - apply Qle_bool_iff. apply Qle_bool_iff in E. now rewrite Heq.
  - destruct (Qle_bool a b) eqn:E'; [|reflexivity].
    apply Qle_bool_iff in E'. rewrite Heq in E'.
    apply Qle_bool_iff in E'. congruence.
Qed.

Lemma concentrated_dominant (top : list nat) (chromagram : list num) :
  (forall i, i ∈ top -> (i < 12)%nat) ->
  concentrated top chromagram -> dominant top chromagram.
Proof.
  intros Hbound [Hlen Hc]. split; [exact Hlen|].
  intros i j Hi Hj Hjlt.
  pose proof (Hc i (Hbound i Hi)) as Hpos.
  pose proof (Hc j Hjlt) as Hzero.
  rewrite bool_decide_eq_true_2 in Hpos by exact Hi.
  rewrite bool_decide_eq_false_2 in Hzero by exact Hj.
  now rewrite (ngtb_equiv_r _ _ _ Hzero).
Qed.

(** C8. [identifyChord] takes the three pitch classes with the highest
    energy, uses the lowest as root and matches the intervals against the
    ordered templates; with the energy concentrated exactly at pitch classes
    0, 4 and 7 the label is "C", and at 0, 3 and 7 it is "Cm". *)
Theorem identifyChord_templates_C_Cm (chromagram : list num) :
  (forall r a b : nat,
      (r < a)%nat -> (a < b)%nat -> (b < 12)%nat ->
      dominant [r; a; b] chromagram ->
      identifyChord chromagram = Some (spec_chordLabel r (a - r) (b - r))) /\
  (concentrated [0; 4; 7]%nat chromagram ->
   identifyChord chromagram = Some "C") /\
  (concentrated [0; 3; 7]%nat chromagram ->
   identifyChord chromagram = Some "Cm").
Proof.
  split; [|split].
  - intros r a b. apply identifyChord_refines_templates.
  - intros Hc.
    apply (identifyChord_refines_templates chromagram 0 4 7); try lia.
    apply concentrated_dominant; [|exact Hc].
    intros i Hi. set_unfold in Hi. lia.
  - intros Hc.
    apply (identifyChord_refines_templates chromagram 0 3 7); try lia.
    apply concentrated_dominant; [|exact Hc].
    intros i Hi. set_unfold in Hi. lia.
Qed.

Lemma identifyChord_templates_C_Cm_witness :
  identifyChord
    [Fin 1; Fin 0; Fin 0; Fin 0; Fin (1 # 2); Fin 0;
     Fin 0; Fin (3 # 4); Fin 0; Fin 0; Fin 0; Fin 0] = Some "C" /\
  identifyChord
    [Fin (2 # 3); Fin 0; Fin 0; Fin 1; Fin 0; Fin 0;
     Fin 0; Fin (1 # 5); Fin 0; Fin 0; Fin 0; Fin 0] = Some "Cm" /\
  identifyChord
    [Fin (1 # 10); Fin 0; Fin 1; Fin 0; Fin 0; Fin (1 # 10);
     Fin (9 # 10); Fin 0; Fin (1 # 10); Fin (8 # 10); Fin 0; Fin 0]
  = Some "D".
Proof.
  split; [|split].
  - apply identifyChord_templates_C_Cm.
    split; [reflexivity|].
    intros i Hi.
    do 12 (destruct i as [|i]; [vm_compute; reflexivity|]). lia.
  - apply identifyChord_templates_C_Cm.
    split; [reflexivity|].
    intros i Hi.
    do 12 (destruct i as [|i]; [vm_compute; reflexivity|]). lia.
  - apply (proj1 (identifyChord_templates_C_Cm _) 2 6 9)%nat; try lia.
    split; [reflexivity|].
    intros i j Hi Hj Hlt. set_unfold in Hi.
    destruct Hi as [Hi | [Hi | [Hi | []]]]; subst i;
      do 12 (destruct j as [|j];
             [first [reflexivity | exfalso; apply Hj; set_solver]|]);
      lia.
Defined.

(** ** The two chord detectors *)

Lemma Analyzer_detectChords_length
    (Math : JSMath) (audioData : list num) (sampleRate : positive) :
  length (Analyzer.detectChords Math audioData sampleRate)
  = Z.to_nat ((Z.of_nat (length audioData) + 2 * Z.pos sampleRate - 1)
              / (2 * Z.pos sampleRate)).
Proof.
  unfold Analyzer.detectChords.
  rewrite length_map, length_for_range. f_equal. f_equal. lia.
Qed.

Lemma no_adjacent_repeat_snoc
    (chords : list Worker.ChordEvent) (e : Worker.ChordEvent) :
  no_adjacent_repeat chords ->
  (forall previous, last chords = Some previous ->
                    Worker.chord previous <> Worker.chord e) ->
  no_adjacent_repeat (chords ++ [e]).
Proof.
  intros Hno Hlast i x y Hx Hy.
  destruct (decide (S i < length chords)%nat) as [Hlt|Hge].
  - rewrite lookup_app_l in Hx by lia. rewrite lookup_app_l in Hy by lia.
    now apply (Hno i).
  - assert (Hi : S i = length chords).
    { apply lookup_lt_Some in Hy. rewrite length_app in Hy. simpl in Hy. lia. }
    rewrite lookup_app_l in Hx by lia.
    rewrite lookup_app_r, Hi, Nat.sub_diag in Hy by lia.
    injection Hy as <-.
    apply Hlast. rewrite last_lookup, <- Hi. exact Hx.
Qed.

Lemma Worker_detectChordsLoop_no_repeat
    (audioData : list num) (sampleRate : positive) (starts : list Z)
    (chords : list Worker.ChordEvent) :
  no_adjacent_repeat chords ->
  no_adjacent_repeat
    (Worker.detectChordsLoop audioData sampleRate starts chords).
Proof.
  revert chords; induction starts as [|start starts IH]; intros chords Hno;
    cbn [Worker.detectChordsLoop]; [exact Hno|].
  destruct (Qlt_le_dec _ _); [exact Hno|].
  apply IH.
  destruct (last chords) as [previous|] eqn:Hlast.
  - destruct (String.eqb _ _) eqn:E; [exact Hno|].
    apply no_adjacent_repeat_snoc; [exact Hno|].
    intros p Hp. rewrite Hlast in Hp. injection Hp as <-.
    simpl. now apply String.eqb_neq.
  - apply no_adjacent_repeat_snoc; [exact Hno|].
    intros p Hp. rewrite Hlast in Hp. discriminate.
Qed.

Lemma Worker_detectChordsLoop_length
    (audioData : list num) (sampleRate : positive) (starts : list Z)
    (chords : list Worker.ChordEvent) :
  (length (Worker.detectChordsLoop audioData sampleRate starts chords)
   <= length chords + length starts)%nat.
Proof.
  revert chords; induction starts as [|start starts IH]; intros chords;
    cbn [Worker.detectChordsLoop]; [simpl; lia|].
  destruct (Qlt_le_dec _ _); [simpl; lia|].
  etransitivity; [apply IH|].
  destruct (last chords) as [previous|].
  - destruct (String.eqb _ _); [simpl; lia|].
    rewrite length_app. simpl. lia.
  - rewrite length_app. simpl. lia.
Qed.

(** C1, as the code has it.  The synchronous [detectChords] emits exactly
    one entry per window of two seconds, hence none for an empty input; the
    worker's [detectChords] walks windows of one second, never returns an
    empty timeline, never repeats a label on two neighbours, and emits at
    most one event per window. *)
Theorem detectChords_paths_contracts
    (Math : JSMath) (audioData : list num) (sampleRate : positive) :
  length (Analyzer.detectChords Math audioData sampleRate)
  = Z.to_nat ((Z.of_nat (length audioData) + 2 * Z.pos sampleRate - 1)
              / (2 * Z.pos sampleRate)) /\
  Worker.detectChords audioData sampleRate <> [] /\
  no_adjacent_repeat (Worker.detectChords audioData sampleRate) /\
  (length (Worker.detectChords audioData sampleRate)
   <= Nat.max 1 (Z.to_nat ((Z.of_nat (length audioData) + Z.pos sampleRate - 1)
                           / Z.pos sampleRate)))%nat.
Proof.
  split; [apply Analyzer_detectChords_length|].
  unfold Worker.detectChords.
  pose proof (Worker_detectChordsLoop_no_repeat audioData sampleRate
                (for_range 0 (Z.of_nat (length audioData)) (Z.pos sampleRate))
                []) as Hno.
  pose proof (Worker_detectChordsLoop_length audioData sampleRate
                (for_range 0 (Z.of_nat (length audioData)) (Z.pos sampleRate))
                []) as Hlen.
  rewrite length_for_range in Hlen.
  replace (Z.of_nat (length audioData) - 0 + Z.pos sampleRate - 1)
    with (Z.of_nat (length audioData) + Z.pos sampleRate - 1) in Hlen by lia.
  destruct (Worker.detectChordsLoop _ _ _ _) as [|e chords].
  - split; [discriminate|]. split; [|simpl; lia].
    intros i x y Hx Hy. destruct i; discriminate.
  - split; [discriminate|]. split.
    + apply Hno. intros i x y Hx Hy. destruct i; discriminate.
    + simpl in Hlen. simpl. lia.
Qed.

(** C1, as stated, fails: on two and a half seconds of a constant signal at
    8000 Hz the synchronous path returns two entries and the worker one. *)
Lemma detectChords_paths_differ :
  ~ (forall (Math : JSMath) (audioData : list num) (sampleRate : positive),
        same_chords (Analyzer.detectChords Math audioData sampleRate)
                    (Worker.detectChords audioData sampleRate)).
Proof.
  intros Hsame.
  specialize (Hsame sampleMath constantClip 8000%positive).
  apply Forall2_length in Hsame.
  assert (HA : length (Analyzer.detectChords
                         sampleMath constantClip 8000)
               = 2%nat).
  { rewrite Analyzer_detectChords_length. vm_compute. reflexivity. }
  assert (HW : length (Worker.detectChords constantClip 8000)
               = 1%nat) by (vm_compute; reflexivity).
  pose proof (eq_trans (eq_sym HA) (eq_trans Hsame HW)) as Habs.
  discriminate Habs.
Qed.

(** ** The inner loop of the mixer *)

Lemma length_addScaled (m c : list num) (v : num) :
  length (App.addScaled m c v) = length m.
Proof.
  revert c; induction m as [|x m IH]; intros [|y c]; simpl; auto.
Qed.



Lemma length_fold_mixLayer (st : App.State) (channel : nat)
    (entries : list (nat * AudioBuffer)) :
  forall zero : list num,
    length (fold_left
              (fun mixedData (entry : nat * AudioBuffer) =>
                 App.mixLayer st channel mixedData (fst entry) (snd entry))
              entries zero) = length zero.
Proof.
  induction entries as [|e entries IH]; intros zero; cbn [fold_left];
    [reflexivity|].
  rewrite IH. unfold App.mixLayer.
  destruct (nth e.1 (App.layerMuted st) false); [reflexivity|].
  apply length_addScaled.
Qed.



(** The order of the accumulations shows in the stored sum: adding
    [2^-24], 1 and [2^-24] to 0 in this order gives 1, where each [2^-24] is
    lost to the rounding of the store, and adding [2^-24], [2^-24] and 1
    gives [1 + 2^-23]. *)
Lemma addSample_order_sensitive :
  num_equiv
    (App.addSample
       (App.addSample (App.addSample (Fin 0) (Fin (1 # 16777216)) (Fin 1))
                      (Fin 1) (Fin 1))
       (Fin (1 # 16777216)) (Fin 1))
    (Fin 1) /\
  num_equiv
    (App.addSample
       (App.addSample (App.addSample (Fin 0) (Fin (1 # 16777216)) (Fin 1))
                      (Fin (1 # 16777216)) (Fin 1))
       (Fin 1) (Fin 1))
    (Fin (1 + (1 # 8388608))).
Proof. split; vm_compute; reflexivity. Qed.


(** ** Mixing *)

Lemma mixLayers_keeps_fields (σ : heap) (st : App.State) :
  App.layers (App.mixLayers σ st).2 = App.layers st /\
  App.layerVolumes (App.mixLayers σ st).2 = App.layerVolumes st /\
  App.layerMuted (App.mixLayers σ st).2 = App.layerMuted st /\
  App.undoStack (App.mixLayers σ st).2 = App.undoStack st /\
  App.redoStack (App.mixLayers σ st).2 = App.redoStack st.
Proof.
  unfold App.mixLayers.
  destruct (App.layers st) as [|l1 [|l2 ls]] eqn:E; simpl; auto.
Qed.

(** [mixLayers] never writes into a buffer that exists: at most it adds the
    mixed buffer under a new reference. *)
Lemma mixLayers_preserves_buffers (σ : heap) (st : App.State)
    (r : loc) (b : AudioBuffer) :
  σ !! r = Some b -> (App.mixLayers σ st).1.2 !! r = Some b.
Proof.
  intros Hr. unfold App.mixLayers.
  destruct (App.layers st) as [|l1 [|l2 ls]]; cbv zeta; cbn [fst snd];
    try exact Hr.
  rewrite lookup_insert_ne; [exact Hr|].
  intros Heq. pose proof (is_fresh (dom σ)) as Hfresh.
  rewrite Heq in Hfresh. apply Hfresh. apply elem_of_dom. now exists b.
Qed.

(** The mix of two or more layers is stored under a reference that was not
    in use. *)
Lemma mixLayers_fresh (σ : heap) (st : App.State) :
  (2 <= length (App.layers st))%nat ->
  exists mixed : loc,
    fst (fst (App.mixLayers σ st)) = Some mixed /\
    σ !! mixed = None /\
    is_Some (snd (fst (App.mixLayers σ st)) !! mixed).
Proof.
  intros Hmany. unfold App.mixLayers.
  destruct (App.layers st) as [|l1 [|l2 ls]]; [simpl in Hmany; lia..|].
  cbv zeta. cbn [fst snd]. eexists. split; [reflexivity|]. split.
  - apply not_elem_of_dom, is_fresh.
  - rewrite lookup_insert_eq. now eexists.
Qed.

(** C10. With exactly one layer, [mixLayers] returns the reference of that
    layer's buffer and touches neither the heap nor the state, whatever the
    layer's volume and mute flag are. *)
Theorem mixLayers_single_layer_passthrough
    (σ : heap) (st : App.State) (layer : loc) :
  App.layers st = [layer] ->
  App.mixLayers σ st = (Some layer, σ, st) /\
  mixedBuffer σ st = σ !! layer.
Proof.
  intros Hone. unfold mixedBuffer, App.mixLayers. rewrite Hone.
  split; reflexivity.
Qed.

(** A single layer, muted and at half volume: the composite is the take
    itself, at full level. *)
Lemma mixLayers_single_layer_passthrough_witness :
  let st :=
    {| App.layers := [0%nat]; App.layerVolumes := [Fin (1 # 2)];
       App.layerMuted := [true];
       App.undoStack := []; App.redoStack := [];
       App.loopAudioBuffer := Some 0%nat;
       App.audioContext := None |} in
  App.mixLayers twoTakes st = (Some 0%nat, twoTakes, st) /\
  mixedBuffer twoTakes st = Some takeA.
Proof.
  intros st.
  destruct (mixLayers_single_layer_passthrough twoTakes st 0%nat eq_refl)
    as [Hmix Hbuf].
  split; [exact Hmix|]. rewrite Hbuf. reflexivity.
Defined.



(** ** Fades *)

Lemma length_fadeChannel (fadeLength : Z) (data : list num) :
  length (Recorder.fadeChannel fadeLength data) = length data.
Proof.
  unfold Recorder.fadeChannel.
  set (steps := seq 0 (Z.to_nat fadeLength)).
  assert (Hin : forall (l : list nat) (d : list num),
             length (fold_left
                       (fun data i =>
                          <[i := nmul (get data i)
                                      (ndiv (of_nat i) (of_Z fadeLength))]> data)
                       l d) = length d).
  { induction l as [|i l IH]; intros d; simpl; [reflexivity|].
    rewrite IH. apply length_insert. }
  assert (Hout : forall (l : list nat) (d : list num),
             length (fold_left
                       (fun data i =>
                          let idx :=
                            Z.of_nat (length data) - fadeLength + Z.of_nat i in
                          if 0 <=? idx
                          then <[Z.to_nat idx :=
                                   nmul (get data (Z.to_nat idx))
                                        (ndiv (of_Z (fadeLength - Z.of_nat i))
                                              (of_Z fadeLength))]> data
                          else data)
                       l d) = length d).
  { induction l as [|i l IH]; intros d; simpl; [reflexivity|].
    rewrite IH. destruct (0 <=? _); [apply length_insert|reflexivity]. }
  now rewrite Hout, Hin.
Qed.

(** C7, as stated, fails on [applyFades]: it returns the reference it was
    given, and the samples behind that reference are no longer the ones of
    the take. *)
Lemma applyFades_writes_in_place :
  snd (Recorder.applyFades twoTakes 0%nat) = 0%nat /\
  twoTakes !! 0%nat = Some takeA /\
  exists faded : AudioBuffer,
    fst (Recorder.applyFades twoTakes 0%nat) !! 0%nat = Some faded /\
    ~ AudioBuffer_equiv faded takeA.
Proof.
  split; [reflexivity|]. split; [reflexivity|].
  eexists. split; [vm_compute; reflexivity|].
  intros (_ & _ & Hch).
  inversion Hch as [|c c' cs cs' Hc _]; subst.
  inversion Hc as [|x x' xs xs' Hx _]; subst.
  simpl in Hx. unfold Qeq in Hx. simpl in Hx. discriminate.
Qed.

(** C7, as the code has it.  [mixLayers] writes into no existing buffer:
    the mix of two or more layers is a newly allocated buffer (its reference
    was not in use), and with one layer the result is that layer and the
    heap is left as it is.  [applyFades] returns its argument and writes only
    into the buffer behind it, whose rate, size and channel lengths it
    keeps. *)
Theorem buffers_written_only_by_applyFades
    (σ : heap) (st : App.State) (audioBuffer r : loc) (b : AudioBuffer) :
  σ !! r = Some b ->
  snd (fst (App.mixLayers σ st)) !! r = Some b /\
  ((2 <= length (App.layers st))%nat ->
   exists mixed : loc,
     fst (fst (App.mixLayers σ st)) = Some mixed /\
     σ !! mixed = None /\
     is_Some (snd (fst (App.mixLayers σ st)) !! mixed)) /\
  (forall layer : loc,
     App.layers st = [layer] ->
     fst (fst (App.mixLayers σ st)) = Some layer /\
     snd (fst (App.mixLayers σ st)) = σ) /\
  snd (Recorder.applyFades σ audioBuffer) = audioBuffer /\
  (r <> audioBuffer ->
   fst (Recorder.applyFades σ audioBuffer) !! r = Some b) /\
  (r = audioBuffer ->
   exists b',
     fst (Recorder.applyFades σ audioBuffer) !! r = Some b' /\
     sampleRate b' = sampleRate b /\
     frameCount b' = frameCount b /\
     Forall2 (fun c c' : list num => length c' = length c)
             (channels b) (channels b')).
Proof.
  intros Hr. split; [now apply mixLayers_preserves_buffers|].
  split; [apply mixLayers_fresh|]. split.
  { intros layer Hlayer. unfold App.mixLayers. now rewrite Hlayer. }
  split; [reflexivity|]. unfold Recorder.applyFades; cbn [fst snd]. split.
  - intros Hne. rewrite lookup_alter_ne by congruence. exact Hr.
  - intros ->. rewrite lookup_alter_eq, Hr. simpl.
    eexists. split; [reflexivity|]. cbn [sampleRate frameCount channels].
    split; [reflexivity|]. split; [reflexivity|].
    apply Forall2_fmap_r, Forall_Forall2_diag, Forall_forall.
    intros c _. apply length_fadeChannel.
Qed.

Lemma buffers_written_only_by_applyFades_witness :
  exists mixed : loc,
    fst (fst (App.mixLayers twoTakes bothTakes)) = Some mixed /\
    twoTakes !! mixed = None /\
    snd (fst (App.mixLayers twoTakes bothTakes)) !! 0%nat = Some takeA /\
    fst (Recorder.applyFades twoTakes 1%nat) !! 0%nat = Some takeA.
Proof.
  destruct (buffers_written_only_by_applyFades
              twoTakes bothTakes 1%nat 0%nat takeA eq_refl)
    as (Hmix & Hfresh & _ & _ & Hother & _).
  destruct Hfresh as (mixed & Hmixed & Hnew & _); [simpl; lia|].
  exists mixed. split; [exact Hmixed|]. split; [exact Hnew|].
  split; [exact Hmix|]. apply Hother. discriminate.
Defined.

(** ** History *)

Lemma last_pushBounded (stack : list App.Snapshot) (entry : App.Snapshot) :
  last (App.pushBounded stack entry) = Some entry.
Proof.
  unfold App.pushBounded.
  destruct (decide (10 < length (stack ++ [entry]))%nat) as [Hlong|_];
    [|apply last_snoc].
  destruct stack as [|x stack]; [simpl in Hlong; lia|].
  simpl. apply last_snoc.
Qed.

(** The state that the completion of an overdub leaves. *)
Lemma overdubComplete_state (σ : heap) (st : App.State) (audioBuffer : loc) :
  let st' := snd (App.overdubComplete σ st audioBuffer) in
  App.layers st' = App.layers st ++ [audioBuffer] /\
  App.layerVolumes st' = App.layerVolumes st ++ [Fin 1] /\
  App.layerMuted st' = App.layerMuted st ++ [false] /\
  App.undoStack st' = App.pushBounded (App.undoStack st) (App.snapshot st) /\
  App.redoStack st' = [].
Proof.
  unfold App.overdubComplete, Recorder.applyFades.
  match goal with
  | |- context [App.mixLayers ?s ?t] =>
      pose proof (mixLayers_keeps_fields s t) as Hkeep;
      destruct (App.mixLayers s t) as [[mixed σ'] st'']
  end.
  cbn in Hkeep |- *. tauto.
Qed.

Lemma overdubComplete_preserves_buffers
    (σ : heap) (st : App.State) (audioBuffer r : loc) (b : AudioBuffer) :
  r <> audioBuffer -> σ !! r = Some b ->
  fst (App.overdubComplete σ st audioBuffer) !! r = Some b.
Proof.
  intros Hne Hr.
  unfold App.overdubComplete, Recorder.applyFades.
  match goal with
  | |- context [App.mixLayers ?s ?t] =>
      pose proof (mixLayers_preserves_buffers s t r b) as Hkeep;
      destruct (App.mixLayers s t) as [[mixed σ'] st'']
  end.
  cbn in Hkeep |- *. apply Hkeep.
  rewrite lookup_alter_ne by congruence. exact Hr.
Qed.

(** The state that an undo leaves when there is something to undo. *)
Lemma handleUndo_state (σ : heap) (st : App.State) (previous : App.Snapshot) :
  last (App.undoStack st) = Some previous ->
  let st' := snd (App.handleUndo σ st) in
  App.layers st' = App.saved_layers previous /\
  App.layerVolumes st' = App.saved_layerVolumes previous /\
  App.layerMuted st' = App.saved_layerMuted previous /\
  App.undoStack st' = removelast (App.undoStack st) /\
  App.redoStack st' = App.pushBounded (App.redoStack st) (App.snapshot st).
Proof.
  intros Hlast. unfold App.handleUndo. rewrite Hlast.
  match goal with
  | |- context [App.mixLayers ?s ?t] =>
      pose proof (mixLayers_keeps_fields s t) as Hkeep;
      destruct (App.mixLayers s t) as [[mixed σ'] st'']
  end.
  cbn in Hkeep |- *. tauto.
Qed.

Lemma handleUndo_preserves_buffers
    (σ : heap) (st : App.State) (r : loc) (b : AudioBuffer) :
  σ !! r = Some b -> fst (App.handleUndo σ st) !! r = Some b.
Proof.
  intros Hr. unfold App.handleUndo.
  destruct (last (App.undoStack st)); [|exact Hr].
  match goal with
  | |- context [App.mixLayers ?s ?t] =>
      pose proof (mixLayers_preserves_buffers s t r b Hr) as Hkeep;
      destruct (App.mixLayers s t) as [[mixed σ'] st'']
  end.
  exact Hkeep.
Qed.

Lemma handleLayerVolumeChange_stacks
    (σ : heap) (st : App.State) (layerIndex : nat) (volume : num) :
  let st' := snd (App.handleLayerVolumeChange σ st layerIndex volume) in
  App.layers st' = App.layers st /\
  App.undoStack st' = App.undoStack st /\
  App.redoStack st' = App.redoStack st.
Proof.
  unfold App.handleLayerVolumeChange.
  match goal with
  | |- context [App.mixLayers ?s ?t] =>
      pose proof (mixLayers_keeps_fields s t) as Hkeep;
      destruct (App.mixLayers s t) as [[mixed σ'] st'']
  end.
  cbn in Hkeep |- *. tauto.
Qed.

Lemma handleLayerMuteToggle_stacks
    (σ : heap) (st : App.State) (layerIndex : nat) :
  let st' := snd (App.handleLayerMuteToggle σ st layerIndex) in
  App.layers st' = App.layers st /\
  App.undoStack st' = App.undoStack st /\
  App.redoStack st' = App.redoStack st.
Proof.
  unfold App.handleLayerMuteToggle.
  match goal with
  | |- context [App.mixLayers ?s ?t] =>
      pose proof (mixLayers_keeps_fields s t) as Hkeep;
      destruct (App.mixLayers s t) as [[mixed σ'] st'']
  end.
  cbn in Hkeep |- *. tauto.
Qed.

(** C3, as the code has it.  The completion of an overdub pushes the
    snapshot of the state it starts from and empties the redo stack; a
    volume change and a mute toggle leave both stacks as they are. *)
Theorem history_recorded_by_overdub_only
    (σ : heap) (st : App.State) (audioBuffer : loc)
    (layerIndex : nat) (volume : num) :
  records_history st (snd (App.overdubComplete σ st audioBuffer)) /\
  (App.undoStack (snd (App.handleLayerVolumeChange σ st layerIndex volume))
   = App.undoStack st /\
   App.redoStack (snd (App.handleLayerVolumeChange σ st layerIndex volume))
   = App.redoStack st) /\
  (App.undoStack (snd (App.handleLayerMuteToggle σ st layerIndex))
   = App.undoStack st /\
   App.redoStack (snd (App.handleLayerMuteToggle σ st layerIndex))
   = App.redoStack st).
Proof.
  split; [|split].
  - destruct (overdubComplete_state σ st audioBuffer)
      as (_ & _ & _ & Hundo & Hredo).
    split; [|exact Hredo]. rewrite Hundo. apply last_pushBounded.
  - destruct (handleLayerVolumeChange_stacks σ st layerIndex volume)
      as (_ & Hundo & Hredo). auto.
  - destruct (handleLayerMuteToggle_stacks σ st layerIndex)
      as (_ & Hundo & Hredo). auto.
Qed.

(** The state after an overdub of the second take has been undone: one
    layer, an empty undo stack and one entry on the redo stack. *)
Lemma overdub_undone_stacks :
  let st := snd (App.handleUndo
                   (fst (App.overdubComplete twoTakes baseOnly 1%nat))
                   (snd (App.overdubComplete twoTakes baseOnly 1%nat))) in
  App.undoStack st = [] /\ App.redoStack st <> [].
Proof.
  cbv zeta.
  destruct (overdubComplete_state twoTakes baseOnly 1%nat)
    as (Hl & Hv & Hm & Hundo & Hredo).
  assert (Hlast : last (App.undoStack
                          (snd (App.overdubComplete twoTakes baseOnly 1%nat)))
                  = Some (App.snapshot baseOnly))
    by (rewrite Hundo; apply last_pushBounded).
  destruct (handleUndo_state
              (fst (App.overdubComplete twoTakes baseOnly 1%nat)) _ _ Hlast)
    as (_ & _ & _ & Hundo' & Hredo').
  rewrite Hundo', Hredo', Hundo, Hredo. split; [reflexivity|discriminate].
Qed.

(** C3, as stated, fails for the volume and the mute handlers: in the state
    above neither pushes a snapshot, and neither empties the redo stack. *)
Lemma volume_and_mute_skip_history :
  let σ := fst (App.handleUndo
                  (fst (App.overdubComplete twoTakes baseOnly 1%nat))
                  (snd (App.overdubComplete twoTakes baseOnly 1%nat))) in
  let st := snd (App.handleUndo
                   (fst (App.overdubComplete twoTakes baseOnly 1%nat))
                   (snd (App.overdubComplete twoTakes baseOnly 1%nat))) in
  ~ records_history st
      (snd (App.handleLayerVolumeChange σ st 0%nat (Fin (1 # 2)))) /\
  ~ records_history st (snd (App.handleLayerMuteToggle σ st 0%nat)).
Proof.
  intros σ st.
  destruct overdub_undone_stacks as [Hundo Hredo]. fold st in Hundo, Hredo.
  split; intros [Hlast Hempty].
  - destruct (handleLayerVolumeChange_stacks σ st 0%nat (Fin (1 # 2)))
      as (_ & _ & Hr).
    rewrite Hr in Hempty. contradiction.
  - destruct (handleLayerMuteToggle_stacks σ st 0%nat) as (_ & _ & Hr).
    rewrite Hr in Hempty. contradiction.
Qed.

(** What each handler leaves in [layers]. *)
Lemma perform_layers (a : App.Action) (σ : heap) (st : App.State) :
  App.layers (snd (App.perform a σ st)) =
  match a with
  | App.RecordComplete audioBuffer | App.FileLoaded audioBuffer =>
      [audioBuffer]
  | App.OverdubComplete audioBuffer => App.layers st ++ [audioBuffer]
  | App.Undo =>
      match last (App.undoStack st) with
      | Some previous => App.saved_layers previous
      | None => App.layers st
      end
  | App.Clear => []
  | App.LayerVolumeChange _ _ | App.LayerMuteToggle _ => App.layers st
  end.
Proof.
  destruct a as [b|b| |b| |i v|i]; cbn [App.perform].
  - reflexivity.
  - apply overdubComplete_state.
  - destruct (last (App.undoStack st)) as [previous|] eqn:Hlast.
    + now apply handleUndo_state.
    + unfold App.handleUndo. now rewrite Hlast.
  - reflexivity.
  - reflexivity.
  - apply handleLayerVolumeChange_stacks.
  - apply handleLayerMuteToggle_stacks.
Qed.

(** An overdub followed by an undo, from any state. *)
Lemma overdub_then_undo (σ : heap) (st : App.State) (audioBuffer : loc) :
  let st1 := snd (App.overdubComplete σ st audioBuffer) in
  let st2 := snd (App.handleUndo
                    (fst (App.overdubComplete σ st audioBuffer)) st1) in
  App.snapshot st1 =
    {| App.saved_layers := App.layers st ++ [audioBuffer];
       App.saved_layerVolumes := App.layerVolumes st ++ [Fin 1];
       App.saved_layerMuted := App.layerMuted st ++ [false] |} /\
  App.snapshot st2 = App.snapshot st /\
  App.undoStack st2
  = removelast (App.pushBounded (App.undoStack st) (App.snapshot st)) /\
  App.redoStack st2 = [App.snapshot st1].
Proof.
  intros st1 st2.
  destruct (overdubComplete_state σ st audioBuffer)
    as (Hl & Hv & Hm & Hundo & Hredo).
  fold st1 in Hl, Hv, Hm, Hundo, Hredo.
  assert (Hlast : last (App.undoStack st1) = Some (App.snapshot st))
    by (rewrite Hundo; apply last_pushBounded).
  destruct (handleUndo_state
              (fst (App.overdubComplete σ st audioBuffer)) st1 _ Hlast)
    as (Hl' & Hv' & Hm' & Hundo' & Hredo').
  fold st2 in Hl', Hv', Hm', Hundo', Hredo'.
  split; [|split; [|split]].
  - unfold App.snapshot. now rewrite Hl, Hv, Hm.
  - unfold App.snapshot at 1. rewrite Hl', Hv', Hm'. reflexivity.
  - now rewrite Hundo', Hundo.
  - rewrite Hredo', Hredo. reflexivity.
Qed.

(** C4, as the code has it.  After the completion of an overdub, [handleUndo]
    restores the layers, volumes and mute flags of the state before the
    overdub, keeps every buffer other than the new take as it was, and leaves
    the overdubbed state as the only entry of the redo stack. *)
Theorem undo_restores_pre_overdub_state
    (σ : heap) (st : App.State) (audioBuffer : loc) :
  let st1 := snd (App.overdubComplete σ st audioBuffer) in
  let σ1 := fst (App.overdubComplete σ st audioBuffer) in
  let st2 := snd (App.handleUndo σ1 st1) in
  let σ2 := fst (App.handleUndo σ1 st1) in
  App.snapshot st2 = App.snapshot st /\
  App.redoStack st2 = [App.snapshot st1] /\
  App.layers st1 = App.layers st ++ [audioBuffer] /\
  (forall (r : loc) (b : AudioBuffer),
      r <> audioBuffer -> σ !! r = Some b -> σ2 !! r = Some b).
Proof.
  intros st1 σ1 st2 σ2.
  destruct (overdub_then_undo σ st audioBuffer) as (_ & Hsnap & _ & Hredo).
  split; [exact Hsnap|]. split; [exact Hredo|].
  split; [apply overdubComplete_state|].
  intros r b Hne Hr.
  apply handleUndo_preserves_buffers.
  now apply overdubComplete_preserves_buffers.
Qed.

(** C4, as stated, fails: no handler of the application is a redo.  After
    the undo of an overdub on the one-layer state, none of them brings the
    two layers back (an overdub does so only for the take it is given). *)
Lemma no_redo_action : ~ exists a : App.Action, is_redo a.
Proof.
  intros [a Hredo]. unfold is_redo in Hredo.
  set (X := match a with
            | App.OverdubComplete audioBuffer => S audioBuffer
            | _ => 1%nat
            end).
  specialize (Hredo twoTakes baseOnly X).
  destruct (App.overdubComplete twoTakes baseOnly X) as [σ1 st1] eqn:E1.
  destruct (App.handleUndo σ1 st1) as [σ2 st2] eqn:E2.
  destruct (overdub_then_undo twoTakes baseOnly X)
    as (Hsnap1 & Hsnap2 & Hundo & _).
  rewrite E1 in Hsnap1, Hsnap2, Hundo. cbn [fst snd] in Hsnap1, Hsnap2, Hundo.
  rewrite E2 in Hsnap2, Hundo. cbn [fst snd] in Hsnap2, Hundo.
  rewrite Hsnap1 in Hredo.
  apply (f_equal App.saved_layers) in Hredo.
  apply (f_equal App.saved_layers) in Hsnap2.
  cbn [App.snapshot App.saved_layers] in Hredo, Hsnap2.
  rewrite perform_layers, Hsnap2, Hundo in Hredo.
  cbn in Hredo.
  destruct a; try discriminate Hredo.
  subst X. injection Hredo as Heq. lia.
Qed.

(** * Further properties *)

(** ** Sessions: bounded, aligned history *)

Lemma length_pushBounded (stack : list App.Snapshot) (entry : App.Snapshot) :
  (length stack <= 10)%nat ->
  (length (App.pushBounded stack entry) <= 10)%nat.
Proof.
  intros Hlen. unfold App.pushBounded.
  destruct (decide (10 < length (stack ++ [entry]))%nat) as [Hlong|Hshort].
  - rewrite length_app in Hlong. simpl in Hlong.
    destruct stack as [|x stack]; simpl in *; [lia|].
    rewrite length_app. simpl. lia.
  - lia.
Qed.

Lemma Forall_pushBounded (P : App.Snapshot -> Prop)
    (stack : list App.Snapshot) (entry : App.Snapshot) :
  Forall P stack -> P entry -> Forall P (App.pushBounded stack entry).
Proof.
  intros Hstack Hentry. unfold App.pushBounded.
  assert (Hall : Forall P (stack ++ [entry]))
    by (apply Forall_app; split; [assumption|now constructor]).
  destruct (decide _); [|exact Hall].
  destruct (stack ++ [entry]); [constructor|]. now inversion Hall.
Qed.

Lemma Forall_removelast {A} (P : A -> Prop) (l : list A) :
  Forall P l -> Forall P (removelast l).
Proof.
  induction 1 as [|x l Hx Hl IH]; simpl; [constructor|].
  destruct l; [constructor|]. constructor; assumption.
Qed.

Lemma length_removelast_le {A} (l : list A) :
  (length (removelast l) <= length l)%nat.
Proof.
  induction l as [|x l IH]; simpl; [lia|]. destruct l; simpl in *; lia.
Qed.

Lemma length_array_set_in_range {A} (hole : A) (xs : list A) (i : nat) (v : A) :
  (i < length xs)%nat -> length (array_set hole xs i v) = length xs.
Proof.
  intros Hi. unfold array_set.
  destruct (decide (i < length xs)%nat); [apply length_insert|lia].
Qed.

Lemma last_elem_of {A} (l : list A) (x : A) : last l = Some x -> x ∈ l.
Proof.
  intros H. apply last_Some in H as [l' ->].
  apply elem_of_app. right. now left.
Qed.

(** The fields of the state after each handler, in terms of the fields
    before it. *)
Lemma handleLayerVolumeChange_state
    (σ : gmap nat AudioBuffer) (st : App.State) (i : nat) (v : num) :
  let st' := snd (App.handleLayerVolumeChange σ st i v) in
  App.layers st' = App.layers st /\
  App.layerVolumes st' = array_set NaN (App.layerVolumes st) i v /\
  App.layerMuted st' = App.layerMuted st /\
  App.undoStack st' = App.undoStack st /\
  App.redoStack st' = App.redoStack st.
Proof.
  unfold App.handleLayerVolumeChange.
  match goal with
  | |- context [App.mixLayers ?s ?t] =>
      pose proof (mixLayers_keeps_fields s t) as Hkeep;
      destruct (App.mixLayers s t) as [[mixed σ'] st'']
  end.
  cbn in Hkeep |- *. tauto.
Qed.

Lemma handleLayerMuteToggle_state
    (σ : gmap nat AudioBuffer) (st : App.State) (i : nat) :
  let st' := snd (App.handleLayerMuteToggle σ st i) in
  App.layers st' = App.layers st /\
  App.layerVolumes st' = App.layerVolumes st /\
  App.layerMuted st'
  = array_set false (App.layerMuted st) i
              (negb (nth i (App.layerMuted st) false)) /\
  App.undoStack st' = App.undoStack st /\
  App.redoStack st' = App.redoStack st.
Proof.
  unfold App.handleLayerMuteToggle.
  match goal with
  | |- context [App.mixLayers ?s ?t] =>
      pose proof (mixLayers_keeps_fields s t) as Hkeep;
      destruct (App.mixLayers s t) as [[mixed σ'] st'']
  end.
  cbn in Hkeep |- *. tauto.
Qed.

(** Every handler keeps the two stacks within 10 entries. *)
Lemma perform_stacks_bounded (σ : gmap nat AudioBuffer) (st : App.State)
    (a : App.Action) :
  (length (App.undoStack st) <= 10)%nat ->
  (length (App.redoStack st) <= 10)%nat ->
  (length (App.undoStack (snd (App.perform a σ st))) <= 10)%nat /\
  (length (App.redoStack (snd (App.perform a σ st))) <= 10)%nat.
Proof.
  intros Hundo Hredo.
  destruct a as [b|b| |b| |i v|i]; cbn [App.perform].
  - simpl. lia.
  - pose proof (overdubComplete_state σ st b) as H. cbv zeta in H.
    destruct H as (_ & _ & _ & -> & ->).
    split; [now apply length_pushBounded|simpl; lia].
  - destruct (last (App.undoStack st)) as [previous|] eqn:Hlast.
    + pose proof (handleUndo_state σ st previous Hlast) as H. cbv zeta in H.
      destruct H as (_ & _ & _ & -> & ->).
      pose proof (length_removelast_le (App.undoStack st)).
      split; [lia|now apply length_pushBounded].
    + unfold App.handleUndo. rewrite Hlast. now split.
  - simpl. lia.
  - simpl. lia.
  - pose proof (handleLayerVolumeChange_state σ st i v) as H. cbv zeta in H.
    destruct H as (_ & _ & _ & -> & ->). now split.
  - pose proof (handleLayerMuteToggle_state σ st i) as H. cbv zeta in H.
    destruct H as (_ & _ & _ & -> & ->). now split.
Qed.

(** Every handler keeps the arrays of the state and of the snapshots
    aligned, a volume or mute event provided that its index is one of a
    layer. *)
Lemma perform_aligned (σ : gmap nat AudioBuffer) (st : App.State)
    (a : App.Action) :
  layerIndexInRange st a ->
  aligned (App.snapshot st) ->
  Forall aligned (App.undoStack st) -> Forall aligned (App.redoStack st) ->
  aligned (App.snapshot (snd (App.perform a σ st))) /\
  Forall aligned (App.undoStack (snd (App.perform a σ st))) /\
  Forall aligned (App.redoStack (snd (App.perform a σ st))).
Proof.
  intros Hrange [Hv Hm] Hau Har.
  unfold App.snapshot, aligned in Hv, Hm; cbn in Hv, Hm.
  unfold aligned at 1, App.snapshot.
  cbn [App.saved_layers App.saved_layerVolumes App.saved_layerMuted].
  destruct a as [b|b| |b| |i v|i]; cbn [App.perform].
  - simpl. repeat split; constructor.
  - pose proof (overdubComplete_state σ st b) as H. cbv zeta in H.
    destruct H as (-> & -> & -> & -> & ->).
    rewrite !length_app. cbn [length].
    repeat split; try lia; [|constructor].
    apply Forall_pushBounded; [exact Hau|]. split; cbn; assumption.
  - destruct (last (App.undoStack st)) as [previous|] eqn:Hlast.
    + pose proof (last_elem_of _ _ Hlast) as Hin.
      pose proof (proj1 (Forall_forall _ _) Hau previous Hin) as [Hpv Hpm].
      pose proof (handleUndo_state σ st previous Hlast) as H. cbv zeta in H.
      destruct H as (-> & -> & -> & -> & ->).
      repeat split; try assumption.
      * now apply Forall_removelast.
      * apply Forall_pushBounded; [exact Har|]. split; cbn; assumption.
    + unfold App.handleUndo. rewrite Hlast. cbn [snd].
      repeat split; assumption.
  - simpl. repeat split; constructor.
  - simpl. repeat split; constructor.
  - cbn in Hrange.
    pose proof (handleLayerVolumeChange_state σ st i v) as H. cbv zeta in H.
    destruct H as (-> & -> & -> & -> & ->).
    rewrite length_array_set_in_range by lia. repeat split; assumption.
  - cbn in Hrange.
    pose proof (handleLayerMuteToggle_state σ st i) as H. cbv zeta in H.
    destruct H as (-> & -> & -> & -> & ->).
    rewrite length_array_set_in_range by lia. repeat split; assumption.
Qed.

(** Every handler keeps the snapshots of the undo stack non-empty, an
    overdub provided that it completes on a layer. *)
Lemma perform_undo_snapshots (σ : gmap nat AudioBuffer) (st : App.State)
    (a : App.Action) :
  overdubOnLayers st a ->
  Forall (fun s => App.saved_layers s <> []) (App.undoStack st) ->
  Forall (fun s => App.saved_layers s <> [])
         (App.undoStack (snd (App.perform a σ st))).
Proof.
  intros Hallowed Hne.
  destruct a as [b|b| |b| |i v|i]; cbn [App.perform].
  - constructor.
  - cbn in Hallowed.
    pose proof (overdubComplete_state σ st b) as H. cbv zeta in H.
    destruct H as (_ & _ & _ & -> & _).
    apply Forall_pushBounded; [exact Hne|exact Hallowed].
  - destruct (last (App.undoStack st)) as [previous|] eqn:Hlast.
    + pose proof (handleUndo_state σ st previous Hlast) as H. cbv zeta in H.
      destruct H as (_ & _ & _ & -> & _). now apply Forall_removelast.
    + unfold App.handleUndo. now rewrite Hlast.
  - constructor.
  - constructor.
  - pose proof (handleLayerVolumeChange_state σ st i v) as H. cbv zeta in H.
    now destruct H as (_ & _ & _ & -> & _).
  - pose proof (handleLayerMuteToggle_state σ st i) as H. cbv zeta in H.
    now destruct H as (_ & _ & _ & -> & _).
Qed.

Lemma session_weaken (allowed allowed' : App.State -> App.Action -> Prop)
    (σ : gmap nat AudioBuffer) (st : App.State) :
  (forall st a, allowed st a -> allowed' st a) ->
  session allowed σ st -> session allowed' σ st.
Proof.
  intros Himpl. induction 1 as [σ|σ st a Hsession IH Hallowed].
  - apply session_initial.
  - apply session_step; [exact IH|now apply Himpl].
Qed.

(** A session: a recording, an overdub, a mute of the overdub. *)
Lemma session_example :
  session (fun st a => layerIndexInRange st a /\ overdubOnLayers st a)
    (fst (App.perform (App.LayerMuteToggle 1)
            (fst (App.perform (App.OverdubComplete 1%nat)
                    (fst (App.perform (App.RecordComplete 0%nat)
                            twoTakes initialState))
                    (snd (App.perform (App.RecordComplete 0%nat)
                            twoTakes initialState))))
            (snd (App.perform (App.OverdubComplete 1%nat)
                    (fst (App.perform (App.RecordComplete 0%nat)
                            twoTakes initialState))
                    (snd (App.perform (App.RecordComplete 0%nat)
                            twoTakes initialState))))))
    (snd (App.perform (App.LayerMuteToggle 1)
            (fst (App.perform (App.OverdubComplete 1%nat)
                    (fst (App.perform (App.RecordComplete 0%nat)
                            twoTakes initialState))
                    (snd (App.perform (App.RecordComplete 0%nat)
                            twoTakes initialState))))
            (snd (App.perform (App.OverdubComplete 1%nat)
                    (fst (App.perform (App.RecordComplete 0%nat)
                            twoTakes initialState))
                    (snd (App.perform (App.RecordComplete 0%nat)
                            twoTakes initialState)))))).
Proof.
  apply session_step.
  - apply session_step.
    + apply session_step; [apply session_initial|split; exact I].
    + split; [exact I|discriminate].
  - split; [|exact I]. cbn [layerIndexInRange].
    rewrite perform_layers. cbn. lia.
Defined.

Lemma reachable_example :
  reachable
    (fst (App.perform (App.LayerMuteToggle 1)
            (fst (App.perform (App.OverdubComplete 1%nat)
                    (fst (App.perform (App.RecordComplete 0%nat)
                            twoTakes initialState))
                    (snd (App.perform (App.RecordComplete 0%nat)
                            twoTakes initialState))))
            (snd (App.perform (App.OverdubComplete 1%nat)
                    (fst (App.perform (App.RecordComplete 0%nat)
                            twoTakes initialState))
                    (snd (App.perform (App.RecordComplete 0%nat)
                            twoTakes initialState))))))
    (snd (App.perform (App.LayerMuteToggle 1)
            (fst (App.perform (App.OverdubComplete 1%nat)
                    (fst (App.perform (App.RecordComplete 0%nat)
                            twoTakes initialState))
                    (snd (App.perform (App.RecordComplete 0%nat)
                            twoTakes initialState))))
            (snd (App.perform (App.OverdubComplete 1%nat)
                    (fst (App.perform (App.RecordComplete 0%nat)
                            twoTakes initialState))
                    (snd (App.perform (App.RecordComplete 0%nat)
                            twoTakes initialState)))))).
Proof.
  exact (session_weaken _ _ _ _ (fun _ _ _ => I) session_example).
Defined.

(** X1. In every state of the application, whatever the handlers that ran
    and their order, the undo stack and the redo stack hold at most 10
    entries. *)
Theorem history_stacks_bounded (σ : gmap nat AudioBuffer) (st : App.State) :
  reachable σ st ->
  (length (App.undoStack st) <= 10)%nat /\
  (length (App.redoStack st) <= 10)%nat.
Proof.
  induction 1 as [σ|σ st a Hreach [Hundo Hredo] _].
  - simpl. lia.
  - now apply perform_stacks_bounded.
Qed.

Lemma history_stacks_bounded_witness :
  exists (σ : gmap nat AudioBuffer) (st : App.State),
    reachable σ st /\ App.layers st = [0%nat; 1%nat] /\
    (length (App.undoStack st) <= 10)%nat /\
    (length (App.redoStack st) <= 10)%nat.
Proof.
  eexists _, _. split; [exact reachable_example|].
  split; [vm_compute; reflexivity|].
  exact (history_stacks_bounded _ _ reachable_example).
Defined.

(** X2. As long as every volume and mute event carries the index of an
    existing layer, the arrays [layers], [layerVolumes] and [layerMuted]
    have the same length, and so have the three arrays of every snapshot on
    the undo and redo stacks. *)
Theorem layer_arrays_aligned (σ : gmap nat AudioBuffer) (st : App.State) :
  session layerIndexInRange σ st ->
  length (App.layerVolumes st) = length (App.layers st) /\
  length (App.layerMuted st) = length (App.layers st) /\
  Forall aligned (App.undoStack st) /\
  Forall aligned (App.redoStack st).
Proof.
  intros Hsession.
  assert (H : aligned (App.snapshot st) /\
              Forall aligned (App.undoStack st) /\
              Forall aligned (App.redoStack st)).
  { induction Hsession as [σ|σ st a Hsession (Ha & Hu & Hr) Hallowed].
    - repeat split; constructor.
    - now apply perform_aligned. }
  destruct H as ([Hv Hm] & Hu & Hr). repeat split; assumption.
Qed.

Lemma layer_arrays_aligned_witness :
  exists (σ : gmap nat AudioBuffer) (st : App.State),
    session layerIndexInRange σ st /\ App.layerMuted st = [false; true] /\
    length (App.layerVolumes st) = length (App.layers st) /\
    length (App.layerMuted st) = length (App.layers st).
Proof.
  pose proof (session_weaken _ layerIndexInRange _ _
                (fun _ _ H => proj1 H) session_example) as Hsession.
  eexists _, _. split; [exact Hsession|].
  split; [vm_compute; reflexivity|].
  destruct (layer_arrays_aligned _ _ Hsession) as (Hv & Hm & _).
  split; assumption.
Defined.

(** X3. As long as no overdub completes while the list of layers is empty,
    undo never removes the last layer: from a state that has layers,
    [handleUndo] leaves at least one layer. *)
Theorem undo_keeps_base_layer (σ : gmap nat AudioBuffer) (st : App.State) :
  session overdubOnLayers σ st -> App.layers st <> [] ->
  App.layers (snd (App.handleUndo σ st)) <> [].
Proof.
  intros Hsession Hlayers.
  assert (Hne : Forall (fun s => App.saved_layers s <> [])
                       (App.undoStack st)).
  { clear Hlayers.
    induction Hsession as [σ|σ st a Hsession IH Hallowed]; [constructor|].
    now apply perform_undo_snapshots. }
  destruct (last (App.undoStack st)) as [previous|] eqn:Hlast.
  - pose proof (handleUndo_state σ st previous Hlast) as H. cbv zeta in H.
    destruct H as (-> & _).
    rewrite Forall_forall in Hne. apply Hne. now apply last_elem_of.
  - unfold App.handleUndo. now rewrite Hlast.
Qed.

Lemma undo_keeps_base_layer_witness :
  exists (σ : gmap nat AudioBuffer) (st : App.State),
    session overdubOnLayers σ st /\ App.layers st = [0%nat; 1%nat] /\
    App.layers (snd (App.handleUndo σ st)) <> [].
Proof.
  pose proof (session_weaken _ overdubOnLayers _ _
                (fun _ _ H => proj2 H) session_example) as Hsession.
  eexists _, _. split; [exact Hsession|].
  split; [vm_compute; reflexivity|].
  apply (undo_keeps_base_layer _ _ Hsession).
  vm_compute. discriminate.
Defined.

(** ** Sessions: how far undo reaches *)

Lemma snapshot_overdubComplete
    (σ : gmap nat AudioBuffer) (st : App.State) (audioBuffer : nat) :
  App.snapshot (snd (App.overdubComplete σ st audioBuffer))
  = overdubbed (App.snapshot st) audioBuffer.
Proof.
  pose proof (overdubComplete_state σ st audioBuffer) as H. cbv zeta in H.
  destruct H as (Hl & Hv & Hm & _).
  unfold App.snapshot, overdubbed. cbn [App.saved_layers App.saved_layerVolumes
    App.saved_layerMuted]. now rewrite Hl, Hv, Hm.
Qed.

Lemma pushBounded_app (p q : list App.Snapshot) (entry : App.Snapshot) :
  (length q < 10)%nat ->
  exists p', App.pushBounded (p ++ q) entry = p' ++ q ++ [entry].
Proof.
  intros Hq. unfold App.pushBounded.
  destruct (decide (10 < length ((p ++ q) ++ [entry]))%nat) as [Hlong|_].
  - destruct p as [|x p].
    + rewrite !length_app in Hlong. simpl in Hlong. lia.
    + exists p. simpl. now rewrite <- app_assoc.
  - exists p. now rewrite <- app_assoc.
Qed.

(** The undo stack after a run of overdubs ends with the snapshots of the
    run, as long as they fit. *)
Lemma overdubs_stack (audioBuffers : list nat) :
  forall (σ : gmap nat AudioBuffer) (st : App.State)
         (p q : list App.Snapshot),
    App.undoStack st = p ++ q ->
    (length q + length audioBuffers <= 10)%nat ->
    exists p',
      App.undoStack (snd (overdubs σ st audioBuffers))
      = p' ++ q ++ overdubSnapshots (App.snapshot st) audioBuffers /\
      App.snapshot (snd (overdubs σ st audioBuffers))
      = fold_left overdubbed audioBuffers (App.snapshot st).
Proof.
  induction audioBuffers as [|x xs IH]; intros σ st p q Hstack Hlen.
  - exists p. cbn. now rewrite app_nil_r.
  - cbn [length] in Hlen. unfold overdubs. cbn [fold_left fst snd].
    destruct (App.overdubComplete σ st x) as [σ1 st1] eqn:E1.
    pose proof (overdubComplete_state σ st x) as Hu. cbv zeta in Hu.
    destruct Hu as (_ & _ & _ & Hu & _).
    pose proof (snapshot_overdubComplete σ st x) as Hsnap.
    rewrite E1 in Hu, Hsnap. cbn [snd] in Hu, Hsnap.
    rewrite Hstack in Hu.
    destruct (pushBounded_app p q (App.snapshot st) ltac:(lia)) as [p1 Hp1].
    rewrite Hp1 in Hu.
    destruct (IH σ1 st1 p1 (q ++ [App.snapshot st]))
      as (p' & Hfinal & Hsnapfinal).
    + exact Hu.
    + rewrite length_app. simpl. lia.
    + exists p'. unfold overdubs in Hfinal, Hsnapfinal.
      rewrite Hfinal, Hsnapfinal, Hsnap. cbn [overdubSnapshots fold_left].
      now rewrite <- !app_assoc.
Qed.

Lemma length_overdubSnapshots (s : App.Snapshot) (audioBuffers : list nat) :
  length (overdubSnapshots s audioBuffers) = length audioBuffers.
Proof.
  revert s; induction audioBuffers as [|x xs IH]; intros s; simpl; auto.
Qed.

Lemma snapshot_eta (st : App.State) (s : App.Snapshot) :
  App.layers st = App.saved_layers s ->
  App.layerVolumes st = App.saved_layerVolumes s ->
  App.layerMuted st = App.saved_layerMuted s ->
  App.snapshot st = s.
Proof.
  intros Hl Hv Hm. destruct s. unfold App.snapshot. cbn in *. congruence.
Qed.

(** Undoing as many times as the stack ends with known snapshots restores
    the oldest of them. *)
Lemma undos_pop (ss : list App.Snapshot) :
  forall (σ : gmap nat AudioBuffer) (st : App.State)
         (p : list App.Snapshot) (first : App.Snapshot),
    App.undoStack st = p ++ ss -> head ss = Some first ->
    App.snapshot (snd (undos (length ss) (σ, st))) = first /\
    App.undoStack (snd (undos (length ss) (σ, st))) = p.
Proof.
  induction ss as [|s ss IH] using rev_ind; intros σ st p first Hstack Hhead;
    [discriminate|].
  rewrite length_app. cbn [length]. rewrite Nat.add_1_r.
  unfold undos. rewrite Nat.iter_succ_r.
  fold (undos (length ss) (App.handleUndo (σ, st).1 (σ, st).2)).
  cbn [fst snd].
  assert (Hlast : last (App.undoStack st) = Some s).
  { rewrite Hstack, app_assoc. apply last_snoc. }
  pose proof (handleUndo_state σ st s Hlast) as H. cbv zeta in H.
  destruct H as (Hl & Hv & Hm & Hu & _).
  pose proof (snapshot_eta _ _ Hl Hv Hm) as Hsnap.
  rewrite Hstack, app_assoc, removelast_last in Hu.
  destruct (App.handleUndo σ st) as [σ1 st1]. cbn [snd] in *.
  destruct ss as [|s0 ss0].
  - cbn in Hhead. injection Hhead as <-. cbn.
    split; [exact Hsnap|]. now rewrite app_nil_r in Hu.
  - apply (IH σ1 st1 p first Hu). exact Hhead.
Qed.

Lemma head_overdubSnapshots (s : App.Snapshot) (audioBuffers : list nat) :
  audioBuffers <> [] -> head (overdubSnapshots s audioBuffers) = Some s.
Proof. destruct audioBuffers; [contradiction|reflexivity]. Qed.

(** X4. Up to 10 overdubs in a row are undone completely: after the
    overdubs of [audioBuffers] and as many undos, the layers, volumes and
    mute flags are those before the first overdub. *)
Theorem overdubs_then_undos_restore
    (σ : gmap nat AudioBuffer) (st : App.State) (audioBuffers : list nat) :
  (length audioBuffers <= 10)%nat ->
  App.snapshot (snd (undos (length audioBuffers)
                           (overdubs σ st audioBuffers)))
  = App.snapshot st.
Proof.
  intros Hlen.
  destruct audioBuffers as [|x xs] eqn:E; [reflexivity|]. rewrite <- E in *.
  destruct (overdubs_stack audioBuffers σ st (App.undoStack st) [])
    as (p' & Hstack & _).
  - now rewrite app_nil_r.
  - simpl; lia.
  - cbn [app] in Hstack.
    rewrite <- (length_overdubSnapshots (App.snapshot st) audioBuffers).
    destruct (overdubs σ st audioBuffers) as [σ1 st1]. cbn [snd] in Hstack.
    apply (undos_pop _ σ1 st1 p' _ Hstack).
    apply head_overdubSnapshots. rewrite E. discriminate.
Qed.

Lemma overdubs_then_undos_restore_witness :
  App.snapshot (snd (undos 2 (overdubs twoTakes baseOnly [1%nat; 1%nat])))
  = App.snapshot baseOnly.
Proof.
  apply (overdubs_then_undos_restore twoTakes baseOnly [1%nat; 1%nat]).
  simpl. lia.
Defined.

Lemma overdubs_undoStack_bounded (audioBuffers : list nat) :
  forall (σ : gmap nat AudioBuffer) (st : App.State),
    (length (App.undoStack st) <= 10)%nat ->
    (length (App.undoStack (snd (overdubs σ st audioBuffers))) <= 10)%nat.
Proof.
  induction audioBuffers as [|x xs IH]; intros σ st Hlen; [exact Hlen|].
  unfold overdubs. cbn [fold_left fst snd].
  pose proof (overdubComplete_state σ st x) as Hu. cbv zeta in Hu.
  destruct Hu as (_ & _ & _ & Hu & _).
  destruct (App.overdubComplete σ st x) as [σ1 st1]. cbn [snd] in Hu.
  apply (IH σ1 st1). rewrite Hu. apply length_pushBounded, Hlen.
Qed.

Lemma undos_empty_stack (n : nat) (σ : gmap nat AudioBuffer) (st : App.State) :
  App.undoStack st = [] -> undos n (σ, st) = (σ, st).
Proof.
  intros Hempty. induction n as [|n IH]; [reflexivity|].
  unfold undos in *. rewrite Nat.iter_succ, IH. cbn [fst snd].
  unfold App.handleUndo. now rewrite Hempty.
Qed.

(** X5. Undo reaches back 10 overdubs and no further: after more overdubs,
    any number of undos from 10 on ends at the layers, volumes and mute flags
    that were current 10 overdubs ago. *)
Theorem undo_horizon_10_overdubs
    (σ : gmap nat AudioBuffer) (st : App.State) (old recent : list nat)
    (clicks : nat) :
  (length (App.undoStack st) <= 10)%nat ->
  length recent = 10%nat -> (10 <= clicks)%nat ->
  App.snapshot (snd (undos clicks (overdubs σ st (old ++ recent))))
  = App.snapshot (snd (overdubs σ st old)).
Proof.
  intros Hstack Hrecent Hclicks.
  pose proof (overdubs_undoStack_bounded (old ++ recent) σ st Hstack) as Hbound.
  unfold overdubs in Hbound |- *. rewrite fold_left_app in Hbound |- *.
  fold (overdubs σ st old) in Hbound |- *.
  destruct (overdubs σ st old) as [σ1 st1]. cbn [snd].
  fold (overdubs σ1 st1 recent) in Hbound |- *.
  destruct (overdubs_stack recent σ1 st1 (App.undoStack st1) [])
    as (p' & Hafter & _).
  { now rewrite app_nil_r. }
  { simpl; lia. }
  cbn [app] in Hafter.
  assert (Hp' : p' = []).
  { rewrite Hafter, length_app, length_overdubSnapshots in Hbound.
    destruct p'; [reflexivity|simpl in Hbound; lia]. }
  subst p'.
  replace clicks with ((clicks - 10) + length
    (overdubSnapshots (App.snapshot st1) recent))%nat
    by (rewrite length_overdubSnapshots; lia).
  unfold undos. rewrite Nat.iter_add.
  fold (undos (length (overdubSnapshots (App.snapshot st1) recent))
              (overdubs σ1 st1 recent)).
  destruct (overdubs σ1 st1 recent) as [σ2 st2]. cbn [snd] in Hafter.
  destruct (undos_pop _ σ2 st2 [] (App.snapshot st1) Hafter) as [Hsnap Hempty].
  { apply head_overdubSnapshots. destruct recent; [discriminate|discriminate]. }
  destruct (undos _ (σ2, st2)) as [σ3 st3]. cbn [snd] in Hsnap, Hempty.
  fold (undos (clicks - 10) (σ3, st3)).
  now rewrite (undos_empty_stack _ σ3 st3 Hempty).
Qed.

Lemma undo_horizon_10_overdubs_witness :
  App.snapshot (snd (undos 12 (overdubs twoTakes baseOnly
                    ([1%nat] ++ replicate 10 1%nat))))
  = App.snapshot (snd (overdubs twoTakes baseOnly [1%nat])).
Proof.
  apply (undo_horizon_10_overdubs twoTakes baseOnly [1%nat]
           (replicate 10 1%nat) 12).
  - simpl. lia.
  - reflexivity.
  - lia.
Defined.

(** ** The compositor on two or more layers *)

Lemma mixedBuffer_many (σ : gmap nat AudioBuffer) (st : App.State) :
  (2 <= length (App.layers st))%nat ->
  mixedBuffer σ st = Some
    {| sampleRate := default 44100%positive (App.audioContext st);
       frameCount :=
         fold_left (fun m layer => Nat.max m (frameCount layer))
                   (layerBuffers σ st) 0%nat;
       channels :=
         map (fun channel =>
                fold_left
                  (fun mixedData (entry : nat * AudioBuffer) =>
                     App.mixLayer st channel mixedData (fst entry) (snd entry))
                  (imap pair (layerBuffers σ st))
                  (replicate
                     (fold_left (fun m layer => Nat.max m (frameCount layer))
                                (layerBuffers σ st) 0%nat)
                     (Fin 0)))
             (seq 0 (fold_left
                       (fun m layer => Nat.max m (numberOfChannels layer))
                       (layerBuffers σ st) 1%nat)) |}.
Proof.
  intros Hmany. unfold mixedBuffer, App.mixLayers, layerBuffers.
  destruct (App.layers st) as [|l1 [|l2 ls]] eqn:E;
    [simpl in Hmany; lia..|].
  cbv zeta. cbn [mbind option_bind App.layers].
  rewrite lookup_insert_eq. reflexivity.
Qed.

Lemma fold_max_spec {A} (f : A -> nat) (l : list A) :
  forall a : nat,
    let r := fold_left (fun m x => Nat.max m (f x)) l a in
    (a <= r)%nat /\ (forall x, x ∈ l -> (f x <= r)%nat) /\
    (r = a \/ exists x, x ∈ l /\ f x = r).
Proof.
  induction l as [|y l IH]; intros a; cbn [fold_left].
  - split; [lia|]. split; [|now left]. intros x Hx. inversion Hx.
  - cbv zeta. destruct (IH (Nat.max a (f y))) as (Hge & Hall & Hatt).
    cbv zeta in Hge, Hall, Hatt.
    split; [lia|]. split.
    + intros x Hx. apply elem_of_cons in Hx as [->|Hx]; [lia|now apply Hall].
    + destruct Hatt as [Heq|(x & Hx & Hfx)].
      * destruct (Nat.max_spec a (f y)) as [[_ Hmax]|[_ Hmax]].
        -- right. exists y. split; [left|]. lia.
        -- left. lia.
      * right. exists x. split; [now right|exact Hfx].
Qed.

(** X6. The mix of two or more layers is a new buffer (its reference is
    not in use before the call), at the rate of the audio context (44100 Hz
    when the mix creates the context), with at least one channel and every
    channel of the buffer's length.  It is as long as the longest layer and
    at least as wide as every layer, muted layers included. *)
Theorem mixLayers_shape (σ : gmap nat AudioBuffer) (st : App.State) :
  (2 <= length (App.layers st))%nat ->
  exists mixed : AudioBuffer,
    mixedBuffer σ st = Some mixed /\
    well_formed mixed /\
    sampleRate mixed = default 44100%positive (App.audioContext st) /\
    (forall layer, layer ∈ App.layers st ->
       (frameCount (σ !!! layer) <= frameCount mixed)%nat /\
       (numberOfChannels (σ !!! layer) <= numberOfChannels mixed)%nat) /\
    (exists layer, layer ∈ App.layers st /\
       frameCount (σ !!! layer) = frameCount mixed) /\
    (exists r : nat,
       fst (fst (App.mixLayers σ st)) = Some r /\ σ !! r = None).
Proof.
  intros Hmany.
  assert (Hfresh : exists r : nat,
            fst (fst (App.mixLayers σ st)) = Some r /\ σ !! r = None).
  { destruct (mixLayers_fresh σ st Hmany) as (r & Hr & Hnew & _).
    now exists r. }
  eexists. split; [apply mixedBuffer_many, Hmany|].
  unfold well_formed.
  cbn [sampleRate frameCount channels].
  pose proof (fold_max_spec frameCount (layerBuffers σ st) 0%nat) as HL.
  pose proof (fold_max_spec numberOfChannels (layerBuffers σ st) 1%nat) as HC.
  cbv zeta in HL, HC.
  destruct HL as (_ & HLall & HLatt). destruct HC as (HC1 & HCall & _).
  set (maxLength := fold_left _ (layerBuffers σ st) 0%nat) in *.
  set (maxChannels := fold_left _ (layerBuffers σ st) 1%nat) in *.
  assert (Hmem : forall layer, layer ∈ App.layers st ->
                   σ !!! layer ∈ layerBuffers σ st).
  { intros layer Hin. unfold layerBuffers.
    apply (list_elem_of_fmap_2 (fun layer => σ !!! layer)), Hin. }
  repeat split.
  - destruct maxChannels; [lia|discriminate].
  - apply Forall_forall. intros c Hc.
    apply list_elem_of_fmap in Hc as (channel & -> & _).
    rewrite length_fold_mixLayer. apply length_replicate.
  - apply HLall, Hmem, H.
  - unfold numberOfChannels at 2. cbn [channels].
    rewrite length_map, length_seq. apply HCall, Hmem, H.
  - destruct HLatt as [Hzero|(b & Hb & Hfb)].
    + destruct (App.layers st) as [|l1 ls] eqn:E; [simpl in Hmany; lia|].
      exists l1. assert (Hl1 : l1 ∈ l1 :: ls) by left.
      split; [exact Hl1|].
      pose proof (HLall _ (Hmem _ Hl1)). lia.
    + unfold layerBuffers in Hb.
      apply list_elem_of_fmap in Hb as (layer & -> & Hin).
      exists layer. split; [exact Hin|exact Hfb].
  - exact Hfresh.
Qed.

Lemma mixLayers_shape_witness :
  exists mixed : AudioBuffer,
    mixedBuffer twoTakes bothTakes = Some mixed /\
    well_formed mixed /\
    sampleRate mixed = 44100%positive.
Proof.
  destruct (mixLayers_shape twoTakes bothTakes)
    as (mixed & Hmixed & Hwf & Hrate & _).
  - simpl. lia.
  - exists mixed. split; [exact Hmixed|]. split; [exact Hwf|exact Hrate].
Defined.

Lemma fold_left_fixed {A B} (f : A -> B -> A) (l : list B) (a : A) :
  (forall x, x ∈ l -> f a x = a) -> fold_left f l a = a.
Proof.
  induction l as [|y l IH]; intros Hfix; cbn [fold_left]; [reflexivity|].
  rewrite (Hfix y) by left. apply IH. intros x Hx. apply Hfix. now right.
Qed.

(** X7. With two or more layers and all of them muted the mix is silence:
    every sample of every channel is 0. *)
Theorem mixLayers_all_muted_silent
    (σ : gmap nat AudioBuffer) (st : App.State) (mixed : AudioBuffer) :
  (2 <= length (App.layers st))%nat ->
  (forall layerIndex, (layerIndex < length (App.layers st))%nat ->
     nth layerIndex (App.layerMuted st) false = true) ->
  mixedBuffer σ st = Some mixed ->
  Forall (Forall (fun sample => sample = Fin 0)) (channels mixed).
Proof.
  intros Hmany Hmuted Hmixed.
  rewrite (mixedBuffer_many σ st Hmany) in Hmixed.
  injection Hmixed as <-. cbn [channels].
  apply Forall_forall. intros c Hc.
  apply list_elem_of_fmap in Hc as (channel & -> & _).
  rewrite fold_left_fixed.
  - apply Forall_forall. intros sample Hs.
    now apply elem_of_replicate in Hs as [-> _].
  - intros [layerIndex layer] Hentry.
    apply elem_of_lookup_imap in Hentry as (i & b & Heq & Hlookup).
    injection Heq as -> ->. cbn [fst snd]. unfold App.mixLayer.
    rewrite Hmuted; [reflexivity|].
    apply lookup_lt_Some in Hlookup. unfold layerBuffers in Hlookup.
    now rewrite length_map in Hlookup.
Qed.

Lemma mixLayers_all_muted_silent_witness :
  exists mixed : AudioBuffer,
    mixedBuffer twoTakes bothMuted = Some mixed /\
    Forall (Forall (fun sample => sample = Fin 0)) (channels mixed).
Proof.
  eexists. split.
  - apply mixedBuffer_many. simpl. lia.
  - apply (mixLayers_all_muted_silent twoTakes bothMuted).
    + simpl. lia.
    + intros [|[|layerIndex]] Hi; [reflexivity|reflexivity|].
      simpl in Hi. lia.
    + apply mixedBuffer_many. simpl. lia.
Defined.



(** ** The fades of the recorder *)

Lemma get_insert (l : list num) (i p : nat) (v : num) :
  get (<[i := v]> l) p
  = if decide (p = i /\ (i < length l)%nat) then v else get l p.
Proof.
  unfold get. rewrite !nth_lookup.
  destruct (decide (p = i /\ (i < length l)%nat)) as [[-> Hlt]|Hno].
  - now rewrite list_lookup_insert_eq.
  - destruct (decide (i = p)) as [->|Hne].
    + rewrite list_insert_ge; [reflexivity|]. lia.
    + now rewrite list_lookup_insert_ne.
Qed.

(** A loop that rewrites the cells [base], [base + 1], ... one by one, each
    from its own content. *)
Lemma fold_writes (step : list num -> nat -> list num)
    (g : num -> nat -> num) (base len : nat) :
  (forall d i, length d = len ->
     step d i = <[(base + i)%nat := g (get d (base + i)) i]> d) ->
  forall (n : nat) (d0 : list num),
    length d0 = len ->
    length (fold_left step (seq 0 n) d0) = len /\
    forall p : nat,
      get (fold_left step (seq 0 n) d0) p
      = if decide ((base <= p < base + n)%nat /\ (p < len)%nat)
        then g (get d0 p) (p - base)%nat else get d0 p.
Proof.
  intros Hstep n d0 Hlen. induction n as [|n [IHlen IHget]].
  - split; [exact Hlen|]. intros p. cbn [seq fold_left].
    destruct (decide _) as [[? ?]|_]; [lia|reflexivity].
  - rewrite seq_S, fold_left_app. cbn [fold_left Nat.add].
    rewrite (Hstep _ _ IHlen). split; [now rewrite length_insert|].
    intros p. rewrite get_insert, IHlen, !IHget.
    destruct (decide (p = (base + n)%nat /\ (base + n < len)%nat))
      as [[-> Hlt]|Hno].
    + destruct (decide (_ /\ (base + n < len)%nat)) as [[? ?]|_]; [lia|].
      destruct (decide _) as [_|Hno]; [|lia].
      f_equal. lia.
    + destruct (decide ((base <= p < base + n)%nat /\ (p < len)%nat))
        as [Hyes|Hno1];
        destruct (decide ((base <= p < base + S n)%nat /\ (p < len)%nat))
        as [Hyes'|Hno2]; try reflexivity; lia.
Qed.

Lemma fadeChannel_get (fadeLength : Z) (data : list num) (p : nat) :
  0 <= fadeLength -> 2 * fadeLength <= Z.of_nat (length data) ->
  (p < length data)%nat ->
  get (Recorder.fadeChannel fadeLength data) p
  = if decide (Z.of_nat p < fadeLength)
    then nmul (get data p) (ndiv (of_nat p) (of_Z fadeLength))
    else if decide (Z.of_nat (length data) - fadeLength <= Z.of_nat p)
    then nmul (get data p)
              (ndiv (of_Z (Z.of_nat (length data) - Z.of_nat p))
                    (of_Z fadeLength))
    else get data p.
Proof.
  intros Hfl Hlong Hp. unfold Recorder.fadeChannel.
  set (n := Z.to_nat fadeLength).
  set (len := length data).
  match goal with
  | |- context [fold_left ?out _ (fold_left ?into _ data)] =>
      set (fadeOut := out); set (fadeIn := into)
  end.
  destruct (fold_writes fadeIn
              (fun x i => nmul x (ndiv (of_nat i) (of_Z fadeLength)))
              0%nat len) with (n := n) (d0 := data) as [Hlen1 Hget1];
    [reflexivity|reflexivity|].
  set (base := Z.to_nat (Z.of_nat len - fadeLength)).
  destruct (fold_writes fadeOut
              (fun x i =>
                 nmul x (ndiv (of_Z (fadeLength - Z.of_nat i))
                              (of_Z fadeLength)))
              base len)
    with (n := n) (d0 := fold_left fadeIn (seq 0 n) data) as [_ Hget2].
  { intros d i Hd. unfold fadeOut. rewrite Hd.
    replace (Z.of_nat len - fadeLength + Z.of_nat i)
      with (Z.of_nat (base + i)) by (unfold base; lia).
    rewrite Nat2Z.id.
    destruct (0 <=? Z.of_nat (base + i)) eqn:E; [reflexivity|].
    apply Z.leb_gt in E. lia. }
  { exact Hlen1. }
  rewrite Hget2, !Hget1. fold len. unfold base, n.
  destruct (decide (Z.of_nat p < fadeLength)) as [Hin|Hnotin].
  - destruct (decide (_ /\ (p < len)%nat)) as [[? ?]|_]; [lia|].
    destruct (decide _) as [_|Hno]; [|lia].
    do 3 f_equal. lia.
  - destruct (decide (Z.of_nat len - fadeLength <= Z.of_nat p)) as [Hout|Hmid].
    + destruct (decide (_ /\ (p < len)%nat)) as [_|Hno]; [|lia].
      destruct (decide _) as [[? ?]|_]; [lia|].
      do 3 f_equal. lia.
    + destruct (decide (_ /\ (p < len)%nat)) as [[? ?]|_]; [lia|].
      destruct (decide _) as [[? ?]|_]; [lia|reflexivity].
Qed.

(** X9. The envelope that [applyFades] leaves on a recording of at least
    two fade lengths: with [fadeLength = floor(0.005 * sampleRate)], frame
    [p] of every channel is scaled by [p / fadeLength] in the first
    [fadeLength] frames (so the first frame by 0), by
    [(length - p) / fadeLength] in the last [fadeLength] frames (so the last
    frame by [1 / fadeLength], not by 0), and is untouched in between. *)
Theorem applyFades_envelope
    (σ : gmap nat AudioBuffer) (audioBuffer : nat) (b : AudioBuffer)
    (channel : nat) (data : list num) (p : nat) :
  σ !! audioBuffer = Some b ->
  channels b !! channel = Some data ->
  2 * Recorder.fadeLength (sampleRate b) <= Z.of_nat (length data) ->
  (p < length data)%nat ->
  exists faded : AudioBuffer,
    fst (Recorder.applyFades σ audioBuffer) !! audioBuffer = Some faded /\
    get (getChannelData faded channel) p
    = let fadeLength := Recorder.fadeLength (sampleRate b) in
      if decide (Z.of_nat p < fadeLength)
      then nmul (get data p) (ndiv (of_nat p) (of_Z fadeLength))
      else if decide (Z.of_nat (length data) - fadeLength <= Z.of_nat p)
      then nmul (get data p)
                (ndiv (of_Z (Z.of_nat (length data) - Z.of_nat p))
                      (of_Z fadeLength))
      else get data p.
Proof.
  intros Hb Hdata Hlong Hp. unfold Recorder.applyFades. cbn [fst].
  eexists. split.
  - rewrite lookup_alter_eq, Hb. reflexivity.
  - unfold getChannelData. cbn [channels]. rewrite nth_lookup.
    rewrite list_lookup_fmap, Hdata. cbn [fmap option_fmap option_map default].
    cbv zeta. apply fadeChannel_get; [|exact Hlong|exact Hp].
    unfold Recorder.fadeLength.
    assert (0 <= Qfloor ((5 # 1000) * rate (sampleRate b))); [|lia].
    rewrite <- (Qfloor_Z 0). apply Qfloor_resp_le.
    unfold rate. apply Qmult_le_0_compat; [discriminate|].
    unfold Qle. simpl. lia.
Qed.

Lemma applyFades_envelope_witness :
  exists faded : AudioBuffer,
    fst (Recorder.applyFades twoTakes 0%nat) !! 0%nat = Some faded /\
    get (getChannelData faded 0) 499 = Fin ((1 # 2) * (1 / 220)).
Proof.
  destruct (applyFades_envelope twoTakes 0%nat takeA 0%nat
              (replicate 500 (Fin (1 # 2))) 499)
    as (faded & Hfaded & Hget).
  - reflexivity.
  - reflexivity.
  - vm_compute. discriminate.
  - vm_compute. lia.
  - exists faded. split; [exact Hfaded|]. rewrite Hget. reflexivity.
Defined.

Lemma fade_factor (a fadeLength : Z) :
  0 <= a <= fadeLength -> 0 < fadeLength ->
  exists f : Q,
    ndiv (of_Z a) (of_Z fadeLength) = Fin f /\ (0 <= f)%Q /\ (f <= 1)%Q.
Proof.
  intros Ha Hfl. exists (inject_Z a / inject_Z fadeLength)%Q.
  assert (Hpos : (0 < inject_Z fadeLength)%Q).
  { change 0%Q with (inject_Z 0). rewrite <- Zlt_Qlt. exact Hfl. }
  split; [|split].
  - unfold ndiv, of_Z.
    destruct (Qeq_bool (inject_Z fadeLength) 0) eqn:E; [|reflexivity].
    apply Qeq_bool_iff in E. rewrite E in Hpos. now apply Qlt_irrefl in Hpos.
  - apply Qle_shift_div_l; [exact Hpos|]. rewrite Qmult_0_l.
    change 0%Q with (inject_Z 0). rewrite <- Zle_Qle. lia.
  - apply Qle_shift_div_r; [exact Hpos|]. rewrite Qmult_1_l.
    rewrite <- Zle_Qle. lia.
Qed.

(** One write of a fade keeps every finite sample finite and no louder. *)
Lemma fade_write_attenuates (data d : list num) (j : nat) (a fadeLength : Z) :
  0 <= a <= fadeLength -> 0 < fadeLength ->
  (forall p x, data !! p = Some (Fin x) ->
     exists y, d !! p = Some (Fin y) /\ (Qabs y <= Qabs x)%Q) ->
  forall p x, data !! p = Some (Fin x) ->
    exists y,
      <[j := nmul (get d j) (ndiv (of_Z a) (of_Z fadeLength))]> d !! p
      = Some (Fin y) /\ (Qabs y <= Qabs x)%Q.
Proof.
  intros Ha Hfl Hinv p x Hp.
  destruct (Hinv p x Hp) as (y & Hy & Hle).
  destruct (decide (j = p)) as [->|Hne].
  - destruct (fade_factor a fadeLength Ha Hfl) as (f & -> & Hf0 & Hf1).
    unfold get. rewrite (nth_lookup_Some _ _ _ _ Hy).
    rewrite list_lookup_insert_eq by (eapply lookup_lt_Some, Hy).
    exists (y * f)%Q. split; [reflexivity|].
    rewrite Qabs_Qmult, (Qabs_pos f) by exact Hf0.
    pose proof (Qabs_nonneg y). nra.
  - rewrite list_lookup_insert_ne by exact Hne. now exists y.
Qed.

Lemma fadeChannel_attenuates (fadeLength : Z) (data : list num) :
  forall (p : nat) (x : Q),
    data !! p = Some (Fin x) ->
    exists y : Q,
      Recorder.fadeChannel fadeLength data !! p = Some (Fin y) /\
      (Qabs y <= Qabs x)%Q.
Proof.
  unfold Recorder.fadeChannel.
  apply (fold_left_invariant
           (fun d => forall p x, data !! p = Some (Fin x) ->
              exists y, d !! p = Some (Fin y) /\ (Qabs y <= Qabs x)%Q)).
  - apply (fold_left_invariant
             (fun d => forall p x, data !! p = Some (Fin x) ->
                exists y, d !! p = Some (Fin y) /\ (Qabs y <= Qabs x)%Q)).
    + intros p x Hp. exists x. split; [exact Hp|apply Qle_refl].
    + intros d i Hi Hinv. apply elem_of_seq in Hi.
      apply fade_write_attenuates; [lia|lia|exact Hinv].
  - intros d i Hi Hinv. apply elem_of_seq in Hi. cbv zeta.
    destruct (0 <=? _); [|exact Hinv].
    apply fade_write_attenuates; [lia|lia|exact Hinv].
Qed.

(** X10. [applyFades] never makes a sample louder: whatever the length of
    the recording (also when the fade-in and the fade-out overlap), a finite
    sample stays finite and its magnitude does not grow. *)
Theorem applyFades_never_amplifies
    (σ : gmap nat AudioBuffer) (audioBuffer : nat) (b : AudioBuffer)
    (channel : nat) (data : list num) (p : nat) (x : Q) :
  σ !! audioBuffer = Some b ->
  channels b !! channel = Some data ->
  data !! p = Some (Fin x) ->
  exists (faded : AudioBuffer) (y : Q),
    fst (Recorder.applyFades σ audioBuffer) !! audioBuffer = Some faded /\
    getChannelData faded channel !! p = Some (Fin y) /\
    (Qabs y <= Qabs x)%Q.
Proof.
  intros Hb Hdata Hp.
  destruct (fadeChannel_attenuates (Recorder.fadeLength (sampleRate b))
              data p x Hp) as (y & Hy & Hle).
  unfold Recorder.applyFades. cbn [fst].
  eexists _, y. split; [|split; [|exact Hle]].
  - rewrite lookup_alter_eq, Hb. reflexivity.
  - unfold getChannelData. cbn [channels].
    erewrite nth_lookup_Some; [exact Hy|].
    rewrite list_lookup_fmap, Hdata. reflexivity.
Qed.

Lemma applyFades_never_amplifies_witness :
  exists (faded : AudioBuffer) (y : Q),
    fst (Recorder.applyFades twoTakes 1%nat) !! 1%nat = Some faded /\
    getChannelData faded 1 !! 3%nat = Some (Fin y) /\
    (Qabs y <= Qabs (-1 # 4))%Q.
Proof.
  apply (applyFades_never_amplifies twoTakes 1%nat takeB 1%nat
           (replicate 480 (Fin (-1 # 4))) 3 (-1 # 4));
    reflexivity.
Defined.

(** ** The WAV encoder *)

Lemma readUint_setUint16 (v : Z) :
  0 <= v < 65536 -> Player.readUint (Player.setUint16 v) = v.
Proof.
  intros Hv. unfold Player.readUint, Player.setUint16. cbn [fold_right].
  Z.div_mod_to_equations. lia.
Qed.

Lemma readUint_setUint32 (v : Z) :
  0 <= v < 4294967296 -> Player.readUint (Player.setUint32 v) = v.
Proof.
  intros Hv. unfold Player.readUint, Player.setUint32. cbn [fold_right].
  Z.div_mod_to_equations. lia.
Qed.

Lemma readInt16_setUint16 (v : Z) :
  -32768 <= v <= 32767 -> Player.readInt16 (Player.setUint16 v) = v.
Proof.
  intros Hv. unfold Player.readInt16, Player.readUint, Player.setUint16.
  cbn [fold_right].
  destruct (32768 <=? _) eqn:E;
    [apply Z.leb_le in E|apply Z.leb_gt in E];
    Z.div_mod_to_equations; lia.
Qed.

Lemma length_flat_map_const {A B} (f : A -> list B) (k : nat) (l : list A) :
  (forall x, x ∈ l -> length (f x) = k) ->
  length (flat_map f l) = (length l * k)%nat.
Proof.
  induction l as [|x l IH]; intros Hk; cbn [flat_map length]; [reflexivity|].
  rewrite length_app, Hk by left. rewrite IH; [lia|].
  intros y Hy. apply Hk. now right.
Qed.

Lemma drop_flat_map_const {A B} (f : A -> list B) (k : nat) (l : list A) :
  (forall x, x ∈ l -> length (f x) = k) ->
  forall i : nat, drop (i * k) (flat_map f l) = flat_map f (drop i l).
Proof.
  induction l as [|x l IH]; intros Hk i.
  - cbn [flat_map]. now rewrite !drop_nil.
  - destruct i as [|i]; [reflexivity|].
    cbn [flat_map drop Nat.mul].
    rewrite drop_app_add' by (symmetry; apply Hk; left).
    apply IH. intros y Hy. apply Hk. now right.
Qed.

Lemma length_frame (audioBuffer : AudioBuffer) (i : nat) :
  length (flat_map
            (fun channel =>
               Player.setInt16
                 (Player.scaledSample
                    (get (getChannelData audioBuffer channel) i)))
            (seq 0 (numberOfChannels audioBuffer)))
  = (numberOfChannels audioBuffer * 2)%nat.
Proof.
  rewrite (length_flat_map_const _ 2); [now rewrite length_seq|].
  reflexivity.
Qed.

Lemma byte_mod (v : Z) : 0 <= v mod 256 < 256.
Proof. apply Z.mod_pos_bound. lia. Qed.

Lemma setUint16_bytes (v : Z) :
  Forall (fun byte => 0 <= byte < 256) (Player.setUint16 v).
Proof. unfold Player.setUint16. repeat constructor; apply byte_mod. Qed.

Lemma setUint32_bytes (v : Z) :
  Forall (fun byte => 0 <= byte < 256) (Player.setUint32 v).
Proof. unfold Player.setUint32. repeat constructor; apply byte_mod. Qed.

Lemma length_audioBufferToBlob (audioBuffer : AudioBuffer) :
  length (Player.audioBufferToBlob audioBuffer)
  = (44 + 2 * (frameCount audioBuffer * numberOfChannels audioBuffer))%nat.
Proof.
  unfold Player.audioBufferToBlob. cbv zeta.
  rewrite !length_app.
  rewrite (length_flat_map_const _ (numberOfChannels audioBuffer * 2))
    by (intros i _; apply length_frame).
  rewrite length_seq. cbn. lia.
Qed.

(** X11. The file that [audioBufferToBlob] builds consists of bytes and is
    exactly 44 + 2 * frames * channels long: a 44-byte header and 16 bits
    per sample. *)
Theorem audioBufferToBlob_size (audioBuffer : AudioBuffer) :
  length (Player.audioBufferToBlob audioBuffer)
  = (44 + 2 * (frameCount audioBuffer * numberOfChannels audioBuffer))%nat /\
  Forall (fun byte => 0 <= byte < 256) (Player.audioBufferToBlob audioBuffer).
Proof.
  split; [apply length_audioBufferToBlob|].
  unfold Player.audioBufferToBlob. cbv zeta.
  repeat (apply Forall_app; split);
    try apply setUint32_bytes; try apply setUint16_bytes;
    try (vm_compute; repeat constructor; discriminate).
  apply Forall_flat_map, Forall_forall. intros i _.
  apply Forall_flat_map, Forall_forall. intros channel _.
  apply setUint16_bytes.
Qed.

(** X12. The header of the file is a consistent RIFF/WAVE header for 16-bit
    PCM: the four tags are in place, the RIFF size is the file size less 8,
    the data size is the file size less 44, and the format fields read back
    as the channel count, the sample rate, the byte rate and the block size
    of the buffer, as long as these numbers fit their fields. *)
Theorem audioBufferToBlob_header (audioBuffer : AudioBuffer) :
  let file := Player.audioBufferToBlob audioBuffer in
  let channelCount := Z.of_nat (numberOfChannels audioBuffer) in
  let rate := Z.pos (sampleRate audioBuffer) in
  0 < channelCount < 32768 ->
  rate * channelCount * 2 < 4294967296 ->
  Z.of_nat (length file) < 4294967296 ->
  Player.field file 0 4 = Player.writeString "RIFF" /\
  Player.readUint (Player.field file 4 4) = Z.of_nat (length file) - 8 /\
  Player.field file 8 8 = Player.writeString "WAVEfmt " /\
  Player.readUint (Player.field file 16 4) = 16 /\
  Player.readUint (Player.field file 20 2) = 1 /\
  Player.readUint (Player.field file 22 2) = channelCount /\
  Player.readUint (Player.field file 24 4) = rate /\
  Player.readUint (Player.field file 28 4) = rate * (channelCount * 2) /\
  Player.readUint (Player.field file 32 2) = channelCount * 2 /\
  Player.readUint (Player.field file 34 2) = 16 /\
  Player.field file 36 4 = Player.writeString "data" /\
  Player.readUint (Player.field file 40 4) = Z.of_nat (length file) - 44.
Proof.
  intros file channelCount rate Hchannels Hrate Hsize.
  pose proof (length_audioBufferToBlob audioBuffer) as Hlength.
  fold file in Hlength. rewrite Hlength in Hsize |- *.
  unfold file, Player.audioBufferToBlob. cbv zeta.
  fold channelCount. fold rate.
  set (dataLength := Z.of_nat (frameCount audioBuffer) * channelCount * 2).
  set (samples := flat_map _ (seq 0 (frameCount audioBuffer))).
  assert (HdataLength :
    Z.of_nat (44 + 2 * (frameCount audioBuffer * numberOfChannels audioBuffer))
    = 44 + dataLength) by (unfold dataLength, channelCount; lia).
  rewrite HdataLength in Hsize |- *.
  assert (0 <= dataLength) by (unfold dataLength, channelCount; lia).
  change (Player.writeString "RIFF") with [82; 73; 70; 70].
  change (Player.writeString "WAVE") with [87; 65; 86; 69].
  change (Player.writeString "fmt ") with [102; 109; 116; 32].
  change (Player.writeString "data") with [100; 97; 116; 97].
  change (Player.writeString "WAVEfmt ")
    with [87; 65; 86; 69; 102; 109; 116; 32].
  unfold Player.field, Player.setUint32, Player.setUint16.
  cbn [app drop take].
  repeat split; try reflexivity.
  - etransitivity; [apply (readUint_setUint32 (36 + dataLength)); lia|lia].
  - apply (readUint_setUint16 channelCount); lia.
  - apply (readUint_setUint32 rate); nia.
  - etransitivity; [apply (readUint_setUint32 (rate * channelCount * 2)); lia|lia].
  - apply (readUint_setUint16 (channelCount * 2)); lia.
  - etransitivity; [apply (readUint_setUint32 dataLength); lia|lia].
Qed.

Lemma audioBufferToBlob_header_witness :
  Player.readUint (Player.field (Player.audioBufferToBlob takeB) 22 2) = 2 /\
  Player.readUint (Player.field (Player.audioBufferToBlob takeB) 24 4) = 44100 /\
  Player.readUint (Player.field (Player.audioBufferToBlob takeB) 40 4) = 1920.
Proof.
  destruct (audioBufferToBlob_header takeB)
    as (_ & _ & _ & _ & _ & Hchannels & Hrate & _ & _ & _ & _ & Hdata).
  - vm_compute. split; reflexivity.
  - vm_compute. reflexivity.
  - vm_compute. reflexivity.
  - split; [exact Hchannels|]. split; [exact Hrate|].
    rewrite Hdata. vm_compute. reflexivity.
Defined.

(** The integer part of a number is its floor from 0 up and its ceiling from
    0 down. *)
Lemma toInteger_nonneg (q : Q) :
  (0 <= q)%Q -> Player.toInteger (Fin q) = Qfloor q.
Proof.
  intros Hq. destruct q as [n d]. unfold Player.toInteger, Qfloor.
  cbn [Qnum Qden]. apply Z.quot_div_nonneg; [|lia].
  unfold Qle in Hq. cbn in Hq. lia.
Qed.

Lemma toInteger_nonpos (q : Q) :
  (q <= 0)%Q -> Player.toInteger (Fin q) = Qceiling q.
Proof.
  intros Hq. destruct q as [n d]. unfold Player.toInteger, Qceiling, Qfloor.
  cbn [Qnum Qden Qopp]. unfold Qle in Hq. cbn in Hq.
  rewrite <- (Z.opp_involutive n) at 1.
  rewrite Z.quot_opp_l by lia. f_equal.
  apply Z.quot_div_nonneg; lia.
Qed.

(** The clamp [Math.max(-1, Math.min(1, x))]. *)
Lemma clamp_finite (x : Q) :
  Math_max (Fin (-1)) (Math_min (Fin 1) (Fin x))
  = Fin (if Qle_bool 1 x then 1
         else if Qle_bool x (-1) then -1 else x).
Proof.
  unfold Math_min, Math_max, ngtb.
  destruct (Qle_bool 1 x) eqn:E1; cbn [negb].
  - reflexivity.
  - destruct (Qle_bool x (-1)) eqn:E2; reflexivity.
Qed.

Lemma scaledSample_finite (x : Q) :
  Player.scaledSample (Fin x)
  = Fin (if Qle_bool 1 x then 32767
         else if Qle_bool x (-1) then -1 * 32768
         else if Qle_bool 0 x then x * 32767 else x * 32768).
Proof.
  unfold Player.scaledSample. rewrite clamp_finite.
  destruct (Qle_bool 1 x) eqn:E1; [reflexivity|].
  destruct (Qle_bool x (-1)) eqn:E2; [reflexivity|].
  unfold nltb, ngtb. destruct (Qle_bool 0 x); reflexivity.
Qed.

(** Whatever the sample, the integer written for it fits 16 bits. *)
Lemma toInteger_scaledSample_range (x : num) :
  -32768 <= Player.toInteger (Player.scaledSample x) <= 32767.
Proof.
  destruct x as [| | |x]; try (vm_compute; split; discriminate).
  rewrite scaledSample_finite.
  destruct (Qle_bool 1 x) eqn:E1; [vm_compute; split; discriminate|].
  assert (H1 : (x < 1)%Q).
  { apply Qnot_le_lt. intros Hle. apply Qle_bool_iff in Hle. congruence. }
  destruct (Qle_bool x (-1)) eqn:E2; [vm_compute; split; discriminate|].
  assert (H2 : (-1 < x)%Q).
  { apply Qnot_le_lt. intros Hle. apply Qle_bool_iff in Hle. congruence. }
  destruct (Qle_bool 0 x) eqn:E3.
  - apply Qle_bool_iff in E3. rewrite toInteger_nonneg by nra.
    pose proof (Qfloor_resp_le (inject_Z 0) (x * 32767)) as Hlo.
    pose proof (Qfloor_resp_le (x * 32767) (inject_Z 32767)) as Hhi.
    rewrite Qfloor_Z in Hlo, Hhi.
    change (inject_Z 0) with 0%Q in Hlo.
    change (inject_Z 32767) with 32767%Q in Hhi.
    split; [|apply Hhi; lra].
    apply Z.le_trans with 0; [lia|apply Hlo; lra].
  - assert (H0 : (x < 0)%Q).
    { apply Qnot_le_lt. intros Hle. apply Qle_bool_iff in Hle. congruence. }
    rewrite toInteger_nonpos by nra.
    pose proof (Qceiling_resp_le (inject_Z (-32768)) (x * 32768)) as Hlo.
    pose proof (Qceiling_resp_le (x * 32768) (inject_Z 0)) as Hhi.
    rewrite Qceiling_Z in Hlo, Hhi.
    change (inject_Z 0) with 0%Q in Hhi.
    change (inject_Z (-32768)) with (-32768)%Q in Hlo.
    split; [apply Hlo; lra|].
    apply Z.le_trans with 0; [apply Hhi; lra|lia].
Qed.

(** X14. How a sample becomes a 16-bit integer: values from 1 up saturate at
    32767 and values from -1 down at -32768; in between a sample [x >= 0] is
    written as [x * 32767] and a sample [x < 0] as [x * 32768], both cut
    towards zero, so the written integer is within one step of the scaled
    sample and never beyond it. *)
Theorem wav_sample_quantisation (x : Q) :
  let v := Player.toInteger (Player.scaledSample (Fin x)) in
  -32768 <= v <= 32767 /\
  ((1 <= x)%Q -> v = 32767) /\
  ((x <= -1)%Q -> v = -32768) /\
  ((0 <= x <= 1)%Q ->
     (inject_Z v <= x * 32767)%Q /\ (x * 32767 < inject_Z v + 1)%Q) /\
  ((-1 <= x < 0)%Q ->
     (inject_Z v - 1 < x * 32768)%Q /\ (x * 32768 <= inject_Z v)%Q).
Proof.
  cbv zeta. split; [apply toInteger_scaledSample_range|].
  rewrite scaledSample_finite.
  destruct (Qle_bool 1 x) eqn:E1.
  { apply Qle_bool_iff in E1. change (Player.toInteger (Fin 32767)) with 32767.
    split; [reflexivity|]. split; [intros; exfalso; lra|].
    split; [|intros; exfalso; lra].
    intros [_ Hx]. change (inject_Z 32767) with 32767%Q. split; lra. }
  assert (H1 : (x < 1)%Q).
  { apply Qnot_le_lt. intros Hle. apply Qle_bool_iff in Hle. congruence. }
  destruct (Qle_bool x (-1)) eqn:E2.
  { apply Qle_bool_iff in E2.
    change (Player.toInteger (Fin (-1 * 32768))) with (-32768).
    split; [intros; exfalso; lra|]. split; [reflexivity|].
    split; [intros; exfalso; lra|].
    intros [Hx _]. change (inject_Z (-32768)) with (-32768)%Q. split; lra. }
  assert (H2 : (-1 < x)%Q).
  { apply Qnot_le_lt. intros Hle. apply Qle_bool_iff in Hle. congruence. }
  destruct (Qle_bool 0 x) eqn:E3.
  - apply Qle_bool_iff in E3.
    rewrite toInteger_nonneg by nra.
    pose proof (Qfloor_le (x * 32767)) as Hlo.
    pose proof (Qlt_floor (x * 32767)) as Hhi.
    rewrite inject_Z_plus in Hhi. change (inject_Z 1) with 1%Q in Hhi.
    split; [intros; exfalso; lra|]. split; [intros; exfalso; lra|].
    split; [intros _; split; assumption|intros; exfalso; lra].
  - assert (H0 : (x < 0)%Q).
    { apply Qnot_le_lt. intros Hle. apply Qle_bool_iff in Hle. congruence. }
    rewrite toInteger_nonpos by nra.
    pose proof (Qle_ceiling (x * 32768)) as Hhi.
    pose proof (Qceiling_lt (x * 32768)) as Hlo.
    unfold Z.sub in Hlo. rewrite inject_Z_plus in Hlo.
    change (inject_Z (Z.opp 1)) with (-1)%Q in Hlo.
    split; [intros; exfalso; lra|]. split; [intros; exfalso; lra|].
    split; [intros; exfalso; lra|].
    intros _. split; [lra|assumption].
Qed.

Lemma field_app_skip (header rest : list Z) (offset n : nat) :
  Player.field (header ++ rest) (length header + offset) n
  = Player.field rest offset n.
Proof. unfold Player.field. now rewrite drop_app_add. Qed.

(** X13. Sample [i] of channel [channel] is stored at byte
    [44 + 2 * (i * channels + channel)] of the file, frames interleaved, and
    reads back as a signed 16-bit little-endian integer: the integer that
    the encoder computed for the sample, whatever the sample is. *)
Theorem audioBufferToBlob_sample_roundtrip
    (audioBuffer : AudioBuffer) (i channel : nat) :
  (i < frameCount audioBuffer)%nat ->
  (channel < numberOfChannels audioBuffer)%nat ->
  Player.readInt16
    (Player.field (Player.audioBufferToBlob audioBuffer)
       (44 + 2 * (i * numberOfChannels audioBuffer + channel)) 2)
  = Player.toInteger
      (Player.scaledSample (get (getChannelData audioBuffer channel) i)).
Proof.
  intros Hi Hchannel.
  unfold Player.audioBufferToBlob. cbv zeta.
  set (frame := fun i : nat => flat_map _ (seq 0 (numberOfChannels audioBuffer))).
  rewrite !app_assoc.
  match goal with
  | |- context [Player.field (?h ++ ?samples) _ _] =>
      set (header := h);
      replace 44%nat with (length header) by reflexivity
  end.
  rewrite field_app_skip. unfold Player.field.
  replace (2 * (i * numberOfChannels audioBuffer + channel))%nat
    with (i * (numberOfChannels audioBuffer * 2) + channel * 2)%nat by lia.
  rewrite <- drop_drop.
  rewrite (drop_flat_map_const frame (numberOfChannels audioBuffer * 2))
    by (intros j _; apply length_frame).
  rewrite drop_seq. cbn [Nat.add].
  destruct (frameCount audioBuffer - i)%nat as [|rest] eqn:Hrest; [lia|].
  cbn [seq flat_map].
  rewrite drop_app_le by (unfold frame; rewrite length_frame; lia).
  unfold frame at 1.
  rewrite (drop_flat_map_const _ 2) by reflexivity.
  rewrite drop_seq. cbn [Nat.add].
  destruct (numberOfChannels audioBuffer - channel)%nat as [|others] eqn:Ho;
    [lia|].
  cbn [seq flat_map]. unfold Player.setInt16 at 1, Player.setUint16 at 1.
  cbn [app take].
  apply (readInt16_setUint16
           (Player.toInteger
              (Player.scaledSample
                 (get (getChannelData audioBuffer channel) i)))).
  apply toInteger_scaledSample_range.
Qed.

Lemma audioBufferToBlob_sample_roundtrip_witness :
  Player.readInt16 (Player.field (Player.audioBufferToBlob takeB) 66 2) = -8192.
Proof.
  etransitivity.
  - apply (audioBufferToBlob_sample_roundtrip takeB 5 1).
    + vm_compute. lia.
    + vm_compute. lia.
  - reflexivity.
Defined.

Lemma wav_sample_quantisation_witness :
  Player.toInteger (Player.scaledSample (Fin (3 # 2))) = 32767 /\
  Player.toInteger (Player.scaledSample (Fin (-3 # 2))) = -32768.
Proof.
  destruct (wav_sample_quantisation (3 # 2)) as (_ & Hhigh & _).
  destruct (wav_sample_quantisation (-3 # 2)) as (_ & _ & Hlow & _).
  split; [apply Hhigh|apply Hlow]; vm_compute; discriminate.
Defined.

(** ** Key detection and the scale display *)

Lemma dominantPitch_lt (chromagram : list num) :
  (dominantPitch chromagram < 12)%nat.
Proof.
  unfold dominantPitch.
  apply (fold_left_invariant (fun best : num * nat => (snd best < 12)%nat)).
  - simpl. lia.
  - intros best i Hi Hbest. apply elem_of_seq in Hi.
    destruct (ngtb _ _); [simpl; lia|exact Hbest].
Qed.

Lemma string_append_assoc (s t u : string) :
  (s +:+ t) +:+ u = s +:+ t +:+ u.
Proof.
  induction s as [|c s IH]; [reflexivity|].
  change (String c ((s +:+ t) +:+ u) = String c (s +:+ t +:+ u)).
  now rewrite IH.
Qed.

Lemma keyOfChromagram_form (chromagram : list num) :
  exists (pitch : nat) (mode : string),
    (pitch < 12)%nat /\ (mode = "Major" \/ mode = "Minor") /\
    keyOfChromagram chromagram = nth pitch notes "" +:+ " " +:+ mode.
Proof.
  unfold keyOfChromagram. cbv zeta.
  pose proof (dominantPitch_lt chromagram) as Hlt.
  set (pitch := dominantPitch chromagram) in *.
  exists pitch.
  exists (if ngtb (get chromagram ((pitch + 4) mod 12))
                  (get chromagram ((pitch + 3) mod 12))
          then "Major" else "Minor").
  split; [exact Hlt|]. split; [destruct (ngtb _ _); auto|].
  assert (Hnote : notes !! pitch = Some (nth pitch notes "")).
  { clearbody pitch. do 12 (destruct pitch as [|pitch]; [reflexivity|]).
    simpl in Hlt. lia. }
  rewrite Hnote. unfold js_concat. cbn [default]. apply string_append_assoc.
Qed.

(** X15. Whatever the audio and the sample rate, both analysers report the
    key as one of 24 labels: one of the twelve note names, a space, and
    [Major] or [Minor]. *)
Theorem detectKey_label
    (Math : JSMath) (audioData : list num) (sampleRate : positive) :
  Worker.detectKey Math audioData sampleRate ∈ keyLabels /\
  Analyzer.detectKey Math audioData sampleRate ∈ keyLabels.
Proof.
  assert (Hlabel : forall chromagram, keyOfChromagram chromagram ∈ keyLabels).
  { intros chromagram.
    destruct (keyOfChromagram_form chromagram)
      as (pitch & mode & Hlt & Hmode & ->).
    do 12 (destruct pitch as [|pitch];
           [destruct Hmode as [-> | ->];
            apply (bool_decide_unpack _); vm_compute; exact I|]).
    simpl in Hlt. lia. }
  split; apply Hlabel.
Qed.

(** X16. The key that the worker reports always parses: [displayScaleNotes]
    takes neither its hiding branch nor its warning branch, and shows the
    seven distinct notes of the scale of that key, the root first. *)
Theorem detected_key_scale_shown
    (Math : JSMath) (audioData : list num) (sampleRate : positive) :
  exists (rootNote mode : string),
    Worker.detectKey Math audioData sampleRate = rootNote +:+ " " +:+ mode /\
    Scale.displayScaleNotes (Worker.detectKey Math audioData sampleRate)
    = Scale.Shown (Scale.getScaleNotes rootNote mode) /\
    length (Scale.getScaleNotes rootNote mode) = 7%nat /\
    NoDup (Scale.getScaleNotes rootNote mode) /\
    head (Scale.getScaleNotes rootNote mode) = Some rootNote.
Proof.
  unfold Worker.detectKey. cbv zeta.
  match goal with
  | |- context [keyOfChromagram ?c] =>
      destruct (keyOfChromagram_form c) as (pitch & mode & Hlt & Hmode & ->)
  end.
  exists (nth pitch notes ""), mode. split; [reflexivity|].
  do 12 (destruct pitch as [|pitch];
         [destruct Hmode as [-> | ->];
          (split; [vm_compute; reflexivity|]);
          (split; [reflexivity|]);
          (split; [apply (bool_decide_unpack _); vm_compute; exact I|reflexivity])
         |]).
  simpl in Hlt. lia.
Qed.

Lemma indexOf_None (x : string) (names : list string) :
  x ∉ names -> Scale.indexOf x names = None.
Proof.
  induction names as [|y names IH]; intros Hnot; cbn [Scale.indexOf];
    [reflexivity|].
  destruct (String.eqb x y) eqn:E.
  - apply String.eqb_eq in E. subst y. contradiction Hnot. left.
  - rewrite IH; [reflexivity|]. intros Hin. apply Hnot. now right.
Qed.

(** X17. [getScaleNotes] returns no note for a root that is not one of the
    twelve note names, and for each of the twelve, whatever the mode string,
    seven distinct notes of the chromatic scale that start with the root. *)
Theorem getScaleNotes_scale (rootNote mode : string) :
  (rootNote ∉ Scale.allNotes -> Scale.getScaleNotes rootNote mode = []) /\
  (rootNote ∈ Scale.allNotes ->
     length (Scale.getScaleNotes rootNote mode) = 7%nat /\
     NoDup (Scale.getScaleNotes rootNote mode) /\
     head (Scale.getScaleNotes rootNote mode) = Some rootNote /\
     Forall (fun note => note ∈ Scale.allNotes)
            (Scale.getScaleNotes rootNote mode)).
Proof.
  split.
  - intros Hnot. unfold Scale.getScaleNotes. now rewrite indexOf_None.
  - intros Hin. unfold Scale.getScaleNotes, Scale.allNotes in *.
    destruct (String.eqb mode "Major");
      repeat (apply elem_of_cons in Hin as [-> | Hin]);
      try (now apply elem_of_nil in Hin);
      (split; [reflexivity|]);
      (split; [apply (bool_decide_unpack _); vm_compute; exact I|]);
      (split; [reflexivity|apply (bool_decide_unpack _); vm_compute; exact I]).
Qed.

Lemma getScaleNotes_scale_witness :
  Scale.getScaleNotes "H" "Major" = [] /\
  length (Scale.getScaleNotes "F#" "Dorian") = 7%nat /\
  head (Scale.getScaleNotes "F#" "Dorian") = Some "F#".
Proof.
  destruct (getScaleNotes_scale "H" "Major") as [Hnone _].
  destruct (getScaleNotes_scale "F#" "Dorian") as [_ Hscale].
  split.
  - apply Hnone. apply (bool_decide_unpack _). vm_compute. exact I.
  - destruct Hscale as (Hlen & _ & Hhead & _).
    + apply (bool_decide_unpack _). vm_compute. exact I.
    + split; [exact Hlen|exact Hhead].
Defined.

Lemma calculateChromagramFast_no_frame
    (Math : JSMath) (audioData : list num) (sampleRate : positive) :
  (length audioData <= 2048)%nat ->
  Worker.calculateChromagramFast Math audioData sampleRate
  = replicate 12 (Fin 0).
Proof.
  intros Hlen. unfold Worker.calculateChromagramFast.
  rewrite for_range_empty; [reflexivity|reflexivity|].
  unfold Worker.fftSize. lia.
Qed.

Lemma calculateChromagram_no_frame
    (Math : JSMath) (audioData : list num) (sampleRate : positive) :
  (length audioData <= 4096)%nat ->
  Analyzer.calculateChromagram Math audioData sampleRate = replicate 12 NaN.
Proof.
  intros Hlen. unfold Analyzer.calculateChromagram.
  rewrite for_range_empty; [reflexivity|reflexivity|].
  unfold Analyzer.fftSize. lia.
Qed.

(** X18. A recording too short for one analysis frame is always reported in
    C minor: at most 2048 samples for the worker, at most 4096 for the
    synchronous analyser, whatever the samples and the sample rate. *)
Theorem detectKey_short_audio
    (Math : JSMath) (audioData : list num) (sampleRate : positive) :
  ((length audioData <= 2048)%nat ->
   Worker.detectKey Math audioData sampleRate = "C Minor") /\
  ((length audioData <= 4096)%nat ->
   Analyzer.detectKey Math audioData sampleRate = "C Minor").
Proof.
  split; intros Hlen.
  - unfold Worker.detectKey. cbv zeta.
    rewrite calculateChromagramFast_no_frame; [reflexivity|].
    unfold slice. rewrite length_take, length_drop. lia.
  - unfold Analyzer.detectKey.
    rewrite calculateChromagram_no_frame by exact Hlen. reflexivity.
Qed.

Lemma detectKey_short_audio_witness :
  Worker.detectKey sampleMath (replicate 2000 (Fin (1 # 2))) 44100 = "C Minor" /\
  Analyzer.detectKey sampleMath (replicate 2000 (Fin (1 # 2))) 44100
  = "C Minor".
Proof.
  destruct (detectKey_short_audio sampleMath (replicate 2000 (Fin (1 # 2)))
              44100) as [HW HA].
  split; [apply HW|apply HA]; rewrite length_replicate; lia.
Defined.

(** ** The worker's chord timeline *)

Lemma for_range_increasing (stop step : Z) :
  0 < step -> StronglySorted Z.lt (for_range 0 stop step).
Proof.
  intros Hstep. unfold for_range.
  generalize (Z.to_nat ((stop - 0 + step - 1) / step)) as n.
  generalize 0%nat as j. intros j n. revert j.
  induction n as [|n IH]; intros j; cbn [seq map]; constructor.
  - apply IH.
  - apply Forall_forall. intros s Hs.
    apply list_elem_of_fmap in Hs as (k & -> & Hk).
    apply elem_of_seq in Hk. nia.
Qed.

Lemma StronglySorted_snoc {A} (R : A -> A -> Prop) (l : list A) (y : A) :
  StronglySorted R l -> Forall (fun x => R x y) l ->
  StronglySorted R (l ++ [y]).
Proof.
  induction 1 as [|x l Hsorted IH Hx]; intros Hall; cbn [app].
  - repeat constructor.
  - apply Forall_cons in Hall as [Hxy Hall]. constructor; [now apply IH|].
    apply Forall_app. split; [exact Hx|]. now repeat constructor.
Qed.

Lemma start_time_lt (sampleRate : positive) (s t : Z) :
  s < t -> (inject_Z s / rate sampleRate < inject_Z t / rate sampleRate)%Q.
Proof.
  intros Hlt. unfold Qdiv. apply Qmult_lt_compat_r.
  - apply Qinv_lt_0_compat. unfold rate. reflexivity.
  - now rewrite <- Zlt_Qlt.
Qed.

Lemma Worker_detectChordsLoop_increasing
    (audioData : list num) (sampleRate : positive) (starts : list Z) :
  forall chords : list Worker.ChordEvent,
    StronglySorted Z.lt starts ->
    (forall s, s ∈ starts ->
       Forall (fun e => (Worker.timeInSeconds e
                         < inject_Z s / rate sampleRate)%Q) chords) ->
    StronglySorted
      (fun e1 e2 => (Worker.timeInSeconds e1 < Worker.timeInSeconds e2)%Q)
      chords ->
    StronglySorted
      (fun e1 e2 => (Worker.timeInSeconds e1 < Worker.timeInSeconds e2)%Q)
      (Worker.detectChordsLoop audioData sampleRate starts chords).
Proof.
  induction starts as [|start starts IH]; intros chords Hstarts Hbefore Hsorted;
    cbn [Worker.detectChordsLoop]; [exact Hsorted|].
  cbv zeta. destruct (Qlt_le_dec _ _); [exact Hsorted|].
  apply StronglySorted_inv in Hstarts as [Hstarts Hstart].
  set (event := {| Worker.time := _; Worker.timeInSeconds := _;
                   Worker.chord := _ |}).
  assert (Hpushed :
    (forall s, s ∈ starts ->
       Forall (fun e => (Worker.timeInSeconds e
                         < inject_Z s / rate sampleRate)%Q)
              (chords ++ [event])) /\
    StronglySorted
      (fun e1 e2 => (Worker.timeInSeconds e1 < Worker.timeInSeconds e2)%Q)
      (chords ++ [event])).
  { split.
    - intros s Hs. apply Forall_app. split; [apply Hbefore; now right|].
      repeat constructor. cbn [Worker.timeInSeconds].
      apply start_time_lt. rewrite Forall_forall in Hstart. now apply Hstart.
    - apply StronglySorted_snoc; [exact Hsorted|]. apply Hbefore. left. }
  assert (Hkept :
    forall s, s ∈ starts ->
      Forall (fun e => (Worker.timeInSeconds e
                        < inject_Z s / rate sampleRate)%Q) chords).
  { intros s Hs. apply Hbefore. now right. }
  destruct (last chords) as [previous|].
  - destruct (String.eqb _ _).
    + apply IH; assumption.
    + apply IH; [exact Hstarts|apply Hpushed|apply Hpushed].
  - apply IH; [exact Hstarts|apply Hpushed|apply Hpushed].
Qed.

Lemma Worker_detectChordsLoop_head
    (audioData : list num) (sampleRate : positive) (starts : list Z) :
  forall (chords : list Worker.ChordEvent) (first : Worker.ChordEvent),
    head chords = Some first ->
    head (Worker.detectChordsLoop audioData sampleRate starts chords)
    = Some first.
Proof.
  induction starts as [|start starts IH]; intros chords first Hhead;
    cbn [Worker.detectChordsLoop]; [exact Hhead|].
  cbv zeta. destruct (Qlt_le_dec _ _); [exact Hhead|].
  assert (Hpushed : forall event, head (chords ++ [event]) = Some first).
  { intros event. destruct chords; [discriminate|exact Hhead]. }
  destruct (last chords) as [previous|].
  - destruct (String.eqb _ _); apply IH; [exact Hhead|apply Hpushed].
  - apply IH, Hpushed.
Qed.

Lemma Worker_detectChords_head
    (audioData : list num) (sampleRate : positive) :
  exists first : Worker.ChordEvent,
    head (Worker.detectChords audioData sampleRate) = Some first /\
    (Worker.timeInSeconds first == 0)%Q.
Proof.
  unfold Worker.detectChords. cbv zeta.
  assert (Hhead :
    forall first,
      head (Worker.detectChordsLoop audioData sampleRate
              (for_range 0 (Z.of_nat (length audioData)) (Z.pos sampleRate)) [])
      = Some first ->
      (Worker.timeInSeconds first == 0)%Q).
  { unfold for_range.
    destruct (Z.to_nat _) as [|n]; [discriminate|].
    cbn [seq map Worker.detectChordsLoop]. cbv zeta.
    destruct (Qlt_le_dec _ _); [discriminate|].
    cbn [last app]. intros first Hfirst.
    erewrite Worker_detectChordsLoop_head in Hfirst by reflexivity.
    injection Hfirst as <-. cbn [Worker.timeInSeconds].
    rewrite Z.mul_0_r. reflexivity. }
  destruct (Worker.detectChordsLoop _ _ _ _) as [|first rest] eqn:E.
  - eexists. split; [reflexivity|]. reflexivity.
  - exists first. split; [reflexivity|]. now apply Hhead.
Qed.

(** X19. The worker's chord timeline starts at time 0 and its events come
    at strictly increasing times. *)
Theorem Worker_detectChords_timeline
    (audioData : list num) (sampleRate : positive) :
  (exists first : Worker.ChordEvent,
     head (Worker.detectChords audioData sampleRate) = Some first /\
     (Worker.timeInSeconds first == 0)%Q) /\
  StronglySorted
    (fun e1 e2 => (Worker.timeInSeconds e1 < Worker.timeInSeconds e2)%Q)
    (Worker.detectChords audioData sampleRate).
Proof.
  split; [apply Worker_detectChords_head|].
  unfold Worker.detectChords. cbv zeta.
  pose proof (for_range_increasing (Z.of_nat (length audioData))
                (Z.pos sampleRate) ltac:(lia)) as Hstarts.
  pose proof (Worker_detectChordsLoop_increasing audioData sampleRate
                _ [] Hstarts) as Hsorted.
  destruct (Worker.detectChordsLoop _ _ _ _) as [|first rest] eqn:E.
  - repeat constructor.
  - apply Hsorted; [|constructor]. intros s _. constructor.
Qed.

(** ** The chord under the playback cursor *)

Lemma currentChordFrom_spec (detectedChords : list Worker.ChordEvent)
    (currentTime : Q) (i : nat) :
  (currentChordFrom detectedChords currentTime i = -1 /\
   forall k e, (k < i)%nat -> detectedChords !! k = Some e ->
     (currentTime < Worker.timeInSeconds e)%Q) \/
  (exists (j : nat) (event : Worker.ChordEvent),
     currentChordFrom detectedChords currentTime i = Z.of_nat j /\
     (j < i)%nat /\ detectedChords !! j = Some event /\
     (Worker.timeInSeconds event <= currentTime)%Q /\
     forall k e, (j < k < i)%nat -> detectedChords !! k = Some e ->
       (currentTime < Worker.timeInSeconds e)%Q).
Proof.
  induction i as [|i IH]; cbn [currentChordFrom].
  - left. split; [reflexivity|]. intros k e Hk. lia.
  - destruct (detectedChords !! i) as [event|] eqn:Hi.
    + destruct (Qle_bool (Worker.timeInSeconds event) currentTime) eqn:Hle.
      * right. exists i, event. apply Qle_bool_iff in Hle.
        repeat split; [lia|exact Hi|exact Hle|]. intros k e Hk. lia.
      * assert (Hlater : (currentTime < Worker.timeInSeconds event)%Q).
        { apply Qnot_le_lt. intros H. apply Qle_bool_iff in H. congruence. }
        destruct IH as [[Hnone Hall]|(j & e0 & Hj & Hlt & Hlook & Hle0 & Hall)].
        -- left. split; [exact Hnone|]. intros k e Hk Hlookup.
           destruct (decide (k = i)) as [->|Hne];
             [congruence|apply (Hall k); [lia|exact Hlookup]].
        -- right. exists j, e0. repeat split; try assumption; [lia|].
           intros k e Hk Hlookup.
           destruct (decide (k = i)) as [->|Hne];
             [congruence|apply (Hall k); [lia|exact Hlookup]].
    + destruct IH as [[Hnone Hall]|(j & e0 & Hj & Hlt & Hlook & Hle0 & Hall)].
      * left. split; [exact Hnone|]. intros k e Hk Hlookup.
        destruct (decide (k = i)) as [->|Hne];
          [congruence|apply (Hall k); [lia|exact Hlookup]].
      * right. exists j, e0. repeat split; try assumption; [lia|].
        intros k e Hk Hlookup.
        destruct (decide (k = i)) as [->|Hne];
          [congruence|apply (Hall k); [lia|exact Hlookup]].
Qed.

(** X20. During playback of an analysed recording there is always a current
    chord: at every time from 0 on, [updateCurrentChord] selects an event of
    the worker's timeline (never -1), namely the last one that has started. *)
Theorem currentChord_is_latest_started
    (audioData : list num) (sampleRate : positive) (currentTime : Q) :
  (0 <= currentTime)%Q ->
  exists (j : nat) (event : Worker.ChordEvent),
    currentChordIndex (Worker.detectChords audioData sampleRate) currentTime
    = Z.of_nat j /\
    Worker.detectChords audioData sampleRate !! j = Some event /\
    (Worker.timeInSeconds event <= currentTime)%Q /\
    forall k later,
      (j < k)%nat ->
      Worker.detectChords audioData sampleRate !! k = Some later ->
      (currentTime < Worker.timeInSeconds later)%Q.
Proof.
  intros Htime. unfold currentChordIndex.
  destruct (Worker_detectChords_head audioData sampleRate)
    as (first & Hhead & Hzero).
  set (timeline := Worker.detectChords audioData sampleRate) in *.
  rewrite head_lookup in Hhead.
  destruct (currentChordFrom_spec timeline currentTime (length timeline))
    as [[_ Hall]|(j & event & Hj & Hlt & Hlook & Hle & Hall)].
  - exfalso. specialize (Hall 0%nat first).
    apply lookup_lt_Some in Hhead as Hlen.
    specialize (Hall Hlen Hhead). rewrite Hzero in Hall.
    apply (Qlt_irrefl 0). eapply Qle_lt_trans; eassumption.
  - exists j, event. repeat split; try assumption.
    intros k later Hk Hlater. apply (Hall k); [|exact Hlater].
    apply lookup_lt_Some in Hlater. lia.
Qed.

Lemma currentChord_is_latest_started_witness :
  exists (j : nat) (event : Worker.ChordEvent),
    currentChordIndex (Worker.detectChords (replicate 700 (Fin (1 # 2))) 300)
                      (3 # 2)
    = Z.of_nat j /\
    Worker.detectChords (replicate 700 (Fin (1 # 2))) 300 !! j = Some event /\
    (Worker.timeInSeconds event <= 3 # 2)%Q.
Proof.
  destruct (currentChord_is_latest_started
              (replicate 700 (Fin (1 # 2))) 300 (3 # 2))
    as (j & event & Hj & Hlook & Hle & _).
  - discriminate.
  - exists j, event. split; [exact Hj|]. split; [exact Hlook|exact Hle].
Defined.

(** ** The labels of the worker's chords and their diagrams *)

Lemma simple_label (k t : nat) :
  (k < 7)%nat -> (t < 3)%nat ->
  js_concat (["C"; "D"; "E"; "F"; "G"; "A"; "B"] !! k)
            (default "undefined" ([""; "m"; "7"] !! t))
  ∈ simpleChordLabels.
Proof.
  intros Hk Ht.
  do 7 (destruct k as [|k];
        [do 3 (destruct t as [|t];
               [apply (bool_decide_unpack _); vm_compute; exact I|]); lia|]).
  lia.
Qed.

Lemma noteIndex_lookup (names : list string) (peakCount n : nat) :
  (0 < n)%nat ->
  exists k : nat,
    (k < 7)%nat /\
    lookup_num names
      (nrem (Math_floor (ndiv (of_nat (peakCount * 7)) (of_nat n))) 7)
    = names !! k.
Proof.
  intros Hn. unfold of_nat, of_Z, ndiv.
  destruct (Qeq_bool (inject_Z (Z.of_nat n)) 0) eqn:E.
  { apply Qeq_bool_iff in E. unfold Qeq in E. cbn in E. lia. }
  cbn [Math_floor nrem of_Z]. change (7 =? 0) with false. cbv iota. rewrite (Qfloor_Z (Qfloor _)).
  set (z := Qfloor (inject_Z (Z.of_nat (peakCount * 7))
                    / inject_Z (Z.of_nat n))).
  assert (Hz : 0 <= z).
  { unfold z. rewrite <- (Qfloor_Z 0). apply Qfloor_resp_le.
    apply Qle_shift_div_l.
    - change 0%Q with (inject_Z 0). rewrite <- Zlt_Qlt. lia.
    - rewrite Qmult_0_l. change 0%Q with (inject_Z 0).
      rewrite <- Zle_Qle. lia. }
  pose proof (Z.rem_bound_pos z 7 Hz ltac:(lia)) as Hrem.
  exists (Z.to_nat (Z.rem z 7)). split; [lia|].
  unfold lookup_num, of_Z. rewrite Qfloor_Z.
  rewrite Qeq_bool_refl. cbn [andb].
  destruct (0 <=? Z.rem z 7) eqn:E0; [reflexivity|].
  apply Z.leb_gt in E0. lia.
Qed.

Lemma detectChordSimple_in_labels
    (audioData : list num) (sampleRate : positive) :
  (100 < length audioData)%nat ->
  Worker.detectChordSimple audioData sampleRate ∈ simpleChordLabels.
Proof.
  intros Hlen. unfold Worker.detectChordSimple. cbv zeta.
  set (peaks := map _ (for_range 0 (Z.of_nat (length audioData) - 100) 100)).
  set (peakCount := length (filter _ peaks)).
  assert (Hpeaks : (0 < length peaks)%nat).
  { unfold peaks. rewrite length_map, length_for_range.
    assert (1 <= (Z.of_nat (length audioData) - 100 - 0 + 100 - 1) / 100);
      [|lia].
    apply Z.div_le_lower_bound; lia. }
  destruct (noteIndex_lookup ["C"; "D"; "E"; "F"; "G"; "A"; "B"]
              peakCount (length peaks) Hpeaks) as (k & Hk & ->).
  apply simple_label; [exact Hk|].
  apply Nat.mod_upper_bound. lia.
Qed.

(** X21. [detectChordSimple] answers with one of 21 labels (a natural note
    with nothing, [m] or [7]) on more than 100 samples; on 100 samples or
    fewer it has no run to measure and answers with the text [undefined]. *)
Theorem detectChordSimple_label
    (audioData : list num) (sampleRate : positive) :
  ((100 < length audioData)%nat ->
   Worker.detectChordSimple audioData sampleRate ∈ simpleChordLabels) /\
  ((length audioData <= 100)%nat ->
   Worker.detectChordSimple audioData sampleRate = "undefined").
Proof.
  split; [apply detectChordSimple_in_labels|].
  intros Hlen. unfold Worker.detectChordSimple. cbv zeta.
  rewrite for_range_empty; [reflexivity|lia|lia].
Qed.

Lemma detectChordSimple_label_witness :
  Worker.detectChordSimple (replicate 101 (Fin (1 # 2))) 44100
  ∈ simpleChordLabels /\
  Worker.detectChordSimple (replicate 100 (Fin (1 # 2))) 44100 = "undefined".
Proof.
  destruct (detectChordSimple_label (replicate 101 (Fin (1 # 2))) 44100)
    as [Hin _].
  destruct (detectChordSimple_label (replicate 100 (Fin (1 # 2))) 44100)
    as [_ Hout].
  split; [apply Hin|apply Hout]; rewrite length_replicate; lia.
Defined.

Lemma Worker_detectChordsLoop_labels
    (audioData : list num) (sampleRate : positive) (starts : list Z) :
  201 <= Z.pos sampleRate ->
  forall chords : list Worker.ChordEvent,
    Forall (fun e => Worker.chord e ∈ simpleChordLabels) chords ->
    Forall (fun e => Worker.chord e ∈ simpleChordLabels)
           (Worker.detectChordsLoop audioData sampleRate starts chords).
Proof.
  intros Hrate.
  induction starts as [|start starts IH]; intros chords Hchords;
    cbn [Worker.detectChordsLoop]; [exact Hchords|].
  cbv zeta. destruct (Qlt_le_dec _ _) as [|Hwindow]; [exact Hchords|].
  assert (Hpushed :
    forall time timeInSeconds,
      Forall (fun e => Worker.chord e ∈ simpleChordLabels)
        (chords ++
         [{| Worker.time := time; Worker.timeInSeconds := timeInSeconds;
             Worker.chord :=
               Worker.detectChordSimple
                 (slice audioData (Z.to_nat start)
                    (Z.to_nat (Z.min (start + Z.pos sampleRate)
                                     (Z.of_nat (length audioData)))))
                 sampleRate |}])).
  { intros time timeInSeconds. apply Forall_app. split; [exact Hchords|].
    apply Forall_singleton. cbn [Worker.chord].
    apply detectChordSimple_in_labels.
    unfold Qle in Hwindow. cbn in Hwindow. lia. }
  destruct (last chords) as [previous|].
  - destruct (String.eqb _ _); apply IH; [exact Hchords|apply Hpushed].
  - apply IH, Hpushed.
Qed.

Lemma Worker_detectChords_labels
    (audioData : list num) (sampleRate : positive) :
  201 <= Z.pos sampleRate ->
  Forall (fun e => Worker.chord e ∈ simpleChordLabels)
         (Worker.detectChords audioData sampleRate).
Proof.
  intros Hrate. unfold Worker.detectChords. cbv zeta.
  pose proof (Worker_detectChordsLoop_labels audioData sampleRate
                (for_range 0 (Z.of_nat (length audioData)) (Z.pos sampleRate))
                Hrate [] ltac:(constructor)) as Hloop.
  destruct (Worker.detectChordsLoop _ _ _ _); [|exact Hloop].
  apply Forall_singleton. apply (bool_decide_unpack _). vm_compute. exact I.
Qed.

Lemma uniqueOf_spec (names : list string) :
  forall seen : list string,
    NoDup seen ->
    let result :=
      fold_left
        (fun seen x => if bool_decide (x ∈ seen) then seen else seen ++ [x])
        names seen in
    NoDup result /\ forall x, x ∈ result <-> x ∈ seen \/ x ∈ names.
Proof.
  induction names as [|y names IH]; intros seen Hseen; cbn [fold_left].
  - split; [exact Hseen|]. intros x. rewrite elem_of_nil. tauto.
  - cbv zeta. destruct (bool_decide (y ∈ seen)) eqn:E.
    + apply bool_decide_eq_true in E.
      destruct (IH seen Hseen) as [Hno Hmem]. split; [exact Hno|].
      intros x. rewrite (Hmem x), elem_of_cons.
      split; [tauto|]. intros [H|[->|H]]; tauto.
    + apply bool_decide_eq_false in E.
      destruct (IH (seen ++ [y])) as [Hno Hmem].
      { apply NoDup_app. split; [exact Hseen|]. split.
        - intros x Hx Hy. apply list_elem_of_singleton in Hy. now subst.
        - apply NoDup_singleton. }
      split; [exact Hno|].
      intros x. rewrite (Hmem x), elem_of_app, list_elem_of_singleton,
        elem_of_cons. tauto.
Qed.

Lemma simpleChordLabels_diagrams (label : string) :
  label ∈ simpleChordLabels ->
  exists data : Guitar.ChordData,
    Guitar.chordData label = Guitar.Entry data /\
    (Guitar.name data = "Unknown" <-> label ∈ ["F7"; "B7"]).
Proof.
  intros Hlabel. unfold simpleChordLabels in Hlabel. cbn in Hlabel.
  repeat (apply elem_of_cons in Hlabel as [-> | Hlabel]);
    try (now apply elem_of_nil in Hlabel);
    (eexists; split;
     [vm_compute; reflexivity
     |apply (bool_decide_unpack _); vm_compute; exact I]).
Qed.

(** X22. For a timeline of the worker at a sample rate of 201 Hz or more,
    [renderGuitarDiagrams] draws one diagram per distinct chord of the
    timeline, each under one of the 21 labels and each from an entry of
    [GUITAR_CHORDS]; the entry is the placeholder [Unknown] exactly for
    [F7] and [B7], which the table lacks. *)
Theorem renderGuitarDiagrams_of_timeline
    (audioData : list num) (sampleRate : positive) :
  201 <= Z.pos sampleRate ->
  let timeline := Worker.detectChords audioData sampleRate in
  let diagrams := Guitar.renderGuitarDiagrams timeline in
  NoDup (map fst diagrams) /\
  (forall chord, chord ∈ map fst diagrams <->
                 chord ∈ map Worker.chord timeline) /\
  Forall (fun diagram =>
            fst diagram ∈ simpleChordLabels /\
            exists data : Guitar.ChordData,
              snd diagram = Guitar.Entry data /\
              (Guitar.name data = "Unknown" <-> fst diagram ∈ ["F7"; "B7"]))
         diagrams.
Proof.
  intros Hrate timeline diagrams.
  pose proof (Worker_detectChords_labels audioData sampleRate Hrate) as Hlabels.
  fold timeline in Hlabels.
  unfold diagrams, Guitar.renderGuitarDiagrams, Guitar.uniqueOf. cbv zeta.
  destruct (uniqueOf_spec (map Worker.chord timeline) [] (NoDup_nil_2))
    as [Hno Hmem]. cbv zeta in Hno, Hmem.
  set (uniqueChords := fold_left _ (map Worker.chord timeline) []) in *.
  rewrite map_map. cbn [fst]. rewrite map_id.
  split; [exact Hno|]. split.
  - intros chord. rewrite (Hmem chord), elem_of_nil. tauto.
  - apply Forall_forall. intros diagram Hdiagram.
    apply list_elem_of_fmap in Hdiagram as (chordName & -> & Hin).
    cbn [fst snd].
    assert (Hlabel : chordName ∈ simpleChordLabels).
    { apply Hmem in Hin as [Hin|Hin]; [now apply elem_of_nil in Hin|].
      apply list_elem_of_fmap in Hin as (e & -> & He).
      rewrite Forall_forall in Hlabels. now apply Hlabels. }
    split; [exact Hlabel|]. now apply simpleChordLabels_diagrams.
Qed.

Lemma renderGuitarDiagrams_of_timeline_witness :
  NoDup (map fst (Guitar.renderGuitarDiagrams
                    (Worker.detectChords (replicate 700 (Fin (1 # 2))) 300))).
Proof.
  pose proof (renderGuitarDiagrams_of_timeline
                (replicate 700 (Fin (1 # 2))) 300) as H.
  cbv zeta in H. destruct H as [Hno _]; [lia|exact Hno].
Defined.

(** ** The three pitch classes behind a chord label *)

(** The descending sort of [identifyChord] on finite energies: in the sorted
    array no entry has more energy than the one before it. *)
Lemma sort_insert_descending_Sorted (x : num * nat) (l : list (num * nat)) :
  finite (fst x) -> Forall (fun p => finite (fst p)) l ->
  Sorted (fun p q => exists a b : Q,
            fst p = Fin a /\ fst q = Fin b /\ (b <= a)%Q) l ->
  Sorted (fun p q => exists a b : Q,
            fst p = Fin a /\ fst q = Fin b /\ (b <= a)%Q)
         (sort_insert (fun a b => nsub (fst b) (fst a)) x l).
Proof.
  intros [vx Hx] Hfin Hsorted.
  induction Hsorted as [|y l Hl IH Hhd]; cbn [sort_insert].
  - repeat constructor.
  - apply Forall_cons in Hfin as [[vy Hy] Hfin].
    rewrite ngtb_nsub, Hx, Hy. cbn [ngtb].
    destruct (Qle_bool vy vx) eqn:E; cbn [negb].
    + apply Qle_bool_iff in E.
      constructor; [now constructor|]. constructor.
      exists vx, vy. now rewrite Hx, Hy.
    + assert (Hlt : (vx <= vy)%Q).
      { destruct (Qlt_le_dec vx vy) as [H|H]; [now apply Qlt_le_weak|].
        apply Qle_bool_iff in H. congruence. }
      constructor; [now apply IH|].
      destruct l as [|z l]; cbn [sort_insert].
      * constructor. exists vy, vx. now rewrite Hx, Hy.
      * destruct (ngtb _ _).
        -- constructor. now inversion Hhd.
        -- constructor. exists vy, vx. now rewrite Hx, Hy.
Qed.

Lemma js_sort_descending_Sorted (l : list (num * nat)) :
  Forall (fun p => finite (fst p)) l ->
  Sorted (fun p q => exists a b : Q,
            fst p = Fin a /\ fst q = Fin b /\ (b <= a)%Q)
         (js_sort (fun a b => nsub (fst b) (fst a)) l).
Proof.
  induction 1 as [|x l Hx Hl IH]; cbn [js_sort fold_right]; [constructor|].
  apply sort_insert_descending_Sorted; [exact Hx| |exact IH].
  fold (js_sort (fun a b : num * nat => nsub (fst b) (fst a)) l).
  apply Forall_forall. intros p Hp. rewrite js_sort_Permutation in Hp.
  rewrite Forall_forall in Hl. now apply Hl.
Qed.

Lemma topPitchClasses_strongest (chromagram : list num) :
  length chromagram = 12%nat -> Forall finite chromagram ->
  exists r a b : nat,
    (r < a)%nat /\ (a < b)%nat /\ (b < 12)%nat /\
    topPitchClasses chromagram = [r; a; b] /\
    forall i j : nat,
      i ∈ [r; a; b] -> j ∉ [r; a; b] -> (j < 12)%nat ->
      ngtb (get chromagram j) (get chromagram i) = false.
Proof.
  intros Hlen Hfinite. unfold topPitchClasses. cbv zeta.
  set (indexed := imap (fun idx val => (val, idx)) chromagram).
  assert (Hindexed : forall p, p ∈ indexed ->
            finite (fst p) /\ get chromagram (snd p) = fst p).
  { intros p Hp. unfold indexed in Hp.
    apply elem_of_lookup_imap in Hp as (idx & val & -> & Hlookup).
    cbn [fst snd]. split.
    - rewrite Forall_forall in Hfinite.
      eapply Hfinite, list_elem_of_lookup_2, Hlookup.
    - unfold get. now apply nth_lookup_Some. }
  pose proof (js_sort_descending_Sorted indexed) as Hdescending.
  pose proof (js_sort_Permutation (fun a b : num * nat => nsub (fst b) (fst a))
                indexed) as Hsame.
  set (sorted := js_sort (fun a b => nsub (fst b) (fst a)) indexed) in *.
  assert (Hstrong :
    StronglySorted (fun p q => exists a b : Q,
                      fst p = Fin a /\ fst q = Fin b /\ (b <= a)%Q) sorted).
  { apply Sorted_StronglySorted.
    - intros p q t (a & b & Hp & Hq & Hba) (b' & c & Hq' & Ht & Hcb).
      exists a, c. split; [exact Hp|]. split; [exact Ht|].
      rewrite Hq in Hq'. injection Hq' as <-. eapply Qle_trans; eassumption.
    - apply Hdescending, Forall_forall. intros p Hp. now apply Hindexed. }
  assert (Hperm : snd <$> sorted ≡ₚ seq 0 12).
  { rewrite Hsame. unfold indexed. now rewrite indexed_indices, Hlen. }
  assert (Hno : NoDup (snd <$> sorted)) by (rewrite Hperm; apply NoDup_seq).
  assert (Hlt : forall i, i ∈ snd <$> sorted -> (i < 12)%nat).
  { intros i Hi. rewrite Hperm in Hi. apply elem_of_seq in Hi. lia. }
  assert (Hall : forall j, (j < 12)%nat -> j ∈ snd <$> sorted).
  { intros j Hj. rewrite Hperm. apply elem_of_seq. lia. }
  assert (Hget : forall p, p ∈ sorted -> get chromagram (snd p) = fst p).
  { intros p Hp. rewrite Hsame in Hp. now apply Hindexed. }
  assert (Hlength : length sorted = 12%nat).
  { apply Permutation_length in Hperm.
    now rewrite length_fmap, length_seq in Hperm. }
  clearbody sorted. clear Hdescending Hsame.
  destruct sorted as [|x1 [|x2 [|x3 rest]]]; try discriminate.
  cbn [firstn map]. cbn [fmap list_fmap] in Hno, Hlt, Hall.
  apply StronglySorted_inv in Hstrong as [Hstrong H1].
  apply StronglySorted_inv in Hstrong as [Hstrong H2].
  apply StronglySorted_inv in Hstrong as [_ H3].
  apply Forall_cons in H1 as [_ H1]. apply Forall_cons in H1 as [_ H1].
  apply Forall_cons in H2 as [_ H2].
  match goal with
  | |- context [js_sort ?c ?l] =>
      pose proof (js_sort_Permutation c l) as Htop;
      pose proof (js_sort_ascending_Sorted l) as Hsorted;
      set (top := js_sort c l) in *
  end.
  assert (Hlen3 : length top = 3%nat)
    by (now rewrite (Permutation_length Htop)).
  assert (Hno3 : NoDup top).
  { rewrite Htop. apply NoDup_cons in Hno as [Hn1 Hno].
    apply NoDup_cons in Hno as [Hn2 Hno]. apply NoDup_cons in Hno as [Hn3 _].
    rewrite !NoDup_cons. set_unfold. repeat split; try tauto.
    apply NoDup_nil_2. }
  assert (Hlt3 : forall i, i ∈ top -> (i < 12)%nat).
  { intros i Hi. rewrite Htop in Hi. apply Hlt. set_unfold. tauto. }
  assert (Hstrongest : forall i j : nat,
            i ∈ top -> j ∉ top -> (j < 12)%nat ->
            ngtb (get chromagram j) (get chromagram i) = false).
  { intros i j Hi Hj Hj12. rewrite Htop in Hi, Hj.
    assert (Hrest : exists y, y ∈ rest /\ j = snd y).
    { specialize (Hall j Hj12).
      apply elem_of_cons in Hall as [->|Hall]; [contradiction Hj; left|].
      apply elem_of_cons in Hall as [->|Hall];
        [contradiction Hj; right; left|].
      apply elem_of_cons in Hall as [->|Hall];
        [contradiction Hj; do 2 right; left|].
      apply list_elem_of_fmap in Hall as (y & -> & Hy). now exists y. }
    destruct Hrest as (y & Hy & ->).
    assert (Hle : exists a b : Q,
              get chromagram i = Fin a /\ get chromagram (snd y) = Fin b /\
              (b <= a)%Q).
    { rewrite (Hget y) by (do 3 right; exact Hy).
      rewrite Forall_forall in H1, H2, H3.
      apply elem_of_cons in Hi as [->|Hi];
        [rewrite (Hget x1) by left; now apply H1|].
      apply elem_of_cons in Hi as [->|Hi];
        [rewrite (Hget x2) by (right; left); now apply H2|].
      apply elem_of_cons in Hi as [->|Hi];
        [rewrite (Hget x3) by (do 2 right; left); now apply H3|].
      now apply elem_of_nil in Hi. }
    destruct Hle as (a & b & -> & -> & Hba). cbn [ngtb].
    apply negb_false_iff, Qle_bool_iff, Hba. }
  clearbody top.
  destruct top as [|r [|a [|b [|? ?]]]]; try discriminate.
  exists r, a, b.
  apply Sorted_inv in Hsorted as [Hsorted Hra].
  apply Sorted_inv in Hsorted as [_ Hab].
  apply HdRel_inv in Hra. apply HdRel_inv in Hab.
  apply NoDup_cons in Hno3 as [Hr Hno3]. apply NoDup_cons in Hno3 as [Ha _].
  assert (b < 12)%nat by (apply Hlt3; do 2 right; left).
  assert (r <> a) by (intros ->; apply Hr; left).
  assert (a <> b) by (intros ->; apply Ha; left).
  repeat split; try reflexivity; try assumption; lia.
Qed.

(** X23. On twelve finite energies [identifyChord] always answers, and its
    label is built on three of the strongest pitch classes: there are
    [r < a < b] such that no other pitch class has more energy than any of
    the three, and the label is the name of the lowest one, [r], with the
    suffix of the template that the intervals [a - r] and [b - r] match, if
    any.  A chord is therefore never named after A# or B. *)
Theorem identifyChord_strongest_classes (chromagram : list num) :
  length chromagram = 12%nat -> Forall finite chromagram ->
  exists r a b : nat,
    (r < a)%nat /\ (a < b)%nat /\ (b < 12)%nat /\
    identifyChord chromagram = Some (spec_chordLabel r (a - r) (b - r)) /\
    forall i j : nat,
      i ∈ [r; a; b] -> j ∉ [r; a; b] -> (j < 12)%nat ->
      ngtb (get chromagram j) (get chromagram i) = false.
Proof.
  intros Hlen Hfinite.
  destruct (topPitchClasses_strongest chromagram Hlen Hfinite)
    as (r & a & b & Hra & Hab & Hb & Htop & Hstrongest).
  exists r, a, b. repeat split; try assumption.
  unfold identifyChord. rewrite Htop. now apply labelOfTop3_templates.
Qed.

Lemma identifyChord_strongest_classes_witness :
  exists r a b : nat,
    (r < a)%nat /\ (a < b)%nat /\ (b < 12)%nat /\
    identifyChord
      [Fin (1 # 4); Fin 0; Fin 1; Fin 0; Fin 0; Fin (3 # 4);
       Fin 0; Fin (1 # 4); Fin 0; Fin (1 # 2); Fin 0; Fin 0]
    = Some (spec_chordLabel r (a - r) (b - r)).
Proof.
  destruct (identifyChord_strongest_classes
              [Fin (1 # 4); Fin 0; Fin 1; Fin 0; Fin 0; Fin (3 # 4);
               Fin 0; Fin (1 # 4); Fin 0; Fin (1 # 2); Fin 0; Fin 0])
    as (r & a & b & Hra & Hab & Hb & Hlabel & _).
  - reflexivity.
  - repeat constructor; now eexists.
  - exists r, a, b. repeat split; assumption.
Defined.

Lemma calculateChromagramFast_normalised_witness :
  let chromagram :=
    Worker.calculateChromagramFast sampleMath
      (replicate 2100 (Fin (1 # 2))) 8000 in
  length chromagram = 12%nat /\ Forall finite_nonneg chromagram.
Proof.
  destruct (calculateChromagramFast_normalised sampleMath
              (replicate 2100 (Fin (1 # 2))) 8000) as (Hlen & Hfin & _).
  - exact sampleMath_regular.
  - apply Forall_replicate. now eexists.
  - split; [exact Hlen|exact Hfin].
Defined.
